(** * Deployment-decision core: dependency staging, risk scoring, canary rollout

    A shallow embedding of the Python sources
      - [cicd_orchestrator.py]      (DependencyGraphAgent, the build
                                     orchestrators, ComplianceValidator and
                                     UnifiedCIPipelineOrchestrator),
      - [risk_assesment.py]         (evaluators and RiskAssessmentAgent),
      - [canary_deployment.py]      (CanaryDeploymentAgent),
      - [canary_monitoring_agent.py] (CanaryMonitoringAgent),
      - [blue_green_deployment.py]  (BlueGreenDeploymentAgent),
    followed by the properties established about them.

    Conventions of the embedding.
      - Python [int] is [Z]; Python numbers that may be [float] are exact
        rationals [Q].  The properties stated on this exact arithmetic are
        those that rounding preserves (orderings, bounds with slack,
        relations between fields).  Where the exact value of a float
        computation decides the result, as in the composite risk score
        that [int()] truncates, the computation is modelled in binary64
        (modules [Binary64] and [RiskScore64]).
      - A [dict] is a [gmap], a [set] is a [gset]; iterating over a set
        visits [elements s], one fixed enumeration of the set.
      - An f-string is kept as the list of its pieces ([fstring]); numbers
        are not rendered to text.
      - External collaborators (metrics sources, traffic router, clock) are
        explicit arguments, and the calls made to them are recorded in a
        trace. *)

From Stdlib Require Import ZArith QArith Qround Qminmax Qabs Qpower Lqa Lia Sorted.
From Stdlib Require Floats.
From stdpp Require Import gmap strings list fin_maps relations.

Open Scope string_scope.

(** ** Shared vocabulary *)

(** One piece of an f-string: literal text or an interpolated value. *)
Inductive fpiece : Type :=
| Lit (s : string)
| NumZ (z : Z)
| NumQ (q : Q).

Definition fstring : Type := list fpiece.

(** [dict.get(key, default)] on a record field that may be absent. *)
Definition get {A : Type} (field : option A) (dflt : A) : A := default dflt field.

(** [xs.append(x)] *)
Definition append {A : Type} (xs : list A) (x : A) : list A := (xs ++ [x])%list.

(** * DependencyGraphAgent (cicd_orchestrator.py) *)

Module Orchestrator.

Inductive CloudProvider : Type := AWS | AZURE | GCP.

Record ServiceDependency : Type := mkServiceDependency {
  service_name : string;
  min_version : string;
  location : CloudProvider;
  region : string;
  requires_health_check : bool;
  estimated_latency_ms : Q;
  deployment_order : string  (* "before", "after", "parallel_with" *)
}.

(** The message [f"Circular dependency detected in: {remaining}"], kept as
    the set it prints. *)
Inductive DeploymentError : Type :=
| CircularDependency (remaining : gset string).

Record DependencyGraphAgent : Type := mkDependencyGraphAgent {
  dependency_map : gmap string (list ServiceDependency)
}.

Section discover.
Variable self : DependencyGraphAgent.

(** [self.dependency_map.get(service, [])] *)
Definition dependencies (service : string) : list ServiceDependency :=
  default [] (dependency_map self !! service).

(** [[d.service_name for d in dependencies
        if d.service_name in remaining and d.service_name != service]] *)
Definition undeployed_deps (remaining : gset string) (service : string) : list string :=
  service_name <$>
    filter (λ d, service_name d ∈ remaining ∧ service_name d ≠ service)
           (dependencies service).

(** The body of [for service in remaining]: the services appended to
    [current_stage]. *)
Definition current_stage_of (remaining : gset string) : list string :=
  filter (λ service, undeployed_deps remaining service = []) (elements remaining).

(** Local variables of [discover_deployment_order]. *)
Record LoopState : Type := mkLoopState {
  deployment_stages : list (list string);
  errors : list DeploymentError;
  deployed : gset string;
  remaining : gset string
}.

(** [while remaining: ...].  Every iteration that does not [break] removes
    the non-empty [current_stage] from [remaining], so [size remaining]
    iterations are enough; [fuel] counts them. *)
Fixpoint stage_loop (fuel : nat) (st : LoopState) : LoopState :=
  match fuel with
  | O => st
  | S fuel' =>
    if decide (remaining st = ∅) then st
    else
      let current_stage := current_stage_of (remaining st) in
      if decide (current_stage = []) then
        mkLoopState (deployment_stages st)
                    (errors st ++ [CircularDependency (remaining st)])
                    (deployed st) (remaining st)
      else
        stage_loop fuel'
          (mkLoopState (deployment_stages st ++ [current_stage])
                       (errors st)
                       (deployed st ∪ list_to_set current_stage)
                       (remaining st ∖ list_to_set current_stage))
  end.

Definition initial_state (services : list string) : LoopState :=
  mkLoopState [] [] ∅ (list_to_set services).

Definition discover_deployment_order (services : list string)
  : list (list string) * list DeploymentError :=
  let st := stage_loop (size (remaining (initial_state services)))
                       (initial_state services) in
  (deployment_stages st, errors st).

End discover.

(** *** Vocabulary of the properties *)

(** A declared dependency edge between two requested services. *)
Definition dep_edge (self : DependencyGraphAgent) (req : gset string)
  (s d : string) : Prop :=
  s ∈ req ∧ d ∈ req ∧ ∃ dep, dep ∈ dependencies self s ∧ service_name dep = d.

(** The dependency graph restricted to the request has no cycle. *)
Definition acyclic (self : DependencyGraphAgent) (req : gset string) : Prop :=
  ∀ s, ¬ tc (dep_edge self req) s s.

(** [s] is a member of the stage-group with index [i]. *)
Definition in_stage (stages : list (list string)) (i : nat) (s : string) : Prop :=
  ∃ st, stages !! i = Some st ∧ s ∈ st.

(** [d] is staged strictly before [s]. *)
Definition staged_before (stages : list (list string)) (d s : string) : Prop :=
  ∃ i j, (i < j)%nat ∧ in_stage stages i d ∧ in_stage stages j s.

(** Two services are co-members of one stage-group. *)
Definition co_staged (stages : list (list string)) (a b : string) : Prop :=
  ∃ i, in_stage stages i a ∧ in_stage stages i b.

(** The only declared edges between [a] and [b] carry the hint
    [parallel_with], and there is at least one. *)
Definition only_parallel_between (self : DependencyGraphAgent) (a b : string) : Prop :=
  a ≠ b ∧
  (∃ dep, dep ∈ dependencies self a ∧ service_name dep = b) ∧
  (∀ dep, dep ∈ dependencies self a → service_name dep = b →
          deployment_order dep = "parallel_with") ∧
  (∀ dep, dep ∈ dependencies self b → service_name dep = a →
          deployment_order dep = "parallel_with").

(** The invariant of the staging loop for the request [req]: what is staged
    is the part of the request no longer remaining, no service is staged
    twice, and every staged service comes after its requested
    dependencies. *)
Record Inv (self : DependencyGraphAgent) (req : gset string) (st : LoopState)
  : Prop := mkInv {
  inv_remaining : remaining st ⊆ req;
  inv_deployed : deployed st = req ∖ remaining st;
  inv_nodup : NoDup (concat (deployment_stages st));
  inv_staged : ∀ s, s ∈ concat (deployment_stages st) ↔ s ∈ req ∧ s ∉ remaining st;
  inv_order : ∀ j s dep,
    in_stage (deployment_stages st) j s →
    dep ∈ dependencies self s → service_name dep ∈ req → service_name dep ≠ s →
    ∃ i, (i < j)%nat ∧ in_stage (deployment_stages st) i (service_name dep)
}.

(** Example inputs. *)
Definition dep_on (name hint : string) : ServiceDependency :=
  mkServiceDependency name "1.0.0" AWS "us-east-1" true 45 hint.

Definition chain_agent : DependencyGraphAgent :=
  mkDependencyGraphAgent
    (<["auth" := []]>
     (<["payment" := [dep_on "auth" "before"]]>
      (<["notify" := [dep_on "payment" "before"]]> ∅))).

Definition parallel_agent : DependencyGraphAgent :=
  mkDependencyGraphAgent (<["a" := [dep_on "b" "parallel_with"]]> ∅).

Definition selfdep_agent : DependencyGraphAgent :=
  mkDependencyGraphAgent (<["a" := [dep_on "a" "before"]]> ∅).

End Orchestrator.

(** ** Further vocabulary for the dependency graph *)

Module DependencyGraph.
Import Orchestrator.

(** A declared edge between two distinct requested services: the edges the
    staging loop looks at. *)
Definition strict_edge (self : DependencyGraphAgent) (req : gset string)
  (s d : string) : Prop :=
  dep_edge self req s d ∧ d ≠ s.

(** No cycle through distinct requested services. *)
Definition acyclic_strict (self : DependencyGraphAgent) (req : gset string) : Prop :=
  ∀ s, ¬ tc (strict_edge self req) s s.

(** Example inputs. *)
Definition cyclic_agent : DependencyGraphAgent :=
  mkDependencyGraphAgent
    (<["a" := [dep_on "b" "before"]]>
     (<["b" := [dep_on "a" "after"]]>
      (<["c" := []]> ∅))).

Definition hinted_agent : DependencyGraphAgent :=
  mkDependencyGraphAgent (<["a" := [dep_on "b" "before"]]> ∅).

End DependencyGraph.

(** ** [calculate_blast_radius] (cicd_orchestrator.py) *)

Module BlastRadius.
Import Orchestrator.

(** The dict returned by [calculate_blast_radius]. *)
Record BlastRadiusReport : Type := mkBlastRadiusReport {
  direct_dependents : list string;
  transitive_dependents : list string;
  estimated_user_impact_percent : Q;
  critical_path_services : list string
}.

(** [self.dependency_map.items()]: one fixed enumeration of the entries. *)
Definition items (self : DependencyGraphAgent)
  : list (string * list ServiceDependency) :=
  map_to_list (dependency_map self).

(** The first loop: [blast_radius["direct_dependents"]] and
    [affected_services]. *)
Definition note_direct (service other_service : string)
  (st : list string * gset string) (dep : ServiceDependency)
  : list string * gset string :=
  if decide (service_name dep = service)
  then (append st.1 other_service, st.2 ∪ {[other_service]})
  else st.

Definition find_direct (service : string)
  (its : list (string * list ServiceDependency)) : list string * gset string :=
  fold_left (λ st it, fold_left (note_direct service it.1) it.2 st) its ([], ∅).

(** Local variables of the second loop. *)
Record Bfs : Type := mkBfs {
  transitive : list string;
  affected_services : gset string;
  to_check : list string
}.

(** [for dep in deps: if dep.service_name == checking: ...] *)
Definition note_transitive (checking other_service : string) (st : Bfs)
  (dep : ServiceDependency) : Bfs :=
  if decide (service_name dep = checking)
  then mkBfs (append (transitive st) other_service)
             (affected_services st ∪ {[other_service]})
             (append (to_check st) other_service)
  else st.

(** [if other_service not in affected_services: for dep in deps: ...]; the
    membership test is made once, before the inner loop. *)
Definition scan_item (checking : string) (st : Bfs)
  (it : string * list ServiceDependency) : Bfs :=
  if decide (it.1 ∈ affected_services st) then st
  else fold_left (note_transitive checking it.1) it.2 st.

(** [while to_check: checking = to_check.pop(0); for ... in items: ...].
    [fuel] bounds the number of iterations. *)
Fixpoint bfs_loop (its : list (string * list ServiceDependency))
  (fuel : nat) (st : Bfs) : Bfs :=
  match fuel with
  | O => st
  | S fuel' =>
    match to_check st with
    | [] => st
    | checking :: rest =>
      bfs_loop its fuel'
        (fold_left (scan_item checking) its
           (mkBfs (transitive st) (affected_services st) rest))
    end
  end.

(** Every service enters [to_check] at most once for each dependency it
    declares, so this many iterations are enough. *)
Definition bfs_fuel (its : list (string * list ServiceDependency))
  (affected : gset string) : nat :=
  size affected + sum_list ((λ it, length it.2) <$> its).

Definition calculate_blast_radius (self : DependencyGraphAgent) (service : string)
  : BlastRadiusReport :=
  let '(direct, affected_services) := find_direct service (items self) in
  let to_check := elements affected_services in
  let st := bfs_loop (items self) (bfs_fuel (items self) affected_services)
              (mkBfs [] affected_services to_check) in
  mkBlastRadiusReport direct (transitive st) 0 [].

(** *** Vocabulary of the properties *)

(** Service [o] declares a dependency named [d]. *)
Definition declares (self : DependencyGraphAgent) (o d : string) : Prop :=
  ∃ deps dep, dependency_map self !! o = Some deps ∧ dep ∈ deps ∧
              service_name dep = d.

(** The dependency entries of the services not yet affected: what the
    second loop may still append to [to_check]. *)
Definition pending (its : list (string * list ServiceDependency))
  (affected : gset string) : nat :=
  sum_list ((λ it, if decide (it.1 ∈ affected) then 0%nat else length it.2) <$> its).

(** How many dependencies of a list are named [d]. *)
Definition mentions (d : string) (deps : list ServiceDependency) : nat :=
  length (filter (λ dep, service_name dep = d) deps).

(** The invariant of the second loop, for the service whose blast radius
    is computed: affected services depend on it, directly or not; its
    direct dependents are affected; an affected service is either still in
    [to_check] or has all its dependents affected; [transitive] holds the
    affected services that are not direct dependents; and the work left
    fits in [fuel]. *)
Record BfsInv (self : DependencyGraphAgent) (service : string) (fuel : nat)
  (st : Bfs) : Prop := mkBfsInv {
  bfs_sound : ∀ y, y ∈ affected_services st → tc (declares self) y service;
  bfs_direct : ∀ y, declares self y service → y ∈ affected_services st;
  bfs_closed : ∀ y, y ∈ affected_services st →
    y ∈ to_check st ∨ ∀ o, declares self o y → o ∈ affected_services st;
  bfs_queue : ∀ y, y ∈ to_check st → y ∈ affected_services st;
  bfs_transitive : ∀ y, y ∈ transitive st ↔
    y ∈ affected_services st ∧ ¬ declares self y service;
  bfs_work : (length (to_check st) + pending (items self) (affected_services st)
              ≤ fuel)%nat
}.

(** No service lists the same dependency name twice. *)
Definition distinct_deps (self : DependencyGraphAgent) : Prop :=
  ∀ o deps, dependency_map self !! o = Some deps → NoDup (service_name <$> deps).

(** Example inputs: a diamond ([a] required by [b] and [c], both required
    by [d]), and a map where [d] lists [b] twice. *)
Definition diamond_agent : DependencyGraphAgent :=
  mkDependencyGraphAgent
    (<["a" := []]>
     (<["b" := [dep_on "a" "before"]]>
      (<["c" := [dep_on "a" "before"]]>
       (<["d" := [dep_on "b" "before"; dep_on "c" "before"]]> ∅)))).

Definition repeated_agent : DependencyGraphAgent :=
  mkDependencyGraphAgent
    (<["b" := [dep_on "a" "before"]]>
     (<["d" := [dep_on "b" "before"; dep_on "b" "after"]]> ∅)).

End BlastRadius.

(** ** [UnifiedCIPipelineOrchestrator] and its collaborators
    (cicd_orchestrator.py) *)

Module Pipeline.

(** The dataclass [BuildArtifact]. *)
Module BuildArtifact.
Record t : Type := mk {
  service : string;
  version : string;
  image_uri : string;
  size_mb : Q;
  build_time_seconds : Q;
  scan_status : string;  (* "PASSED", "FAILED", "WARNINGS" *)
  image_sha : string;
  sbom_uri : string
}.
End BuildArtifact.

(** The dataclass [ComplianceCheckResult]. *)
Module ComplianceCheckResult.
Record t : Type := mk {
  rule_name : string;
  passed : bool;
  category : string;
  severity : string;
  finding : option string;
  remediation : option string
}.
End ComplianceCheckResult.

Record AWSBuildOrchestrator : Type := mkAWSBuildOrchestrator {
  region : string
}.

Record AzureBuildOrchestrator : Type := mkAzureBuildOrchestrator {
  subscription_id : string
}.

(** [policy_db]: per service, the flags of its policy entry. *)
Record ComplianceValidator : Type := mkComplianceValidator {
  policy_db : gmap string (gmap string bool)
}.

(** What [datetime.now()] returns, with the attributes the pipeline reads;
    [seconds] places the instant on the time line. *)
Record Instant : Type := mkInstant {
  isoformat : string;
  hour : Z;
  weekday : Z;
  seconds : Q
}.

(** [git_sha[:8]] *)
Definition prefix8 (git_sha : string) : string := String.substring 0 8 git_sha.

(** [AWSBuildOrchestrator.build_service]; the buildspec text it generates
    is not used by the build. *)
Definition aws_build_service (self : AWSBuildOrchestrator)
  (service_name git_sha dockerfile_path : string) : BuildArtifact.t :=
  let image_uri :=
    "123456789.dkr.ecr." +:+ region self +:+ ".amazonaws.com/" +:+ service_name
      +:+ ":latest" in
  BuildArtifact.mk service_name (prefix8 git_sha) image_uri (2453 # 10) 180
    "PASSED" "sha256:abcd1234"
    ("s3://sbom-bucket/" +:+ service_name +:+ "-sbom.json").

(** [AzureBuildOrchestrator.build_service] *)
Definition azure_build_service (self : AzureBuildOrchestrator)
  (service_name git_sha dockerfile_path : string) : BuildArtifact.t :=
  let acr_url := "myregistry.azurecr.io/" +:+ service_name in
  let image_uri := acr_url +:+ ":latest" in
  BuildArtifact.mk service_name (prefix8 git_sha) image_uri (2321 # 10) 165
    "PASSED" "sha256:xyz7890"
    ("https://myregistry.azurecr.io/" +:+ service_name +:+ "/sbom.json").

(** [ComplianceValidator.validate_security] *)
Definition validate_security (self : ComplianceValidator)
  (artifact : BuildArtifact.t) : list ComplianceCheckResult.t :=
  let results := [] in
  let cve_result :=
    ComplianceCheckResult.mk "No Critical CVEs in Dependencies"
      (bool_decide (BuildArtifact.scan_status artifact = "PASSED"))
      "security" "CRITICAL"
      (if decide (BuildArtifact.scan_status artifact = "PASSED") then None
       else Some "Critical CVEs detected")
      (Some "Update dependencies to patched versions") in
  let results := append results cve_result in
  let provenance_result :=
    ComplianceCheckResult.mk "Image Provenance Verified" true "security" "HIGH"
      (Some "Image built from verified source") None in
  let results := append results provenance_result in
  results.

(** [9 <= now.hour < 17 and now.weekday() < 5] *)
Definition is_business_hours (now : Instant) : bool :=
  ((9 <=? hour now)%Z && (hour now <? 17)%Z) && (weekday now <? 5)%Z.

(** [ComplianceValidator.validate_governance]; [now] is the reading of the
    clock it takes. *)
Definition validate_governance (self : ComplianceValidator) (now : Instant)
  : list ComplianceCheckResult.t :=
  let results := [] in
  let approval_result :=
    ComplianceCheckResult.mk "Change Approved via CAB" true "governance" "HIGH"
      (Some "Change ticket approved by Change Advisory Board") None in
  let results := append results approval_result in
  let window_result :=
    ComplianceCheckResult.mk "Deployment Within Approved Window"
      (is_business_hours now) "governance" "MEDIUM"
      (Some (if is_business_hours now
             then "Current time is within approved deployment window"
             else "Outside deployment window"))
      (if is_business_hours now then None
       else Some "Schedule for next business hours") in
  let results := append results window_result in
  results.

(** [compliance_requirements.get("gdpr_governed")], as a truth value. *)
Definition gdpr_governed (self : ComplianceValidator) (service : string) : bool :=
  let compliance_requirements := default ∅ (policy_db self !! service) in
  default false (compliance_requirements !! "gdpr_governed").

(** [ComplianceValidator.validate_compliance] *)
Definition validate_compliance (self : ComplianceValidator)
  (service region : string) : list ComplianceCheckResult.t :=
  let results := [] in
  if gdpr_governed self service then
    append results
      (ComplianceCheckResult.mk "GDPR: Data at Rest Encryption Required" true
         "compliance" "CRITICAL" (Some "All storage encrypted with AES-256") None)
  else results.

(** One entry of the [services] argument: a dict with the keys ["name"],
    ["cloud"] and ["dockerfile"]. *)
Record Service : Type := mkService {
  name : string;
  cloud : string;
  dockerfile : string
}.

(** [d[k] = v] on a dict kept in insertion order: a key that is present
    keeps its place. *)
Fixpoint dict_set {A : Type} (d : list (string * A)) (k : string) (v : A)
  : list (string * A) :=
  match d with
  | [] => [(k, v)]
  | (k', v') :: d' =>
    if decide (k' = k) then (k, v) :: d' else (k', v') :: dict_set d' k v
  end.

(** [pipeline_result["builds"][service_name]] *)
Record BuildSummary : Type := mkBuildSummary {
  status : string;
  image_uri : string;
  build_time_seconds : Q;
  scan_status : string
}.

(** One entry of ["details"]. *)
Record Detail : Type := mkDetail {
  rule : string;
  passed : bool;
  severity : string;
  category : string
}.

(** [pipeline_result["compliance_checks"][service_name]]; the keys
    ["passed"] and ["total"] carry the names of the variables stored. *)
Record ComplianceSummary : Type := mkComplianceSummary {
  passed_count : Z;
  total_count : Z;
  details : list Detail
}.

Record PipelineResult : Type := mkPipelineResult {
  timestamp : string;
  services_requested : Z;
  builds : list (string * BuildSummary);
  compliance_checks : list (string * ComplianceSummary);
  deployment_ready : bool;
  errors : list Orchestrator.DeploymentError;
  total_time_seconds : Q;
  deployment_stages : list (list string)
}.

Record UnifiedCIPipelineOrchestrator : Type := mkUnifiedCIPipelineOrchestrator {
  aws : AWSBuildOrchestrator;
  azure : AzureBuildOrchestrator;
  compliance : ComplianceValidator;
  dependencies : Orchestrator.DependencyGraphAgent
}.

Section orchestrate.
Variable self : UnifiedCIPipelineOrchestrator.
(** [clock k] is what the [k]-th call of [datetime.now()] returns. *)
Variable clock : nat → Instant.

(** Step 1, first loop: the build requested for one service. *)
Definition build_task (service : Service) : string * BuildArtifact.t :=
  let task :=
    if decide (cloud service = "aws")
    then aws_build_service (aws self) (name service) "abc1234" (dockerfile service)
    else azure_build_service (azure self) (name service) "abc1234"
           (dockerfile service) in
  (name service, task).

(** The dict stored under [pipeline_result["builds"][service_name]]. *)
Definition build_summary (artifact : BuildArtifact.t) : BuildSummary :=
  mkBuildSummary "SUCCESS" (BuildArtifact.image_uri artifact)
    (BuildArtifact.build_time_seconds artifact)
    (BuildArtifact.scan_status artifact).

(** Step 1, second loop: [build_results] and [pipeline_result["builds"]]. *)
Definition record_build
  (st : list (string * BuildArtifact.t) * list (string * BuildSummary))
  (task : string * BuildArtifact.t)
  : list (string * BuildArtifact.t) * list (string * BuildSummary) :=
  let '(service_name, artifact) := task in
  (dict_set st.1 service_name artifact,
   dict_set st.2 service_name (build_summary artifact)).

Definition run_builds (services : list Service)
  : list (string * BuildArtifact.t) * list (string * BuildSummary) :=
  let build_tasks := build_task <$> services in
  fold_left record_build build_tasks ([], []).

(** Local state of step 2; [readings] counts the calls of the clock made
    so far. *)
Record Validation : Type := mkValidation {
  readings : nat;
  checked : list (string * ComplianceSummary);
  all_compliance_passed : bool
}.

Definition all_checks_of (now : Instant) (service_name : string)
  (artifact : BuildArtifact.t) : list ComplianceCheckResult.t :=
  let security_checks := validate_security (compliance self) artifact in
  let governance_checks := validate_governance (compliance self) now in
  let compliance_checks :=
    validate_compliance (compliance self) service_name "us-east-1" in
  (security_checks ++ governance_checks ++ compliance_checks)%list.

Definition detail_of (c : ComplianceCheckResult.t) : Detail :=
  mkDetail (ComplianceCheckResult.rule_name c) (ComplianceCheckResult.passed c)
    (ComplianceCheckResult.severity c) (ComplianceCheckResult.category c).

(** The dict stored under
    [pipeline_result["compliance_checks"][service_name]]. *)
Definition compliance_summary (all_checks : list ComplianceCheckResult.t)
  : ComplianceSummary :=
  let passed_count :=
    Z.of_nat (length (filter (λ c, ComplianceCheckResult.passed c = true)
                             all_checks)) in
  let total_count := Z.of_nat (length all_checks) in
  mkComplianceSummary passed_count total_count (detail_of <$> all_checks).

(** The body of [for service_name, artifact in build_results.items()]. *)
Definition validate_build (st : Validation) (it : string * BuildArtifact.t)
  : Validation :=
  let '(service_name, artifact) := it in
  let all_checks := all_checks_of (clock (readings st)) service_name artifact in
  let summary := compliance_summary all_checks in
  mkValidation (S (readings st))
    (dict_set (checked st) service_name summary)
    (if (passed_count summary <? total_count summary)%Z then false
     else all_compliance_passed st).

(** Step 2; the clock has been read once before it starts. *)
Definition run_validation (build_results : list (string * BuildArtifact.t))
  : Validation :=
  fold_left validate_build build_results (mkValidation 1 [] true).

(** The truth value of a list. *)
Definition truthy {A : Type} (l : list A) : bool :=
  match l with [] => false | _ => true end.

Definition orchestrate_build_pipeline (services : list Service) : PipelineResult :=
  let start_time := clock 0 in
  (* Step 1 *)
  let '(build_results, builds) := run_builds services in
  (* Step 2 *)
  let st := run_validation build_results in
  (* Step 3 *)
  let service_names := name <$> services in
  let '(deployment_stages, deployment_errors) :=
    Orchestrator.discover_deployment_order (dependencies self) service_names in
  let errors := if truthy deployment_errors then ([] ++ deployment_errors)%list
                else [] in
  let all_compliance_passed :=
    if truthy deployment_errors then false else all_compliance_passed st in
  let end_time := clock (readings st) in
  mkPipelineResult (isoformat start_time) (Z.of_nat (length services))
    builds (checked st)
    (all_compliance_passed && negb (truthy deployment_errors))
    errors
    (seconds end_time - seconds start_time)
    deployment_stages.

End orchestrate.

(** *** Vocabulary of the properties *)

(** The last entry of [services] that carries the name [n]. *)
Definition last_named (services : list Service) (n : string) (s : Service) : Prop :=
  ∃ before after, services = (before ++ s :: after)%list ∧ name s = n ∧
                  n ∉ name <$> after.

(** The names requested, as a set. *)
Definition requested (services : list Service) : gset string :=
  list_to_set (name <$> services).

(** Example inputs. *)
Definition office_clock (k : nat) : Instant :=
  mkInstant "2024-01-03T10:00:00" 10 2 (inject_Z (Z.of_nat k)).

Definition night_clock (k : nat) : Instant :=
  mkInstant "2024-01-03T22:00:00" 22 2 (inject_Z (Z.of_nat k)).

Definition example_orchestrator : UnifiedCIPipelineOrchestrator :=
  mkUnifiedCIPipelineOrchestrator
    (mkAWSBuildOrchestrator "us-east-1")
    (mkAzureBuildOrchestrator "sub-123")
    (mkComplianceValidator (<["payment" := <["gdpr_governed" := true]> ∅]> ∅))
    Orchestrator.chain_agent.

Definition example_services : list Service :=
  [mkService "payment" "aws" "Dockerfile";
   mkService "auth" "gcp" "Dockerfile";
   mkService "payment" "azure" "Dockerfile.v2"].

End Pipeline.

(** * Risk assessment (risk_assesment.py) *)

(** ** Python arithmetic on exact rationals *)

Open Scope Q_scope.

(** [int(x)]: truncation toward zero. *)
Definition py_int (x : Q) : Z :=
  if Qlt_le_dec x 0 then Qceiling x else Qfloor x.

(** [min(a, b)]: [b] when [b < a], else [a]. *)
Definition py_min (a b : Q) : Q := if Qlt_le_dec b a then b else a.

(** [a // b] for a positive literal [b]: the floor of the quotient. *)
Definition py_floordiv (a b : Q) : Q := inject_Z (Qfloor (a / b)).

(** [sum(xs)]: starts from [0] and adds from the left. *)
Definition py_sum (xs : list Q) : Q := fold_left Qplus xs 0.

(** [round(x)]: nearest integer, ties to the even one. *)
Definition py_round (x : Q) : Z :=
  let f := Qfloor x in
  let r := x - inject_Z f in
  if Qlt_le_dec r (1 # 2) then f
  else if Qlt_le_dec (1 # 2) r then (f + 1)%Z
  else if Z.even f then f else (f + 1)%Z.

(** A reading of [datetime.now()]. *)
Record datetime : Type := mkDatetime {
  isoformat : string;
  hour : Z
}.

Module RiskAssessment.

Inductive RiskLevel : Type := LOW | MEDIUM | HIGH | CRITICAL.

(** [RiskLevel.name] *)
Definition RiskLevel_name (l : RiskLevel) : string :=
  match l with
  | LOW => "LOW" | MEDIUM => "MEDIUM" | HIGH => "HIGH" | CRITICAL => "CRITICAL"
  end.

(** [severity] is annotated [int], but the evaluators also store floats
    ([min(50, perf_regression * 2)], [(100 - coverage) // 2]), hence [Q]. *)
Record RiskFactor : Type := mkRiskFactor {
  name : string;
  severity : Q;  (* 0-100 *)
  category : string;  (* "security", "testing", "compliance", "infrastructure" *)
  description : fstring;
  mitigation : option string
}.

Record DeploymentContext : Type := mkDeploymentContext {
  service_name : string;
  version : string;
  environment : string;
  change_set : list string;
  deployed_by : string;
  deployment_time : datetime
}.

(** *** SecurityEvaluator *)

Record ScanResults : Type := mkScanResults {
  vulnerability_count : option Z;
  cert_expires_in_days : option Z;
  secrets_detected : option bool
}.

Module SecurityEvaluator.

Record t : Type := mk { security_db : gmap string ScanResults }.

Definition evaluate (self : t) (service version : string) : list RiskFactor :=
  let factors : list RiskFactor := [] in
  let scan_results :=
    default (mkScanResults None None None) (security_db self !! service) in
  let vuln_count := get (vulnerability_count scan_results) 0%Z in
  let factors :=
    if (0 <? vuln_count)%Z then
      append factors (mkRiskFactor
        "Known Vulnerabilities Detected"
        (inject_Z (Z.min 50 (vuln_count * 10)))
        "security"
        [NumZ vuln_count; Lit " vulnerabilities found in dependency scan"]
        (Some "Review and patch vulnerabilities before deployment"))
    else factors in
  let cert_expires_days := get (cert_expires_in_days scan_results) 365%Z in
  let factors :=
    if (cert_expires_days <? 30)%Z then
      append factors (mkRiskFactor
        "SSL Certificate Expiring Soon"
        40
        "security"
        [Lit "SSL certificate expires in "; NumZ cert_expires_days; Lit " days"]
        (Some "Renew certificate before expiration"))
    else factors in
  let factors :=
    if get (secrets_detected scan_results) false then
      append factors (mkRiskFactor
        "Hardcoded Secrets Detected"
        80
        "security"
        [Lit "Hardcoded credentials found in codebase"]
        (Some "Remove secrets and use secret management service"))
    else factors in
  factors.

End SecurityEvaluator.

(** *** TestingEvaluator *)

Record TestResults : Type := mkTestResults {
  code_coverage : option Q;
  failed_tests : option Z;
  performance_regression_percent : option Q
}.

Module TestingEvaluator.

Record t : Type := mk { test_db : gmap string TestResults }.

Definition evaluate (self : t) (service version : string) : list RiskFactor :=
  let factors : list RiskFactor := [] in
  let test_results :=
    default (mkTestResults None None None) (test_db self !! service) in
  let coverage := get (code_coverage test_results) 0 in
  let factors :=
    if Qlt_le_dec coverage 70 then
      append factors (mkRiskFactor
        "Low Code Coverage"
        (py_floordiv (100 - coverage) 2)
        "testing"
        [Lit "Code coverage is "; NumQ coverage; Lit "% (target: 70%+)"]
        (Some "Add unit tests and integration tests"))
    else factors in
  let factors :=
    if (0 <? get (failed_tests test_results) 0)%Z then
      append factors (mkRiskFactor
        "Test Failures Detected"
        60
        "testing"
        [NumZ (get (failed_tests test_results) 0%Z); Lit " tests failed"]
        (Some "Fix failing tests before deployment"))
    else factors in
  let perf_regression := get (performance_regression_percent test_results) 0 in
  let factors :=
    if Qlt_le_dec 5 perf_regression then
      append factors (mkRiskFactor
        "Performance Regression Detected"
        (py_min 50 (perf_regression * 2))
        "testing"
        [Lit "Performance degradation: "; NumQ perf_regression; Lit "%"]
        (Some "Optimize code or increase resource allocation"))
    else factors in
  factors.

End TestingEvaluator.

(** *** ComplianceEvaluator *)

Record Policies : Type := mkPolicies {
  restricted_deployment_windows : option (list Z);
  data_residency_required : option bool
}.

Record ComplianceDb : Type := mkComplianceDb {
  policies : option Policies;
  change_approved : option bool;
  deployment_in_correct_region : option bool
}.

Module ComplianceEvaluator.

Record t : Type := mk { compliance_db : ComplianceDb }.

(** [now] is what [datetime.now()] returns when the deployment window is
    checked. *)
Definition evaluate (self : t) (now : datetime)
  (service version environment : string) : list RiskFactor :=
  let factors : list RiskFactor := [] in
  let policies := get (policies (compliance_db self)) (mkPolicies None None) in
  let factors :=
    if negb (get (change_approved (compliance_db self)) false) then
      append factors (mkRiskFactor
        "Change Not Approved"
        100
        "compliance"
        [Lit "Release not approved by change management board"]
        (Some "Submit and obtain change approval"))
    else factors in
  let factors :=
    if decide (environment = "production") then
      let restricted_windows := get (restricted_deployment_windows policies) [] in
      let deployment_hour := hour now in
      if decide (deployment_hour ∈ restricted_windows) then
        append factors (mkRiskFactor
          "Deployment Outside Approved Window"
          40
          "compliance"
          [Lit "Current hour "; NumZ deployment_hour; Lit " is in restricted window"]
          (Some "Deploy during approved maintenance windows"))
      else factors
    else factors in
  let factors :=
    if get (data_residency_required policies) false then
      if negb (get (deployment_in_correct_region (compliance_db self)) true) then
        append factors (mkRiskFactor
          "Data Residency Violation"
          85
          "compliance"
          [Lit "Service not deployed in compliant region"]
          (Some "Redeploy to correct geographic region"))
      else factors
    else factors in
  factors.

End ComplianceEvaluator.

(** *** InfrastructureEvaluator *)

Record InfraStatus : Type := mkInfraStatus {
  cluster_health : option Q;
  disk_usage_percent : option Q;
  deployments_in_queue : option Z
}.

Module InfrastructureEvaluator.

Record t : Type := mk { infra_db : gmap string InfraStatus }.

Definition evaluate (self : t) (service version : string) : list RiskFactor :=
  let factors : list RiskFactor := [] in
  let infra_status :=
    default (mkInfraStatus None None None) (infra_db self !! service) in
  let cluster_health := get (cluster_health infra_status) 100 in
  let factors :=
    if Qlt_le_dec cluster_health 80 then
      append factors (mkRiskFactor
        "Degraded Cluster Health"
        (100 - cluster_health)
        "infrastructure"
        [Lit "Cluster health score: "; NumQ cluster_health; Lit "%"]
        (Some "Investigate and resolve cluster issues before deployment"))
    else factors in
  let disk_usage := get (disk_usage_percent infra_status) 0 in
  let factors :=
    if Qlt_le_dec 85 disk_usage then
      append factors (mkRiskFactor
        "High Disk Usage"
        30
        "infrastructure"
        [Lit "Disk usage: "; NumQ disk_usage; Lit "%"]
        (Some "Clean up old logs/data or expand storage"))
    else factors in
  let pipeline_queue := get (deployments_in_queue infra_status) 0%Z in
  let factors :=
    if (5 <? pipeline_queue)%Z then
      append factors (mkRiskFactor
        "Pipeline Congestion"
        20
        "infrastructure"
        [NumZ pipeline_queue; Lit " deployments queued"]
        (Some "Wait for pipeline capacity or stagger deployment"))
    else factors in
  factors.

End InfrastructureEvaluator.

(** *** RiskAssessmentAgent *)

(** One entry of [report["factors_by_category"][category]]. *)
Record CategorizedFactor : Type := mkCategorizedFactor {
  cf_name : string;
  cf_severity : Q
}.

(** The decision report built by [assess]; each entry of [factors] is the
    dict with the five fields of the [RiskFactor] it is made from. *)
Record Report : Type := mkReport {
  timestamp : string;
  service : string;
  report_version : string;
  report_environment : string;
  risk_score : Z;
  risk_level : string;
  factors : list RiskFactor;
  recommendation : string;
  factors_by_category : gmap string (list CategorizedFactor);
  autonomous_decision : bool
}.

Record RiskAssessmentAgent : Type := mkRiskAssessmentAgent {
  security_evaluator : SecurityEvaluator.t;
  testing_evaluator : TestingEvaluator.t;
  compliance_evaluator : ComplianceEvaluator.t;
  infrastructure_evaluator : InfrastructureEvaluator.t;
  learning_history : list Report
}.

(** [RiskAssessmentAgent.__init__] *)
Definition init (security_db : gmap string ScanResults)
  (test_db : gmap string TestResults) (compliance_db : ComplianceDb)
  (infra_db : gmap string InfraStatus) : RiskAssessmentAgent :=
  mkRiskAssessmentAgent (SecurityEvaluator.mk security_db)
    (TestingEvaluator.mk test_db) (ComplianceEvaluator.mk compliance_db)
    (InfrastructureEvaluator.mk infra_db) [].

(** Weight by category (compliance > security > testing > infrastructure) *)
Definition weights : gmap string Q :=
  <["compliance" := 1.5]>
  (<["security" := 1.3]>
  (<["testing" := 1.0]>
  (<["infrastructure" := 0.8]> ∅))).

(** [weights.get(f.category, 1.0)] *)
Definition weight_of (f : RiskFactor) : Q := default 1.0 (weights !! category f).

Definition weighted_sum (factors : list RiskFactor) : Q :=
  py_sum (map (λ f, severity f * weight_of f) factors).

Definition total_weight (factors : list RiskFactor) : Q :=
  py_sum (map weight_of factors).

(** In exact arithmetic.  The binary64 computation is
    [RiskScore64._calculate_risk_score], which returns this value or one
    less ([risk_score64_vs_exact]). *)
Definition _calculate_risk_score (factors : list RiskFactor) : Z :=
  match factors with
  | [] => 0%Z
  | _ =>
    if Qlt_le_dec 0 (total_weight factors)
    then py_int (weighted_sum factors / total_weight factors)
    else 0%Z
  end.

Definition _classify_risk_level (score : Z) : RiskLevel :=
  if (score <? 20)%Z then LOW
  else if (score <? 45)%Z then MEDIUM
  else if (score <? 70)%Z then HIGH
  else CRITICAL.

Definition _generate_recommendation (score : Z) (factors : list RiskFactor)
  (context : DeploymentContext) : string :=
  if (score <? 20)%Z then
    "✓ APPROVED: Deploy immediately. All systems green."
  else if (score <? 45)%Z then
    "⚠ CONDITIONAL: Deploy with caution. Review mitigations below."
  else if (score <? 70)%Z then
    "🛑 MANUAL REVIEW REQUIRED: Address critical factors before deployment."
  else
    "❌ BLOCKED: Critical issues detected. Do not proceed without resolution.".

Definition _categorize_factors (factors : list RiskFactor)
  : gmap string (list CategorizedFactor) :=
  fold_left
    (λ categorized factor,
       let categorized :=
         match categorized !! category factor with
         | None => <[category factor := []]> categorized
         | Some _ => categorized
         end in
       <[category factor :=
           append (default [] (categorized !! category factor))
                  (mkCategorizedFactor (name factor) (severity factor))]>
         categorized)
    factors ∅.

(** [sorted(all_factors, key=lambda x: x.severity, reverse=True)]: a stable
    sort by descending severity, here by insertion from the right. *)
Fixpoint insert_desc (x : RiskFactor) (sorted : list RiskFactor) : list RiskFactor :=
  match sorted with
  | [] => [x]
  | y :: rest =>
    if Qlt_le_dec (severity x) (severity y)
    then y :: insert_desc x rest
    else x :: y :: rest
  end.

Definition sorted_by_severity_desc (factors : list RiskFactor) : list RiskFactor :=
  foldr insert_desc [] factors.

(** [all_factors] as collected by [assess]. *)
Definition all_factors_of (self : RiskAssessmentAgent)
  (context : DeploymentContext) (now_window : datetime) : list RiskFactor :=
  let all_factors : list RiskFactor := [] in
  let all_factors := (all_factors ++
    SecurityEvaluator.evaluate (security_evaluator self)
      (service_name context) (version context))%list in
  let all_factors := (all_factors ++
    TestingEvaluator.evaluate (testing_evaluator self)
      (service_name context) (version context))%list in
  let all_factors := (all_factors ++
    ComplianceEvaluator.evaluate (compliance_evaluator self) now_window
      (service_name context) (version context) (environment context))%list in
  let all_factors := (all_factors ++
    InfrastructureEvaluator.evaluate (infrastructure_evaluator self)
      (service_name context) (version context))%list in
  all_factors.

(** [assess]: [now_window] and [now_report] are the readings of
    [datetime.now()] in the compliance evaluator and for the timestamp.
    Returns the report and the agent with the report appended to its
    history. *)
Definition assess (self : RiskAssessmentAgent) (context : DeploymentContext)
  (now_window now_report : datetime) : Report * RiskAssessmentAgent :=
  let all_factors := all_factors_of self context now_window in
  let risk_score := _calculate_risk_score all_factors in
  let risk_level := _classify_risk_level risk_score in
  let recommendation := _generate_recommendation risk_score all_factors context in
  let report :=
    mkReport (isoformat now_report)
             (service_name context)
             (version context)
             (environment context)
             risk_score
             (RiskLevel_name risk_level)
             (sorted_by_severity_desc all_factors)
             recommendation
             (_categorize_factors all_factors)
             (risk_score <? 30)%Z in
  (report,
   mkRiskAssessmentAgent (security_evaluator self) (testing_evaluator self)
     (compliance_evaluator self) (infrastructure_evaluator self)
     (append (learning_history self) report)).

(** *** Vocabulary of the properties *)

(** The composite score as the specification words it:
    [round(Σ severity·weight / Σ weight)], [0] if there are no factors. *)
Definition spec_risk_score (factors : list RiskFactor) : Z :=
  match factors with
  | [] => 0%Z
  | _ => py_round (weighted_sum factors / total_weight factors)
  end.

(** The weighted average of the severities. *)
Definition weighted_average (factors : list RiskFactor) : Q :=
  weighted_sum factors / total_weight factors.


(** A compliance factor whose severity lies in the band that
    [_classify_risk_level] calls CRITICAL. *)
Definition blocking_compliance (f : RiskFactor) : Prop :=
  category f = "compliance" ∧ 70 <= severity f.

(** How far the weighted severities lie above the autonomous-approval
    threshold 30: [Σ weight·(severity − 30)]. *)
Definition excess (fs : list RiskFactor) : Q :=
  weighted_sum fs - 30 * total_weight fs.

(** Example inputs. *)
Definition factor (cat : string) (sev : Q) : RiskFactor :=
  mkRiskFactor "factor" sev cat [] None.

Definition unapproved_agent : RiskAssessmentAgent :=
  init (<["payment-service" := mkScanResults (Some 1%Z) (Some 45%Z) (Some false)]> ∅)
       (<["payment-service" := mkTestResults (Some 69) (Some 0%Z) (Some 6)]> ∅)
       (mkComplianceDb (Some (mkPolicies (Some [2; 3; 4]%Z) (Some true)))
                       (Some false) (Some true))
       (<["payment-service" := mkInfraStatus (Some 79) (Some 90) (Some 6%Z)]> ∅).

Definition payment_context : DeploymentContext :=
  mkDeploymentContext "payment-service" "2.4.1" "production"
    ["feature/payment-retry-logic"; "bugfix/timeout-handling"] "sarah.chen"
    (mkDatetime "2024-01-01T12:00:00" 12).

End RiskAssessment.

Close Scope Q_scope.

(** ** Further vocabulary for the risk reports *)

Module RiskReports.
Import RiskAssessment.

Open Scope Q_scope.

(** Equality of rationals is decidable. *)
#[global] Instance Qeq_decision (a b : Q) : Decision (a == b) := Qeq_dec a b.

(** [a] may stand before [b] in a list sorted by descending severity. *)
Definition severity_desc (a b : RiskFactor) : Prop := severity b <= severity a.

(** The entry of [factors_by_category] made from a factor. *)
Definition categorized (f : RiskFactor) : CategorizedFactor :=
  mkCategorizedFactor (name f) (severity f).

(** The test results, cluster status and scan results the evaluators read
    for the service of a deployment. *)
Definition test_results_of (self : RiskAssessmentAgent)
  (context : DeploymentContext) : TestResults :=
  default (mkTestResults None None None)
    (TestingEvaluator.test_db (testing_evaluator self) !! service_name context).

Definition infra_status_of (self : RiskAssessmentAgent)
  (context : DeploymentContext) : InfraStatus :=
  default (mkInfraStatus None None None)
    (InfrastructureEvaluator.infra_db (infrastructure_evaluator self)
       !! service_name context).

Close Scope Q_scope.

End RiskReports.

(** ** Learning history (risk_assesment.py, [get_deployment_insights]) *)

Module RiskInsights.
Import RiskAssessment.

Open Scope Q_scope.

(** [issue_counts[issue_name] = issue_counts.get(issue_name, 0) + 1] on a
    dict kept in insertion order: a known key keeps its place, a new key
    goes last. *)
Fixpoint bump (issue_name : string) (issue_counts : list (string * Z))
  : list (string * Z) :=
  match issue_counts with
  | [] => [(issue_name, 0 + 1)%Z]
  | (k, v) :: rest =>
    if decide (k = issue_name) then (k, v + 1)%Z :: rest
    else (k, v) :: bump issue_name rest
  end.

(** [sorted(items, key=lambda x: x[1], reverse=True)]: stable, by
    descending count. *)
Fixpoint insert_by_count (x : string * Z) (sorted : list (string * Z))
  : list (string * Z) :=
  match sorted with
  | [] => [x]
  | y :: rest =>
    if (x.2 <? y.2)%Z then y :: insert_by_count x rest else x :: y :: rest
  end.

Definition sorted_by_count_desc (items : list (string * Z)) : list (string * Z) :=
  foldr insert_by_count [] items.

(** The two nested [for] loops of [_analyze_common_issues]. *)
Definition issue_counts_of (history : list Report) : list (string * Z) :=
  fold_left
    (λ issue_counts report,
       fold_left (λ issue_counts factor, bump (name factor) issue_counts)
                 (factors report) issue_counts)
    history [].

Definition _analyze_common_issues (self : RiskAssessmentAgent) : list (string * Z) :=
  take 5 (sorted_by_count_desc (issue_counts_of (learning_history self))).

Record Insights : Type := mkInsights {
  total_assessments : nat;
  avg_risk_score : Q;
  approved_rate : Q;
  most_common_issues : list (string * Z)
}.

(** [sum(d["risk_score"] for d in history)] *)
Definition sum_scores (history : list Report) : Z :=
  fold_left (λ acc d, acc + risk_score d)%Z history 0%Z.

(** [sum(1 for d in history if d["autonomous_decision"])] *)
Definition count_approved (history : list Report) : Z :=
  fold_left (λ acc d, if autonomous_decision d then acc + 1 else acc)%Z history 0%Z.

(** [get_deployment_insights]; [None] is the empty dict returned for an
    empty history. *)
Definition get_deployment_insights (self : RiskAssessmentAgent) : option Insights :=
  match learning_history self with
  | [] => None
  | _ =>
    Some (mkInsights
      (length (learning_history self))
      (inject_Z (sum_scores (learning_history self))
         / inject_Z (Z.of_nat (length (learning_history self))))
      (inject_Z (count_approved (learning_history self))
         / inject_Z (Z.of_nat (length (learning_history self))))
      (_analyze_common_issues self))
  end.

(** *** Vocabulary of the properties *)

(** [a] may stand before [b] in a list sorted by descending count. *)
Definition count_desc (a b : string * Z) : Prop := (b.2 ≤ a.2)%Z.

(** How many factors named [n] the reports of a history list. *)
Definition occurrences (n : string) (history : list Report) : Z :=
  Z.of_nat (length (filter (λ f, name f = n) (concat (factors <$> history)))).

(** Example input: two assessments of the unapproved release. *)
Definition twice_assessed : RiskAssessmentAgent :=
  let now := mkDatetime "2024-01-01T12:00:00" 12 in
  (assess (assess unapproved_agent payment_context now now).2
          payment_context now now).2.

Close Scope Q_scope.

End RiskInsights.
(** * Binary64 arithmetic

    Python's [float] is IEEE 754 binary64.  A binary64 value is kept as the
    rational it denotes, and every operation returns the binary64 value
    nearest to its exact result, ties going to the even significand.  The
    exponent range is not modelled: on the factor lists the theorems speak
    of (integer severities in 0-100, at most 100000 factors) every value
    of the score computation is 0 or lies between [2^-18] and [2^24], far
    from the overflow and underflow thresholds. *)

Module Binary64.

Open Scope Q_scope.

(** [⌊log2 |x|⌋], for [x] other than 0. *)
Definition ilog2 (x : Q) : Z :=
  let e0 := (Z.log2 (Z.abs (Qnum x)) - Z.log2 (Zpos (Qden x)))%Z in
  if Qlt_le_dec (Qabs x) (2 ^ e0) then (e0 - 1)%Z else e0.

(** The binary64 value nearest to [x], ties to the even significand:
    53 significant bits. *)
Definition rnd (x : Q) : Q :=
  if Qeq_dec x 0 then 0
  else
    let q := (ilog2 x - 52)%Z in
    Qred (inject_Z (py_round (x / 2 ^ q)) * 2 ^ q).

Definition fadd (x y : Q) : Q := rnd (x + y).
Definition fsub (x y : Q) : Q := rnd (x - y).
Definition fmul (x y : Q) : Q := rnd (x * y).
Definition fdiv (x y : Q) : Q := rnd (x / y).

(** Half the distance between 1 and the next binary64 value: the largest
    relative error of one rounding. *)
Definition u : Q := 1 # 9007199254740992.

(** The distance between 1 and the next binary64 value. *)
Definition eps : Q := 1 # 4503599627370496.

(** [xt] is the non-negative [x] up to the relative error [k * eps]: what
    [k] roundings can make of it. *)
Definition approx (k : Q) (xt x : Q) : Prop :=
  (1 - k * eps) * x <= xt ∧ xt <= (1 + k * eps) * x.

(** The value of a finite [spec_float]. *)
Definition SF2Q (f : SpecFloat.spec_float) : Q :=
  match f with
  | SpecFloat.S754_finite s m e =>
    (if s then -1 else 1) * inject_Z (Zpos m) * 2 ^ e
  | _ => 0
  end.

End Binary64.


(** ** [_calculate_risk_score] in binary64 (risk_assesment.py)

    The score is the one place of the risk assessment where the exact
    value of a float computation decides the result: [int()] truncates
    the quotient.  Here every float literal stands for the binary64 value
    nearest to it and every operation is rounded. *)

Module RiskScore64.
Import RiskAssessment Binary64.

Open Scope Q_scope.

(** Weight by category (compliance > security > testing > infrastructure) *)
Definition weights : gmap string Q :=
  <["compliance" := rnd 1.5]>
  (<["security" := rnd 1.3]>
  (<["testing" := rnd 1.0]>
  (<["infrastructure" := rnd 0.8]> ∅))).

(** [weights.get(f.category, 1.0)] *)
Definition weight_of (f : RiskFactor) : Q :=
  default (rnd 1.0) (weights !! category f).

(** How [sum()] adds floats.  CPython before 3.12 makes one rounded
    addition after the other.  From 3.12 on it also collects the rounding
    errors of these additions in a compensation term, which it adds to the
    result at the end (Neumaier's method). *)
Inductive Summation : Type := Plain | Compensated.

(** One round of the compensated loop:
    [t = f_result + x;
     if (fabs(f_result) >= fabs(x)) c += (f_result - t) + x;
     else c += (x - t) + f_result;
     f_result = t]. *)
Definition compensated_step (st : Q * Q) (x : Q) : Q * Q :=
  let f_result := st.1 in
  let c := st.2 in
  let t := fadd f_result x in
  let c :=
    if Qle_bool (Qabs x) (Qabs f_result)
    then fadd c (fadd (fsub f_result t) x)
    else fadd c (fadd (fsub x t) f_result) in
  (t, c).

(** [sum(xs)] on floats, from the start value [0].  The first item is
    added to the int [0]; the compensated loop begins with the second. *)
Definition py_sum (how : Summation) (xs : list Q) : Q :=
  match how with
  | Plain => fold_left fadd xs 0
  | Compensated =>
    match xs with
    | [] => 0
    | x :: rest =>
      let st := fold_left compensated_step rest (fadd 0 x, 0) in
      if Qeq_dec st.2 0 then st.1 else fadd st.1 st.2
    end
  end.

(** [f.severity * weights.get(f.category, 1.0)]: the severity, an [int] or
    a [float], is taken to binary64 and the product is rounded. *)
Definition weighted_sum (how : Summation) (factors : list RiskFactor) : Q :=
  py_sum how (map (λ f, fmul (rnd (severity f)) (weight_of f)) factors).

Definition total_weight (how : Summation) (factors : list RiskFactor) : Q :=
  py_sum how (map weight_of factors).

Definition _calculate_risk_score (how : Summation) (factors : list RiskFactor)
  : Z :=
  match factors with
  | [] => 0%Z
  | _ =>
    if Qlt_le_dec 0 (total_weight how factors)
    then py_int (fdiv (weighted_sum how factors) (total_weight how factors))
    else 0%Z
  end.

(** *** Vocabulary of the properties *)

(** The severity is an integer of the documented range 0-100. *)
Definition graded (f : RiskFactor) : Prop :=
  ∃ s : Z, (0 ≤ s ≤ 100)%Z ∧ severity f = inject_Z s.

Close Scope Q_scope.

End RiskScore64.


(** * CanaryDeploymentAgent (canary_deployment.py) *)

Module CanaryDeployment.

Open Scope Q_scope.

(** The dict returned by [_collect_metrics]; an absent key is [None]. *)
Record Metrics : Type := mkMetrics {
  error_rate : option Q;
  latency_p99_ms : option Q;
  cpu_percent : option Q
}.

(** The dict returned by [_evaluate_canary_metrics]. *)
Record Evaluation : Type := mkEvaluation {
  healthy : bool;
  reason : fstring;
  eval_error_rate : Q;
  eval_latency_p99_ms : Q;
  eval_cpu_percent : Q
}.

(** One entry of [result["stages"]]. *)
Record StageRecord : Type := mkStageRecord {
  stage : Z;
  traffic_percent : Z;
  metrics : Metrics;
  evaluation : Evaluation;
  passed : bool
}.

(** The dict built by [deploy_canary]; the key [rollback_reason] exists
    only after a rollback. *)
Record CanaryResult : Type := mkCanaryResult {
  deployment_id : fstring;
  stages : list StageRecord;
  status : string;
  rollback_reason : option fstring
}.

(** Calls made to the external collaborators.  In the source the four
    private methods are stubs; they stand for the App Service and
    Application Insights clients. *)
Inductive Action : Type :=
| deploy_to_slot (app_name slot version : string)
| set_traffic_split (app_name : string) (production_percent staging_percent : Z)
| collect_metrics (app_name : string) (duration_seconds : Z)
| swap_slots (app_name primary secondary : string).

(** What has been done so far: the calls in order, and how many times the
    metrics source was queried. *)
Record World : Type := mkWorld {
  trace : list Action;
  polls : nat
}.

(** The agent; [app_insights n] is what the metrics source answers to the
    query number [n]. *)
Record CanaryDeploymentAgent : Type := mkCanaryDeploymentAgent {
  app_insights : nat → option Metrics
}.

Definition _deploy_to_slot (app_name slot version : string) (w : World) : World :=
  mkWorld (append (trace w) (deploy_to_slot app_name slot version)) (polls w).

Definition _set_traffic_split (app_name : string)
  (production_percent staging_percent : Z) (w : World) : World :=
  mkWorld (append (trace w)
             (set_traffic_split app_name production_percent staging_percent))
          (polls w).

Definition _collect_metrics (self : CanaryDeploymentAgent) (app_name : string)
  (duration_seconds : Z) (w : World) : option Metrics * World :=
  (app_insights self (polls w),
   mkWorld (append (trace w) (collect_metrics app_name duration_seconds))
           (S (polls w))).

Definition _swap_slots (app_name primary secondary : string) (w : World) : World :=
  mkWorld (append (trace w) (swap_slots app_name primary secondary)) (polls w).

(** ["; ".join(issues)] *)
Fixpoint join (sep : string) (parts : list fstring) : fstring :=
  match parts with
  | [] => []
  | [p] => p
  | p :: rest => (p ++ Lit sep :: join sep rest)%list
  end.

Definition _evaluate_canary_metrics (metrics : Metrics) : Evaluation :=
  let error_rate := get (error_rate metrics) 0 in
  let latency_p99 := get (latency_p99_ms metrics) 0 in
  let cpu_usage := get (cpu_percent metrics) 0 in
  let issues : list fstring := [] in
  let issues :=
    if Qlt_le_dec 2.0 error_rate then
      append issues [Lit "Error rate "; NumQ error_rate; Lit "% > 2% threshold"]
    else issues in
  let issues :=
    if Qlt_le_dec 150 latency_p99 then
      append issues [Lit "P99 latency "; NumQ latency_p99; Lit "ms > 150ms threshold"]
    else issues in
  let issues :=
    if Qlt_le_dec 80 cpu_usage then
      append issues [Lit "CPU usage "; NumQ cpu_usage; Lit "% > 80% threshold"]
    else issues in
  mkEvaluation
    (length issues =? 0)%nat
    (match issues with [] => [Lit "All metrics healthy"] | _ => join "; " issues end)
    error_rate latency_p99 cpu_usage.

(** [enumerate(xs, start)] *)
Fixpoint enumerate {A : Type} (xs : list A) (start : Z) : list (Z * A) :=
  match xs with
  | [] => []
  | x :: rest => (start, x) :: enumerate rest (start + 1)
  end.

Definition canary_stages : list Z := [5; 25; 50; 100]%Z.
Definition monitoring_duration_per_stage : Z := 300.

(** How a run of the [for] loop ends. *)
Inductive LoopExit : Type :=
| Returned   (* [return result] inside the loop *)
| Completed. (* the loop ran through all stages *)

(** A [None] answer of the metrics source makes [metrics.get] raise; the
    run is then aborted with the exception (no result). *)
Inductive Outcome (A : Type) : Type :=
| Ok (a : A)
| AttributeError.
Arguments Ok {A} a.
Arguments AttributeError {A}.

(** The body of [for stage_num, traffic_pct in enumerate(canary_stages, 1)]. *)
Fixpoint run_stages (self : CanaryDeploymentAgent) (app_name new_version : string)
  (todo : list (Z * Z)) (result : CanaryResult) (w : World)
  : Outcome (LoopExit * CanaryResult) * World :=
  match todo with
  | [] => (Ok (Completed, result), w)
  | (stage_num, traffic_pct) :: rest =>
    let w :=
      if (stage_num =? 1)%Z
      then _deploy_to_slot app_name "staging" new_version w
      else w in
    let w := _set_traffic_split app_name (100 - traffic_pct) traffic_pct w in
    let '(metrics, w) :=
      _collect_metrics self app_name monitoring_duration_per_stage w in
    match metrics with
    | None => (AttributeError, w)
    | Some m =>
      let evaluation := _evaluate_canary_metrics m in
      let result :=
        mkCanaryResult (deployment_id result)
          (append (stages result)
             (mkStageRecord stage_num traffic_pct m evaluation
                            (healthy evaluation)))
          (status result) (rollback_reason result) in
      if negb (healthy evaluation) then
        let w := _set_traffic_split app_name 100 0 w in
        (Ok (Returned,
             mkCanaryResult (deployment_id result) (stages result)
                            "ROLLED_BACK" (Some (reason evaluation))),
         w)
      else run_stages self app_name new_version rest result w
    end
  end.

(** [deploy_canary]; [now_timestamp] is [datetime.now().timestamp()]. *)
Definition deploy_canary (self : CanaryDeploymentAgent)
  (app_name new_version : string) (canary_traffic_percent : Z)
  (now_timestamp : Q) (w : World) : Outcome CanaryResult * World :=
  let result :=
    mkCanaryResult [Lit "canary-"; NumQ now_timestamp] [] "IN_PROGRESS" None in
  match run_stages self app_name new_version (enumerate canary_stages 1) result w with
  | (AttributeError, w) => (AttributeError, w)
  | (Ok (Returned, result), w) => (Ok result, w)
  | (Ok (Completed, result), w) =>
    let w := _swap_slots app_name "production" "staging" w in
    (Ok (mkCanaryResult (deployment_id result) (stages result) "SUCCESS"
                        (rollback_reason result)),
     w)
  end.

(** *** Vocabulary of the properties *)

(** The evaluation of the answer to query [n]. *)
Definition evaluation_at (self : CanaryDeploymentAgent) (n : nat) : option Evaluation :=
  _evaluate_canary_metrics <$> app_insights self n.

(** The last traffic split requested in a trace. *)
Definition last_traffic_split (t : list Action) : option (Z * Z) :=
  last (omap (λ a, match a with
                   | set_traffic_split _ p s => Some (p, s)
                   | _ => None
                   end) t).

(** Example inputs. *)
Definition good_metrics : Metrics := mkMetrics (Some 0.5) (Some 120) (Some 40).
Definition bad_metrics : Metrics := mkMetrics (Some 3.5) (Some 120) (Some 40).

Definition degrading_agent : CanaryDeploymentAgent :=
  mkCanaryDeploymentAgent
    (λ n, match n with O => Some good_metrics | _ => Some bad_metrics end).

Definition fresh_world : World := mkWorld [] 0.

Close Scope Q_scope.

End CanaryDeployment.

(** ** Further vocabulary for the canary rollout *)

Module CanaryRuns.
Import CanaryDeployment.

(** The calls of one stage: shift the weight, then collect metrics. *)
Definition stage_calls (app_name : string) (traffic_pct : Z) : list Action :=
  [set_traffic_split app_name (100 - traffic_pct) traffic_pct;
   collect_metrics app_name monitoring_duration_per_stage].

(** The calls made once the first [k] stages have been entered. *)
Definition calls_through (app_name new_version : string) (k : nat) : list Action :=
  deploy_to_slot app_name "staging" new_version
    :: concat (stage_calls app_name <$> take k canary_stages).

(** The weight of the stage with index [k] (from 0). *)
Definition weight_at (k : nat) : Z := default 0%Z (canary_stages !! k).

(** A [swap_slots] call occurs in a trace. *)
Definition swapped (t : list Action) : Prop :=
  ∃ app_name primary secondary, swap_slots app_name primary secondary ∈ t.

(** The answer to the query of stage [n] (from 0) of a run started in
    world [w] evaluates healthy. *)
Definition healthy_at (self : CanaryDeploymentAgent) (w : World) (n : nat) : Prop :=
  ∃ e, evaluation_at self (polls w + n) = Some e ∧ healthy e = true.

(** Example inputs. *)
Definition healthy_agent : CanaryDeploymentAgent :=
  mkCanaryDeploymentAgent (λ _, Some good_metrics).

Definition silent_agent : CanaryDeploymentAgent :=
  mkCanaryDeploymentAgent (λ _, None).

End CanaryRuns.

(** * CanaryMonitoringAgent (canary_monitoring_agent.py) *)

Module CanaryMonitoring.

Open Scope Q_scope.

(** Exceptions the comparison can raise. *)
Inductive PyError : Type :=
| StatisticsError     (* [statistics.mean] of no data *)
| ZeroDivisionError.  (* [/] with a zero divisor *)

(** A value or a raised exception. *)
Inductive result (A : Type) : Type :=
| Value (a : A)
| Raise (e : PyError).
Arguments Value {A} a.
Arguments Raise {A} e.

#[global] Instance result_ret : MRet result := λ A a, Value a.
#[global] Instance result_bind : MBind result :=
  λ A B f r, match r with Value a => f a | Raise e => Raise e end.

(** [a / b] *)
Definition py_div (a b : Q) : result Q :=
  if Qeq_dec b 0 then Raise ZeroDivisionError else Value (a / b).

(** [statistics.mean(data)] *)
Definition mean (data : list Q) : result Q :=
  match data with
  | [] => Raise StatisticsError
  | _ => Value (py_sum data / inject_Z (Z.of_nat (length data)))
  end.

(** [round(x, 2)] *)
Definition py_round2 (x : Q) : Q := inject_Z (py_round (x * 100)) / 100.

(** The Prometheus client: [query_range(query, start_time)] answers with
    the samples of the window. *)
Record PrometheusClient : Type := mkPrometheusClient {
  query_range : string → string → list Q
}.

Record CanaryMonitoringAgent : Type := mkCanaryMonitoringAgent {
  prometheus : PrometheusClient;
  datadog : unit;
  baseline_metrics : gmap string Q;
  alert_threshold : Q  (* 15% deviation triggers concern *)
}.

(** [CanaryMonitoringAgent.__init__] *)
Definition init (prometheus_client : PrometheusClient) (datadog_client : unit)
  : CanaryMonitoringAgent :=
  mkCanaryMonitoringAgent prometheus_client datadog_client ∅ 0.15.

(** One value of [comparison["metric_comparisons"]]. *)
Record MetricResult : Type := mkMetricResult {
  baseline_avg : Q;
  canary_avg : Q;
  percent_change : Q;
  status : string
}.

(** One entry of [comparison["issues_detected"]]. *)
Record Issue : Type := mkIssue {
  metric : string;
  severity : string;
  change_percent : Q
}.

Record Comparison : Type := mkComparison {
  service : string;
  baseline_version : string;
  canary_version : string;
  metric_comparisons : gmap string MetricResult;
  issues_detected : list Issue;
  rollback_recommended : bool
}.

Definition metrics_to_compare : list string :=
  ["request_latency_p99"; "error_rate"; "cpu_usage"; "memory_usage";
   "cache_hit_ratio"].

(** [f'{metric}{{service="{service}", version="{version}"}}'] *)
Definition query (metric service version : string) : string :=
  let dq := String (Ascii.ascii_of_nat 34) EmptyString in
  metric +:+ "{service=" +:+ dq +:+ service +:+ dq +:+ ", version=" +:+ dq
         +:+ version +:+ dq +:+ "}".

(** The samples of a metric for one version over the last five minutes. *)
Definition samples (self : CanaryMonitoringAgent)
  (metric service version : string) : list Q :=
  query_range (prometheus self) (query metric service version) "-5m".

(** The body of [for metric in metrics_to_compare]. *)
Definition compare_metric (self : CanaryMonitoringAgent)
  (service baseline_version canary_version : string)
  (comparison : Comparison) (metric : string) : result Comparison :=
  let baseline_data := samples self metric service baseline_version in
  let canary_data := samples self metric service canary_version in
  baseline_avg ← mean baseline_data;
  canary_avg ← mean canary_data;
  pct_change ←
    (if Qlt_le_dec 0 baseline_avg
     then py_div (Qabs (canary_avg - baseline_avg)) baseline_avg
     else Value 0);
  let metric_result :=
    mkMetricResult baseline_avg canary_avg pct_change
      (if Qlt_le_dec (alert_threshold self) pct_change
       then "DEGRADED" else "HEALTHY") in
  let comparison :=
    mkComparison (CanaryMonitoring.service comparison)
      (CanaryMonitoring.baseline_version comparison)
      (CanaryMonitoring.canary_version comparison)
      (<[metric := metric_result]> (metric_comparisons comparison))
      (issues_detected comparison) (rollback_recommended comparison) in
  let comparison :=
    if Qlt_le_dec (alert_threshold self) pct_change then
      mkComparison (CanaryMonitoring.service comparison)
        (CanaryMonitoring.baseline_version comparison)
        (CanaryMonitoring.canary_version comparison)
        (metric_comparisons comparison)
        (append (issues_detected comparison)
           (mkIssue metric
              (if Qlt_le_dec 0.25 pct_change then "HIGH" else "MEDIUM")
              (py_round2 (pct_change * 100))))
        (rollback_recommended comparison)
    else comparison in
  Value comparison.

Fixpoint for_metrics (self : CanaryMonitoringAgent)
  (service baseline_version canary_version : string)
  (metrics : list string) (comparison : Comparison) : result Comparison :=
  match metrics with
  | [] => Value comparison
  | metric :: rest =>
    comparison ← compare_metric self service baseline_version canary_version
                   comparison metric;
    for_metrics self service baseline_version canary_version rest comparison
  end.

(** [sum(1 for issue in issues if issue["severity"] == "HIGH")] *)
Definition count_high (issues : list Issue) : nat :=
  length (filter (λ issue, severity issue = "HIGH") issues).

Definition compare_versions (self : CanaryMonitoringAgent)
  (service baseline_version canary_version : string) : result Comparison :=
  let comparison :=
    mkComparison service baseline_version canary_version ∅ [] false in
  comparison ← for_metrics self service baseline_version canary_version
                 metrics_to_compare comparison;
  let critical_issues := count_high (issues_detected comparison) in
  let comparison :=
    if (2 <=? critical_issues)%nat then
      mkComparison (CanaryMonitoring.service comparison)
        (CanaryMonitoring.baseline_version comparison)
        (CanaryMonitoring.canary_version comparison)
        (metric_comparisons comparison) (issues_detected comparison) true
    else comparison in
  Value comparison.

(** *** Vocabulary of the properties *)

(** The result stored for a metric with a non-positive baseline mean. *)
Definition quiet (self : CanaryMonitoringAgent) (service baseline_version : string)
  (m : string) (r : MetricResult) : Prop :=
  ∀ b, mean (samples self m service baseline_version) = Value b → b <= 0 →
       percent_change r = 0 ∧ status r = "HEALTHY".

(** An issue recorded for a metric whose baseline mean is positive. *)
Definition alarmed (self : CanaryMonitoringAgent) (service baseline_version : string)
  (i : Issue) : Prop :=
  ∃ b, mean (samples self (metric i) service baseline_version) = Value b ∧ 0 < b.

(** Example inputs: the baseline of [error_rate] is zero, every other
    baseline is 100; the canary doubles [cpu_usage] only (first client) or
    both [cpu_usage] and [memory_usage] (second client). *)
Definition canary_name : string := "v2".

Definition zero_baseline_client (regressed : list string) : PrometheusClient :=
  mkPrometheusClient (λ q _,
    if decide (q = query "error_rate" "shop" "v1") then [0; 0]
    else if decide (q = query "error_rate" "shop" canary_name) then [3; 5]
    else if decide (Exists (λ m, q = query m "shop" canary_name) regressed)
         then [200; 200]
    else [100; 100]).

Definition one_high_agent : CanaryMonitoringAgent :=
  init (zero_baseline_client ["cpu_usage"]) ().

Definition two_high_agent : CanaryMonitoringAgent :=
  init (zero_baseline_client ["cpu_usage"; "memory_usage"]) ().

Close Scope Q_scope.

End CanaryMonitoring.

(** * BlueGreenDeploymentAgent (blue_green_deployment.py) *)

Module BlueGreenDeployment.

(** Calls made to the external collaborators (load balancer, autoscaling);
    the six private methods are stubs in the source. *)
Inductive Action : Type :=
| create_autoscaling_group (name : fstring) (image_uri : string) (instance_count : Z)
| wait_for_health_checks (asg_name : fstring) (timeout_seconds : Z)
| run_smoke_tests (target_group : fstring)
| update_target_group (target_group_name remove_targets add_targets : fstring)
| monitor_deployment (asg_name : fstring) (duration_seconds : Z)
| terminate_asg (asg_name : fstring).

(** The agent; the three functions give the truth value of what the
    collaborators answer for a group ([None], the answer of the stubs, is
    false). *)
Record BlueGreenDeploymentAgent : Type := mkBlueGreenDeploymentAgent {
  health_checks_pass : fstring → bool;
  smoke_tests_pass : fstring → bool;
  monitoring_passes : fstring → bool
}.

(** The dict returned by [deploy_green_environment]; keys that a return
    statement does not set are [None]. *)
Record DeployResult : Type := mkDeployResult {
  status : string;
  reason : option string;
  new_version : option string;
  blue_asg : option fstring;
  green_asg : option fstring
}.

Definition _create_autoscaling_group (name : fstring) (image_uri : string)
  (instance_count : Z) (t : list Action) : list Action :=
  append t (create_autoscaling_group name image_uri instance_count).

Definition _wait_for_health_checks (self : BlueGreenDeploymentAgent)
  (asg_name : fstring) (timeout_seconds : Z) (t : list Action)
  : bool * list Action :=
  (health_checks_pass self asg_name,
   append t (wait_for_health_checks asg_name timeout_seconds)).

Definition _run_smoke_tests (self : BlueGreenDeploymentAgent)
  (target_group : fstring) (t : list Action) : bool * list Action :=
  (smoke_tests_pass self target_group, append t (run_smoke_tests target_group)).

Definition _update_target_group (target_group_name remove_targets add_targets : fstring)
  (t : list Action) : list Action :=
  append t (update_target_group target_group_name remove_targets add_targets).

Definition _monitor_deployment (self : BlueGreenDeploymentAgent)
  (asg_name : fstring) (duration_seconds : Z) (t : list Action)
  : bool * list Action :=
  (monitoring_passes self asg_name,
   append t (monitor_deployment asg_name duration_seconds)).

Definition _terminate_asg (asg_name : fstring) (t : list Action) : list Action :=
  append t (terminate_asg asg_name).

(** [f"{service}-green-{datetime.now().timestamp()}"] *)
Definition green_name (service : string) (now_timestamp : Q) : fstring :=
  [Lit service; Lit "-green-"; NumQ now_timestamp].

(** [f"{service}-blue"] and [f"{service}-tg"] *)
Definition blue_name (service : string) : fstring := [Lit service; Lit "-blue"].
Definition target_group_of (service : string) : fstring := [Lit service; Lit "-tg"].

(** [deploy_green_environment]; [now_timestamp] is
    [datetime.now().timestamp()], [t] the calls made before. *)
Definition deploy_green_environment (self : BlueGreenDeploymentAgent)
  (service new_image_uri : string) (instance_count : Z) (now_timestamp : Q)
  (t : list Action) : DeployResult * list Action :=
  (* Step 1: Create new ASG with green environment *)
  let green_asg_name := green_name service now_timestamp in
  let t := _create_autoscaling_group green_asg_name new_image_uri instance_count t in
  (* Step 2: Wait for instances to be healthy *)
  let '(healthy, t) := _wait_for_health_checks self green_asg_name 300 t in
  if negb healthy then
    let t := _terminate_asg green_asg_name t in
    (mkDeployResult "FAILED" (Some "Health check timeout") None None None, t)
  else
  (* Step 3: Warm up - run smoke tests *)
  let '(smoke_test_passed, t) := _run_smoke_tests self green_asg_name t in
  if negb smoke_test_passed then
    let t := _terminate_asg green_asg_name t in
    (mkDeployResult "FAILED" (Some "Smoke test failure") None None None, t)
  else
  (* Step 4: Atomic switch - update target group *)
  let blue_asg_name := blue_name service in
  let t := _update_target_group (target_group_of service)
             blue_asg_name green_asg_name t in
  (* Step 5: Monitor for issues *)
  let '(monitoring_passed, t) := _monitor_deployment self green_asg_name 300 t in
  if negb monitoring_passed then
    let t := _update_target_group (target_group_of service)
               green_asg_name blue_asg_name t in
    (mkDeployResult "ROLLED_BACK" (Some "Health degradation") None None None, t)
  else
  (* Step 6: Cleanup - terminate blue environment *)
  let t := _terminate_asg blue_asg_name t in
  (mkDeployResult "SUCCESS" None (Some new_image_uri)
     (Some blue_asg_name) (Some green_asg_name), t).

(** *** Vocabulary of the properties *)

(** The groups that the target group of the service was switched to, in
    order. *)
Definition switches (t : list Action) : list fstring :=
  omap (λ a, match a with
             | update_target_group _ _ add_targets => Some add_targets
             | _ => None
             end) t.

(** The groups terminated. *)
Definition terminated (t : list Action) : list fstring :=
  omap (λ a, match a with terminate_asg asg_name => Some asg_name | _ => None end) t.

(** Example input: the stubs of the source, which answer [None]. *)
Definition stub_agent : BlueGreenDeploymentAgent :=
  mkBlueGreenDeploymentAgent (λ _, false) (λ _, false) (λ _, false).

End BlueGreenDeployment.

(** ** Further vocabulary for the metric comparison *)

Module MetricComparison.
Import CanaryMonitoring.

Open Scope Q_scope.

(** Both sample lists of a metric have means [b] (baseline) and [k]
    (canary). *)
Definition measured (self : CanaryMonitoringAgent)
  (service baseline_version canary_version m : string) (b k : Q) : Prop :=
  mean (samples self m service baseline_version) = Value b ∧
  mean (samples self m service canary_version) = Value k.

(** The percent deviation the comparison computes from two means. *)
Definition deviation (b k : Q) : Q :=
  if Qlt_le_dec 0 b then Qabs (k - b) / b else 0.

(** The entry of [metric_comparisons] computed from two means. *)
Definition result_of (self : CanaryMonitoringAgent) (b k : Q) : MetricResult :=
  mkMetricResult b k (deviation b k)
    (if Qlt_le_dec (alert_threshold self) (deviation b k)
     then "DEGRADED" else "HEALTHY").

(** The issues recorded for two means of metric [m]: none or one. *)
Definition issues_of (self : CanaryMonitoringAgent) (m : string) (b k : Q)
  : list Issue :=
  if Qlt_le_dec (alert_threshold self) (deviation b k)
  then [mkIssue m (if Qlt_le_dec 0.25 (deviation b k) then "HIGH" else "MEDIUM")
                (py_round2 (deviation b k * 100))]
  else [].

(** The issues recorded for metric [m], from its samples. *)
Definition issues_for (self : CanaryMonitoringAgent)
  (service baseline_version canary_version m : string) : list Issue :=
  match mean (samples self m service baseline_version),
        mean (samples self m service canary_version) with
  | Value b, Value k => issues_of self m b k
  | _, _ => []
  end.

(** A sample list the comparison reads is empty. *)
Definition missing_samples (self : CanaryMonitoringAgent)
  (service baseline_version canary_version : string) : Prop :=
  ∃ m, m ∈ metrics_to_compare ∧
       (samples self m service baseline_version = [] ∨
        samples self m service canary_version = []).

(** An issue is recorded for metric [m]. *)
Definition flagged (c : Comparison) (m : string) : Prop :=
  ∃ i, i ∈ issues_detected c ∧ metric i = m.

(** Example input: the canary halves the latency and the CPU usage, and
    leaves the rest unchanged. *)
Definition improving_client : PrometheusClient :=
  mkPrometheusClient (λ q _,
    if decide (q = query "request_latency_p99" "shop" "v2") then [50; 50]
    else if decide (q = query "cpu_usage" "shop" "v2") then [40; 60]
    else [100; 100]).

Definition improving_agent : CanaryMonitoringAgent := init improving_client ().


Definition empty_client : PrometheusClient := mkPrometheusClient (λ _ _, []).

Close Scope Q_scope.

End MetricComparison.

(** ** [execute_intelligent_rollback] (canary_monitoring_agent.py) *)

Module IntelligentRollback.
Import CanaryMonitoring.

(** Calls made to the load balancer; the three private methods are stubs
    in the source. *)
Inductive Action : Type :=
| stop_canary_traffic (service version : string)
| drain_canary_requests (service version : string)
| revert_traffic (service version : string).

(** What the collaborators do when called: [None] when the call returns,
    [Some msg] when it raises an exception whose text is [msg]. *)
Record LoadBalancer : Type := mkLoadBalancer {
  on_stop : string → string → option string;
  on_drain : string → string → option string;
  on_revert : string → string → option string
}.

(** The dict returned; the key [error] exists only after a failure. *)
Record RollbackAction : Type := mkRollbackAction {
  timestamp : string;
  service : string;
  rolled_back_from : string;
  rolled_back_to : string;
  status : string;
  steps : list string;
  error : option string
}.

(** A call that may raise: the exception text, or the trace with the call
    appended.  The call is recorded in both cases. *)
Definition attempt (outcome : option string) (a : Action) (t : list Action)
  : option string * list Action :=
  (outcome, append t a).

(** The body of the [try] block: the first exception ends it. *)
Definition try_rollback (lb : LoadBalancer)
  (service canary_version baseline_version : string) (t : list Action)
  : option string * list Action :=
  match attempt (on_stop lb service canary_version)
          (stop_canary_traffic service canary_version) t with
  | (Some e, t) => (Some e, t)
  | (None, t) =>
    match attempt (on_drain lb service canary_version)
            (drain_canary_requests service canary_version) t with
    | (Some e, t) => (Some e, t)
    | (None, t) =>
      attempt (on_revert lb service baseline_version)
        (revert_traffic service baseline_version) t
    end
  end.

(** [execute_intelligent_rollback]; [now] is [datetime.now()]. *)
Definition execute_intelligent_rollback (lb : LoadBalancer)
  (service canary_version baseline_version : string) (now : datetime)
  (t : list Action) : RollbackAction * list Action :=
  let rollback_action :=
    mkRollbackAction (isoformat now) service canary_version baseline_version
      "IN_PROGRESS"
      ["Stopping new traffic to canary";
       "Draining in-flight requests";
       "Shifting traffic to baseline";
       "Waiting for metrics stabilization";
       "Terminating canary instances"]
      None in
  match try_rollback lb service canary_version baseline_version t with
  | (None, t) =>
    (mkRollbackAction (timestamp rollback_action)
       (IntelligentRollback.service rollback_action)
       (rolled_back_from rollback_action) (rolled_back_to rollback_action)
       "COMPLETED" (steps rollback_action) (error rollback_action), t)
  | (Some e, t) =>
    (mkRollbackAction (timestamp rollback_action)
       (IntelligentRollback.service rollback_action)
       (rolled_back_from rollback_action) (rolled_back_to rollback_action)
       "FAILED" (steps rollback_action) (Some e), t)
  end.

(** Example input: the stubs of the source, which return normally. *)
Definition stub_balancer : LoadBalancer :=
  mkLoadBalancer (λ _ _, None) (λ _ _, None) (λ _ _, None).

End IntelligentRollback.

(** * Properties of DependencyGraphAgent *)

Section OrchestratorProofs.
Import Orchestrator.
Variable self : DependencyGraphAgent.

(** A service has no undeployed dependency exactly when each declared
    dependency is either outside [remaining] or the service itself. *)
Lemma undeployed_deps_nil (R : gset string) (s : string) :
  undeployed_deps self R s = [] ↔
  ∀ dep, dep ∈ dependencies self s → service_name dep ∈ R → service_name dep = s.
Proof.
  unfold undeployed_deps. split.
  - intros Hnil dep Hdep HR.
    apply fmap_nil_inv in Hnil.
    destruct (decide (service_name dep = s)) as [|Hne]; [done|].
    exfalso. eapply (filter_nil_not_elem_of _ _ dep); [exact Hnil| |exact Hdep]. simpl. done.
  - intros Hall. apply elem_of_nil_inv. intros x Hx.
    apply list_elem_of_fmap in Hx as (dep & -> & Hdep).
    apply list_elem_of_filter in Hdep as [[HR Hne] Hdep].
    apply Hne. by apply Hall.
Qed.

Lemma elem_of_current_stage (R : gset string) (s : string) :
  s ∈ current_stage_of self R ↔ s ∈ R ∧ undeployed_deps self R s = [].
Proof.
  unfold current_stage_of. rewrite list_elem_of_filter, elem_of_elements. tauto.
Qed.

Lemma current_stage_NoDup (R : gset string) : NoDup (current_stage_of self R).
Proof. apply NoDup_filter, NoDup_elements. Qed.

Lemma current_stage_subseteq (R : gset string) :
  list_to_set (current_stage_of self R) ⊆ R.
Proof.
  intros s Hs. apply elem_of_list_to_set, elem_of_current_stage in Hs. tauto.
Qed.

(** Membership in the stage-groups, by index or in their concatenation. *)
Lemma in_stage_concat (stages : list (list string)) (s : string) :
  s ∈ concat stages ↔ ∃ i, in_stage stages i s.
Proof.
  rewrite list_elem_of_In, in_concat. unfold in_stage. split.
  - intros (st & Hst & Hs). apply list_elem_of_In, list_elem_of_lookup in Hst as [i Hi].
    exists i, st. split; [done|]. by apply list_elem_of_In.
  - intros (i & st & Hi & Hs). exists st. split.
    + apply list_elem_of_In. eapply list_elem_of_lookup_2; eauto.
    + by apply list_elem_of_In.
Qed.

Lemma in_stage_snoc (stages : list (list string)) (cs : list string) i s :
  in_stage (stages ++ [cs]) i s ↔
  in_stage stages i s ∨ (i = length stages ∧ s ∈ cs).
Proof.
  unfold in_stage. split.
  - intros (st & Hi & Hs). apply lookup_snoc_Some in Hi as [[Hlt Hi]|[-> ->]].
    + left. eauto.
    + right. done.
  - intros [(st & Hi & Hs)|[-> Hs]].
    + exists st. split; [|done]. by apply lookup_app_l_Some.
    + exists cs. split; [|done]. apply lookup_snoc_Some. right. done.
Qed.

Lemma in_stage_lt (stages : list (list string)) i s :
  in_stage stages i s → (i < length stages)%nat.
Proof. intros (st & Hi & _). eapply lookup_lt_Some; eauto. Qed.

(** ** The loop invariant *)

Lemma Inv_initial (services : list string) :
  Inv self (list_to_set services) (initial_state services).
Proof.
  split; simpl.
  - done.
  - set_solver.
  - constructor.
  - intros s. rewrite elem_of_nil. set_solver.
  - intros j s dep (st & Hst & _). by rewrite lookup_nil in Hst.
Qed.

Lemma Inv_step (req : gset string) (st : LoopState) :
  Inv self req st →
  Inv self req (mkLoopState
             (deployment_stages st ++ [current_stage_of self (remaining st)])
             (errors st)
             (deployed st ∪ list_to_set (current_stage_of self (remaining st)))
             (remaining st ∖ list_to_set (current_stage_of self (remaining st)))).
Proof.
  intros [Hrem Hdep Hnd Hst Hord].
  pose proof (current_stage_subseteq (remaining st)) as Hsub.
  set (cs := current_stage_of self (remaining st)) in *.
  assert (Hin : ∀ s, s ∈ concat (deployment_stages st ++ [cs]) ↔
                     s ∈ concat (deployment_stages st) ∨ s ∈ cs).
  { intros s. rewrite concat_app, elem_of_app. simpl. by rewrite app_nil_r. }
  split; simpl.
  - set_solver.
  - rewrite Hdep. apply set_eq. intros s.
    rewrite elem_of_union, !elem_of_difference.
    destruct (decide (s ∈ (list_to_set cs : gset string))); set_solver.
  - rewrite concat_app. simpl. rewrite app_nil_r. apply NoDup_app.
    split; [done|]. split; [|apply current_stage_NoDup].
    intros s Hs Hcs. apply Hst in Hs as [_ Hs]. apply Hs, Hsub.
    by apply elem_of_list_to_set.
  - intros s. rewrite Hin, Hst, elem_of_difference, elem_of_list_to_set.
    split.
    + intros [[Hr Hn]|Hcs]; [tauto|].
      assert (s ∈ remaining st) by (apply Hsub; by apply elem_of_list_to_set).
      split; [set_solver|]. tauto.
    + intros [Hr Hn]. destruct (decide (s ∈ cs)); [tauto|]. left. tauto.
  - intros j s dep Hj Hdepin Hreq Hne.
    apply in_stage_snoc in Hj as [Hj|[-> Hcs]].
    + destruct (Hord j s dep Hj Hdepin Hreq Hne) as (i & Hlt & Hi).
      exists i. split; [done|]. apply in_stage_snoc. by left.
    + apply elem_of_current_stage in Hcs as [HsR Hnil].
      assert (Hout : service_name dep ∉ remaining st).
      { intros HR. apply Hne. eapply undeployed_deps_nil; eauto. }
      assert (Hdone : service_name dep ∈ concat (deployment_stages st))
        by (apply Hst; done).
      apply in_stage_concat in Hdone as [i Hi].
      exists i. split; [by eapply in_stage_lt|]. apply in_stage_snoc. by left.
Qed.

Lemma stage_loop_Inv (req : gset string) (fuel : nat) (st : LoopState) :
  Inv self req st → Inv self req (stage_loop self fuel st).
Proof.
  revert st. induction fuel as [|fuel IH]; intros st HI; simpl; [done|].
  destruct (decide (remaining st = ∅)); [done|].
  destruct (decide (current_stage_of self (remaining st) = [])).
  - destruct HI. split; done.
  - apply IH. by apply Inv_step.
Qed.

(** The stage-groups already emitted are never changed by later iterations. *)
Lemma stage_loop_prefix (fuel : nat) (st : LoopState) :
  deployment_stages st `prefix_of` deployment_stages (stage_loop self fuel st).
Proof.
  revert st. induction fuel as [|fuel IH]; intros st; simpl; [done|].
  destruct (decide (remaining st = ∅)); [done|].
  destruct (decide (current_stage_of self (remaining st) = [])); [done|].
  etrans; [|apply IH]. simpl. by apply prefix_app_r.
Qed.

(** An error names a subset of what remained when the loop was entered. *)
Lemma stage_loop_errors (fuel : nat) (st : LoopState) (R : gset string) :
  CircularDependency R ∈ errors (stage_loop self fuel st) →
  CircularDependency R ∈ errors st ∨ R ⊆ remaining st.
Proof.
  revert st. induction fuel as [|fuel IH]; intros st; simpl; [tauto|].
  destruct (decide (remaining st = ∅)); [tauto|].
  destruct (decide (current_stage_of self (remaining st) = [])); simpl.
  - rewrite elem_of_app, list_elem_of_singleton.
    intros [?|[= ->]]; [by left|by right].
  - intros H. apply IH in H as [H|H]; simpl in H; [by left|right]. set_solver.
Qed.

(** Removing a non-empty stage makes [remaining] strictly smaller. *)
Lemma current_stage_shrinks (R : gset string) :
  current_stage_of self R ≠ [] →
  (size (R ∖ list_to_set (current_stage_of self R)) < size R)%nat.
Proof.
  intros Hcs. pose proof (current_stage_subseteq R) as Hcsub.
  apply subset_size.
  destruct (current_stage_of self R) as [|x l] eqn:E; [done|].
  assert (x ∈ R).
  { apply Hcsub. rewrite elem_of_list_to_set. left. }
  split; [set_solver|]. intros Hsup. specialize (Hsup x H).
  apply elem_of_difference in Hsup as [_ Hsup]. apply Hsup.
  rewrite elem_of_list_to_set. left.
Qed.

(** The loop never runs out of iterations: any [fuel] of at least
    [size remaining] gives the same final state. *)
Lemma stage_loop_fuel (n m : nat) (st : LoopState) :
  (size (remaining st) ≤ n)%nat → (size (remaining st) ≤ m)%nat →
  stage_loop self n st = stage_loop self m st.
Proof.
  revert m st. induction n as [|n IH]; intros m st Hn Hm.
  - assert (remaining st = ∅) by (apply leibniz_equiv, size_empty_iff; lia).
    destruct m; simpl; [done|]. by destruct (decide (remaining st = ∅)).
  - destruct m as [|m].
    + assert (remaining st = ∅) by (apply leibniz_equiv, size_empty_iff; lia).
      simpl. by destruct (decide (remaining st = ∅)).
    + simpl. destruct (decide (remaining st = ∅)); [done|].
      destruct (decide (current_stage_of self (remaining st) = [])) as [|Hcs]; [done|].
      pose proof (current_stage_shrinks _ Hcs).
      apply IH; simpl; lia.
Qed.

(** If every non-empty part of the request has a deployable service, the
    loop empties [remaining] within [size remaining] iterations and reports
    no error. *)
Lemma stage_loop_complete (req : gset string) (fuel : nat) (st : LoopState) :
  (∀ R : gset string, R ⊆ req → R ≠ ∅ → current_stage_of self R ≠ []) →
  remaining st ⊆ req →
  (size (remaining st) ≤ fuel)%nat →
  remaining (stage_loop self fuel st) = ∅ ∧
  errors (stage_loop self fuel st) = errors st.
Proof.
  intros Hsink. revert st. induction fuel as [|fuel IH]; intros st Hsub Hsize; simpl.
  - split; [|done]. apply leibniz_equiv, size_empty_iff. lia.
  - destruct (decide (remaining st = ∅)) as [|Hne]; [done|].
    destruct (decide (current_stage_of self (remaining st) = [])) as [Hnil|Hcs].
    + exfalso. by eapply Hsink.
    + pose proof (current_stage_subseteq (remaining st)) as Hcsub.
      pose proof (current_stage_shrinks _ Hcs).
      match goal with |- context [stage_loop self fuel ?s] =>
        destruct (IH s) as [H1 H2]; simpl; [set_solver|lia|by rewrite H1, H2] end.
Qed.

(** ** Acyclic requests always have a deployable service *)

Lemma acyclic_sink_from (req : gset string) :
  acyclic self req →
  ∀ R : gset string, R ⊆ req → ∀ x, x ∈ R →
  ∃ s, s ∈ R ∧ (s = x ∨ tc (dep_edge self req) x s) ∧
       undeployed_deps self R s = [].
Proof.
  intros Hacyc R. induction (set_wf R) as [R _ IH]. intros Hsub x Hx.
  destruct (decide (undeployed_deps self R x = [])) as [Hnil|Hsome].
  { exists x. auto. }
  destruct (undeployed_deps self R x) as [|d l] eqn:E; [done|].
  assert (Hd : d ∈ undeployed_deps self R x) by (rewrite E; left).
  unfold undeployed_deps in Hd.
  apply list_elem_of_fmap in Hd as (dep & -> & Hdep).
  apply list_elem_of_filter in Hdep as [[HdR Hdne] Hdep].
  assert (Hedge : dep_edge self req x (service_name dep)).
  { split; [set_solver|]. split; [set_solver|]. eauto. }
  destruct (IH (R ∖ {[x]})) with (x := service_name dep)
    as (s & Hs & Hreach & Hsink).
  - apply (subset_difference_elem_of x); set_solver.
  - set_solver.
  - set_solver.
  - assert (Hxs : tc (dep_edge self req) x s).
    { destruct Hreach as [->|Hreach]; [by apply tc_once|].
      eapply tc_l; eauto. }
    exists s. split; [set_solver|]. split; [by right|].
    apply undeployed_deps_nil. intros dep' Hdep' HR'.
    destruct (decide (service_name dep' = x)) as [Heq|Hneq].
    + exfalso. apply (Hacyc x). eapply tc_r; [exact Hxs|].
      split; [set_solver|]. split; [set_solver|]. eauto.
    + eapply undeployed_deps_nil; [exact Hsink|done|]. set_solver.
Qed.

Lemma acyclic_current_stage (req : gset string) :
  acyclic self req →
  ∀ R : gset string, R ⊆ req → R ≠ ∅ → current_stage_of self R ≠ [].
Proof.
  intros Hacyc R Hsub Hne Hnil.
  destruct (set_choose_L R Hne) as [x Hx].
  destruct (acyclic_sink_from req Hacyc R Hsub x Hx) as (s & Hs & _ & Hsink).
  assert (s ∈ current_stage_of self R) by (by apply elem_of_current_stage).
  rewrite Hnil in H. by apply elem_of_nil in H.
Qed.

(** A graph whose edges strictly decrease a rank has no cycle. *)
Lemma ranked_acyclic (req : gset string) (rank : string → nat) :
  (∀ s d, dep_edge self req s d → (rank d < rank s)%nat) →
  acyclic self req.
Proof.
  intros Hrank s Hcyc.
  assert (Hlt : ∀ a b, tc (dep_edge self req) a b → (rank b < rank a)%nat).
  { intros a b Hab. induction Hab as [a b H|a b c H _ IH].
    - by apply Hrank.
    - apply Hrank in H. lia. }
  apply Hlt in Hcyc. lia.
Qed.

(** A service occurs in at most one stage-group when the groups are
    pairwise disjoint. *)
Lemma in_stage_unique (stages : list (list string)) i j s :
  NoDup (concat stages) → in_stage stages i s → in_stage stages j s → i = j.
Proof.
  revert i j. induction stages as [|st stages IH]; intros i j Hnd Hi Hj.
  - destruct Hi as (? & Hi & _). by rewrite lookup_nil in Hi.
  - simpl in Hnd. apply NoDup_app in Hnd as (_ & Hdisj & Hnd).
    assert (Htail : ∀ k, in_stage (st :: stages) (S k) s → s ∈ concat stages).
    { intros k (st' & Hk & Hs). apply in_stage_concat. exists k, st'. done. }
    destruct i as [|i], j as [|j]; [done| | |].
    + destruct Hi as (? & [= <-] & Hs). exfalso. eapply Hdisj; eauto.
    + destruct Hj as (? & [= <-] & Hs). exfalso. eapply Hdisj; eauto.
    + f_equal. apply IH; [done| |].
      * destruct Hi as (st' & Hk & Hs). by exists st'.
      * destruct Hj as (st' & Hk & Hs). by exists st'.
Qed.

Lemma discover_Inv (services : list string) :
  ∃ st, discover_deployment_order self services = (deployment_stages st, errors st) ∧
        Inv self (list_to_set services) st ∧
        st = stage_loop self (size (list_to_set services : gset string))
                        (initial_state services).
Proof.
  eexists. split; [reflexivity|]. split; [|reflexivity].
  apply stage_loop_Inv, Inv_initial.
Qed.

(** Whatever the hint of the edge, a staged service comes strictly after
    each of its requested dependencies other than itself. *)
Lemma discover_order (services : list string) j s dep :
  in_stage (discover_deployment_order self services).1 j s →
  dep ∈ dependencies self s → service_name dep ∈ services →
  service_name dep ≠ s →
  ∃ i, (i < j)%nat ∧
       in_stage (discover_deployment_order self services).1 i (service_name dep).
Proof.
  destruct (discover_Inv services) as (st & -> & HI & _). simpl.
  intros Hj Hdep Hreq Hne. eapply inv_order; eauto.
  by apply elem_of_list_to_set.
Qed.

End OrchestratorProofs.

Section OrchestratorClaims.
Import Orchestrator.

(** C1.  When the declared dependency graph restricted to the requested
    services has no cycle, [discover_deployment_order] reports no error,
    puts every requested service in exactly one stage-group (and only
    requested services, each once), and stages every requested
    [before]-dependency of a requested service strictly earlier than the
    service. *)
Theorem discover_deployment_order_acyclic
  (self : DependencyGraphAgent) (services : list string) :
  acyclic self (list_to_set services) →
  let stages := (discover_deployment_order self services).1 in
  let errs := (discover_deployment_order self services).2 in
  (∀ s, s ∈ services →
        ∃ i, in_stage stages i s ∧ ∀ j, in_stage stages j s → j = i) ∧
  NoDup (concat stages) ∧
  (∀ s, s ∈ concat stages → s ∈ services) ∧
  (∀ s dep, s ∈ services → dep ∈ dependencies self s →
            deployment_order dep = "before" → service_name dep ∈ services →
            staged_before stages (service_name dep) s) ∧
  errs = [].
Proof.
  intros Hacyc.
  destruct (discover_Inv self services) as (st & Heq & HI & Hst).
  rewrite Heq. simpl.
  destruct (stage_loop_complete self (list_to_set services)
              (size (list_to_set services : gset string))
              (initial_state services)) as [Hrem Herr].
  { by apply acyclic_current_stage. }
  { done. }
  { done. }
  rewrite <- Hst in Hrem, Herr. simpl in Herr.
  assert (Hall : ∀ s, s ∈ services → ∃ i, in_stage (deployment_stages st) i s).
  { intros s Hs. apply in_stage_concat, (inv_staged self _ _ HI).
    rewrite Hrem. split; [by apply elem_of_list_to_set|set_solver]. }
  split; [|split; [|split; [|split]]].
  - intros s Hs. destruct (Hall s Hs) as [i Hi]. exists i. split; [done|].
    intros j Hj. exact (in_stage_unique _ _ _ _ (inv_nodup self _ _ HI) Hj Hi).
  - by destruct HI.
  - intros s Hs. apply (inv_staged self _ _ HI) in Hs as [Hs _].
    by apply elem_of_list_to_set in Hs.
  - intros s dep Hs Hdep _ Hreq.
    destruct (Hall s Hs) as [j Hj].
    assert (Hne : service_name dep ≠ s).
    { intros Heqs. apply (Hacyc s), tc_once.
      split; [by apply elem_of_list_to_set|].
      split; [by apply elem_of_list_to_set|]. eauto. }
    destruct (inv_order self _ _ HI j s dep Hj Hdep) as (i & Hlt & Hi);
      [by apply elem_of_list_to_set|done|].
    exists i, j. done.
  - done.
Qed.

Lemma chain_agent_acyclic :
  acyclic chain_agent (list_to_set ["notify"; "auth"; "payment"; "auth"]).
Proof.
  apply (ranked_acyclic _ _
    (λ s, if decide (s = "notify") then 2 else if decide (s = "payment") then 1 else 0)%nat).
  intros s d (Hs & _ & dep & Hdep & <-).
  apply elem_of_list_to_set in Hs.
  repeat (apply elem_of_cons in Hs as [->|Hs]); try (by apply elem_of_nil in Hs);
    vm_compute in Hdep;
    repeat (apply elem_of_cons in Hdep as [->|Hdep]);
    try (by apply elem_of_nil in Hdep); vm_compute; lia.
Qed.

Lemma discover_deployment_order_acyclic_witness :
  acyclic chain_agent (list_to_set ["notify"; "auth"; "payment"; "auth"]) ∧
  let stages :=
    (discover_deployment_order chain_agent ["notify"; "auth"; "payment"; "auth"]).1 in
  let errs :=
    (discover_deployment_order chain_agent ["notify"; "auth"; "payment"; "auth"]).2 in
  (∀ s, s ∈ ["notify"; "auth"; "payment"; "auth"] →
        ∃ i, in_stage stages i s ∧ ∀ j, in_stage stages j s → j = i) ∧
  NoDup (concat stages) ∧
  (∀ s, s ∈ concat stages → s ∈ ["notify"; "auth"; "payment"; "auth"]) ∧
  (∀ s dep, s ∈ ["notify"; "auth"; "payment"; "auth"] →
            dep ∈ dependencies chain_agent s →
            deployment_order dep = "before" →
            service_name dep ∈ ["notify"; "auth"; "payment"; "auth"] →
            staged_before stages (service_name dep) s) ∧
  errs = [].
Proof.
  split.
  - exact chain_agent_acyclic.
  - exact (discover_deployment_order_acyclic chain_agent
             ["notify"; "auth"; "payment"; "auth"] chain_agent_acyclic).
Defined.

Example discover_chain :
  discover_deployment_order chain_agent ["notify"; "auth"; "payment"; "auth"]
  = ([["auth"]; ["payment"]; ["notify"]], []).
Proof. vm_compute. reflexivity. Qed.

(** C7, as stated, fails: service [a] declares a [parallel_with]
    dependency on [b] and nothing else is declared, yet [b] is staged
    alone before [a] and no stage-group holds both. *)
Lemma parallel_with_co_staged_counterexample :
  only_parallel_between parallel_agent "a" "b" ∧
  discover_deployment_order parallel_agent ["a"; "b"] = ([["b"]; ["a"]], []) ∧
  ¬ co_staged (discover_deployment_order parallel_agent ["a"; "b"]).1 "a" "b".
Proof.
  split; [|split].
  - split; [done|]. split; [|split].
    + exists (dep_on "b" "parallel_with"). split; [|done]. vm_compute. left.
    + intros dep Hdep _. vm_compute in Hdep.
      apply list_elem_of_singleton in Hdep as ->. done.
    + intros dep Hdep _. vm_compute in Hdep. by apply elem_of_nil in Hdep.
  - vm_compute. reflexivity.
  - replace (discover_deployment_order parallel_agent ["a"; "b"])
      with ([["b"]; ["a"]], @nil DeploymentError) by (vm_compute; reflexivity).
    intros (i & (sa & Ha & Hina) & (sb & Hb & Hinb)). simpl in *.
    destruct i as [|[|i]]; simpl in *; simplify_eq.
    + apply list_elem_of_singleton in Hina. done.
    + apply list_elem_of_singleton in Hinb. done.
Qed.

(** C7, amended.  The ordering-hint is never read: a [parallel_with] edge
    to another requested service orders the two like any other edge.  Once
    the dependent is staged, its dependency sits in a strictly earlier
    stage-group, and the two are never co-members of a stage-group. *)
Theorem parallel_with_edge_orders
  (self : DependencyGraphAgent) (services : list string)
  (s : string) (dep : ServiceDependency) (j : nat) :
  dep ∈ dependencies self s →
  deployment_order dep = "parallel_with" →
  service_name dep ∈ services →
  service_name dep ≠ s →
  in_stage (discover_deployment_order self services).1 j s →
  (∃ i, (i < j)%nat ∧
        in_stage (discover_deployment_order self services).1 i (service_name dep)) ∧
  ¬ co_staged (discover_deployment_order self services).1 s (service_name dep).
Proof.
  intros Hdep _ Hreq Hne Hj.
  destruct (discover_order self services j s dep Hj Hdep Hreq Hne) as (i & Hlt & Hi).
  split; [eauto|].
  intros (k & Hks & Hkd).
  destruct (discover_Inv self services) as (st & Heq & HI & _).
  rewrite Heq in *. simpl in *.
  pose proof (inv_nodup self _ _ HI) as Hnd.
  assert (k = j) by exact (in_stage_unique _ _ _ _ Hnd Hks Hj).
  assert (k = i) by exact (in_stage_unique _ _ _ _ Hnd Hkd Hi).
  lia.
Qed.

Lemma parallel_with_edge_orders_witness :
  dep_on "b" "parallel_with" ∈ dependencies parallel_agent "a" ∧
  deployment_order (dep_on "b" "parallel_with") = "parallel_with" ∧
  service_name (dep_on "b" "parallel_with") ∈ ["a"; "b"] ∧
  service_name (dep_on "b" "parallel_with") ≠ "a" ∧
  in_stage (discover_deployment_order parallel_agent ["a"; "b"]).1 1 "a" ∧
  (∃ i, (i < 1)%nat ∧
        in_stage (discover_deployment_order parallel_agent ["a"; "b"]).1 i
                 (service_name (dep_on "b" "parallel_with"))) ∧
  ¬ co_staged (discover_deployment_order parallel_agent ["a"; "b"]).1 "a"
              (service_name (dep_on "b" "parallel_with")).
Proof.
  assert (H1 : dep_on "b" "parallel_with" ∈ dependencies parallel_agent "a")
    by (vm_compute; left).
  assert (H2 : service_name (dep_on "b" "parallel_with") ∈ ["a"; "b"])
    by (simpl; right; left).
  assert (H3 : service_name (dep_on "b" "parallel_with") ≠ "a") by (simpl; discriminate).
  assert (H4 : in_stage (discover_deployment_order parallel_agent ["a"; "b"]).1 1 "a").
  { exists ["a"]. split; [vm_compute; reflexivity|left]. }
  repeat (split; [done|]).
  exact (parallel_with_edge_orders parallel_agent ["a"; "b"] "a"
           (dep_on "b" "parallel_with") 1 H1 eq_refl H2 H3 H4).
Defined.

(** C10.  A dependency edge from a service to itself is ignored: a
    requested service all of whose declared dependencies name itself is
    placed in the first stage-group, and no circular-dependency error
    names it. *)
Theorem self_dependency_ignored
  (self : DependencyGraphAgent) (services : list string) (s : string) :
  s ∈ services →
  (∀ dep, dep ∈ dependencies self s → service_name dep = s) →
  in_stage (discover_deployment_order self services).1 0 s ∧
  ∀ R, CircularDependency R ∈ (discover_deployment_order self services).2 → s ∉ R.
Proof.
  intros Hs Hself. unfold discover_deployment_order.
  set (req := list_to_set services : gset string).
  assert (HsR : s ∈ req) by (by apply elem_of_list_to_set).
  assert (Hcs : s ∈ current_stage_of self req).
  { apply elem_of_current_stage. split; [done|].
    apply undeployed_deps_nil. intros dep Hdep _. by apply Hself. }
  destruct (size (remaining (initial_state services))) as [|fuel] eqn:Hsize.
  { simpl in Hsize. apply size_empty_iff in Hsize. set_solver. }
  simpl. fold req.
  destruct (decide (req = ∅)) as [He|_]; [set_solver|].
  destruct (decide (current_stage_of self req = [])) as [Hnil|_].
  { rewrite Hnil in Hcs. by apply elem_of_nil in Hcs. }
  split.
  - match goal with |- context [stage_loop self fuel ?st] =>
      pose proof (stage_loop_prefix self fuel st) as [more Hpre] end.
    simpl in Hpre. rewrite Hpre. exists (current_stage_of self req). done.
  - intros R HR. apply stage_loop_errors in HR as [HR|HR]; simpl in HR.
    + by apply elem_of_nil in HR.
    + intros HsR'. apply HR in HsR'. apply elem_of_difference in HsR' as [_ Hn].
      apply Hn. by apply elem_of_list_to_set.
Qed.

Lemma self_dependency_ignored_witness :
  "a" ∈ ["a"; "b"] ∧
  (∀ dep, dep ∈ dependencies selfdep_agent "a" → service_name dep = "a") ∧
  in_stage (discover_deployment_order selfdep_agent ["a"; "b"]).1 0 "a" ∧
  ∀ R, CircularDependency R ∈ (discover_deployment_order selfdep_agent ["a"; "b"]).2 →
       "a" ∉ R.
Proof.
  assert (H1 : "a" ∈ ["a"; "b"]) by left.
  assert (H2 : ∀ dep, dep ∈ dependencies selfdep_agent "a" → service_name dep = "a").
  { intros dep Hdep. vm_compute in Hdep.
    apply list_elem_of_singleton in Hdep as ->. done. }
  split; [done|]. split; [done|].
  exact (self_dependency_ignored selfdep_agent ["a"; "b"] "a" H1 H2).
Defined.

Example discover_selfdep :
  discover_deployment_order selfdep_agent ["a"; "b"] = ([["a"; "b"]], []).
Proof. vm_compute. reflexivity. Qed.

End OrchestratorClaims.

(** * Further properties of [discover_deployment_order] *)

Section OrchestratorExtra.
Import Orchestrator DependencyGraph.
Variable self : DependencyGraphAgent.

(** How the loop ends: either nothing remains and no error was added, or
    one error names what remains, none of which is deployable. *)
Lemma stage_loop_exit (fuel : nat) (st : LoopState) :
  (size (remaining st) ≤ fuel)%nat →
  let st' := stage_loop self fuel st in
  (remaining st' = ∅ ∧ errors st' = errors st) ∨
  (remaining st' ≠ ∅ ∧ current_stage_of self (remaining st') = [] ∧
   errors st' = (errors st ++ [CircularDependency (remaining st')])%list).
Proof.
  revert st. induction fuel as [|fuel IH]; intros st Hsize; simpl.
  - left. split; [|done]. apply leibniz_equiv, size_empty_iff. lia.
  - destruct (decide (remaining st = ∅)) as [|Hne]; [by left|].
    destruct (decide (current_stage_of self (remaining st) = [])) as [Hnil|Hcs].
    + right. simpl. done.
    + pose proof (current_stage_shrinks self _ Hcs).
      match goal with |- context [stage_loop self fuel ?s] =>
        destruct (IH s) as [H1|H1]; [simpl; lia|by left|by right] end.
Qed.

(** No stage-group is empty, and each one uses up at least one remaining
    service. *)
Lemma stage_loop_stages (fuel : nat) (st : LoopState) :
  Forall (λ g, g ≠ []) (deployment_stages st) →
  let st' := stage_loop self fuel st in
  Forall (λ g, g ≠ []) (deployment_stages st') ∧
  (length (deployment_stages st') + size (remaining st')
   ≤ length (deployment_stages st) + size (remaining st))%nat.
Proof.
  revert st. induction fuel as [|fuel IH]; intros st Hne; simpl; [done|].
  destruct (decide (remaining st = ∅)); [done|].
  destruct (decide (current_stage_of self (remaining st) = [])) as [|Hcs]; [done|].
  pose proof (current_stage_shrinks self _ Hcs).
  match goal with |- context [stage_loop self fuel ?s] =>
    destruct (IH s) as [H1 H2] end.
  { simpl. apply Forall_app. split; [done|]. by constructor. }
  split; [done|]. simpl in H2. rewrite length_app in H2. simpl in H2. lia.
Qed.

(** A walk along strict edges goes down in the stage order. *)
Lemma staged_walk_descends (req : gset string) (st : LoopState) :
  Inv self req st → remaining st = ∅ →
  ∀ a b, tc (strict_edge self req) a b →
  ∀ j, in_stage (deployment_stages st) j a →
  ∃ i, (i < j)%nat ∧ in_stage (deployment_stages st) i b.
Proof.
  intros HI Hrem a b Hab.
  induction Hab as [a b [(Ha & Hb & dep & Hdep & <-) Hne]
                   |a b c [(Ha & Hb & dep & Hdep & <-) Hne] _ IH]; intros j Hj.
  - eapply inv_order; eauto.
  - destruct (inv_order self _ _ HI j a dep Hj Hdep Hb Hne) as (i & Hlt & Hi).
    destruct (IH i Hi) as (k & Hlt' & Hk). exists k. split; [lia|done].
Qed.

(** The sink lemma for strict edges. *)
Lemma acyclic_strict_sink_from (req : gset string) :
  acyclic_strict self req →
  ∀ R : gset string, R ⊆ req → ∀ x, x ∈ R →
  ∃ s, s ∈ R ∧ (s = x ∨ tc (strict_edge self req) x s) ∧
       undeployed_deps self R s = [].
Proof.
  intros Hacyc R. induction (set_wf R) as [R _ IH]. intros Hsub x Hx.
  destruct (decide (undeployed_deps self R x = [])) as [Hnil|Hsome].
  { exists x. auto. }
  destruct (undeployed_deps self R x) as [|d l] eqn:E; [done|].
  assert (Hd : d ∈ undeployed_deps self R x) by (rewrite E; left).
  unfold undeployed_deps in Hd.
  apply list_elem_of_fmap in Hd as (dep & -> & Hdep).
  apply list_elem_of_filter in Hdep as [[HdR Hdne] Hdep].
  assert (Hedge : strict_edge self req x (service_name dep)).
  { split; [|done]. split; [set_solver|]. split; [set_solver|]. eauto. }
  destruct (IH (R ∖ {[x]})) with (x := service_name dep)
    as (s & Hs & Hreach & Hsink).
  - apply (subset_difference_elem_of x); set_solver.
  - set_solver.
  - set_solver.
  - assert (Hxs : tc (strict_edge self req) x s).
    { destruct Hreach as [->|Hreach]; [by apply tc_once|].
      eapply tc_l; eauto. }
    exists s. split; [set_solver|]. split; [by right|].
    apply undeployed_deps_nil. intros dep' Hdep' HR'.
    destruct (decide (service_name dep' = s)) as [|Hns]; [done|].
    destruct (decide (service_name dep' = x)) as [Heq|Hneq].
    + exfalso. apply (Hacyc x). eapply tc_r; [exact Hxs|].
      split; [|congruence].
      split; [set_solver|]. split; [set_solver|]. eauto.
    + eapply undeployed_deps_nil; [exact Hsink|done|]. set_solver.
Qed.

Lemma acyclic_strict_current_stage (req : gset string) :
  acyclic_strict self req →
  ∀ R : gset string, R ⊆ req → R ≠ ∅ → current_stage_of self R ≠ [].
Proof.
  intros Hacyc R Hsub Hne Hnil.
  destruct (set_choose_L R Hne) as [x Hx].
  destruct (acyclic_strict_sink_from req Hacyc R Hsub x Hx) as (s & Hs & _ & Hsink).
  assert (s ∈ current_stage_of self R) by (by apply elem_of_current_stage).
  rewrite Hnil in H. by apply elem_of_nil in H.
Qed.

End OrchestratorExtra.

Section OrchestratorExtraTheorems.
Import Orchestrator DependencyGraph.

(** X1.  Whatever the dependency map and the request (cyclic or not), the
    stage-groups returned are pairwise disjoint and hold each service at
    most once, hold only requested services, none of them is empty, and
    there are at most as many as distinct requested services. *)
Theorem discover_stages_partition
  (self : DependencyGraphAgent) (services : list string) :
  let stages := (discover_deployment_order self services).1 in
  NoDup (concat stages) ∧
  (∀ s, s ∈ concat stages → s ∈ services) ∧
  (∀ g, g ∈ stages → g ≠ []) ∧
  (length stages ≤ size (list_to_set services : gset string))%nat.
Proof.
  destruct (discover_Inv self services) as (st & Heq & HI & Hst).
  rewrite Heq. simpl.
  destruct (stage_loop_stages self (size (list_to_set services : gset string))
              (initial_state services)) as [Hne Hlen]; [constructor|].
  rewrite <- Hst in Hne, Hlen. simpl in Hlen.
  split; [by destruct HI|]. split; [|split].
  - intros s Hs. apply (inv_staged self _ _ HI) in Hs as [Hs _].
    by apply elem_of_list_to_set in Hs.
  - intros g Hg. by apply (proj1 (Forall_forall _ _) Hne).
  - lia.
Qed.

(** X2.  The error list is empty or holds exactly one circular-dependency
    error.  Without error every requested service is staged.  With an
    error, the set it names is not empty, is exactly the requested
    services left unstaged, and each of its members declares a dependency
    on another member. *)
Theorem discover_error_shape
  (self : DependencyGraphAgent) (services : list string) :
  let stages := (discover_deployment_order self services).1 in
  let errs := (discover_deployment_order self services).2 in
  (errs = [] ∧ ∀ s, s ∈ services → s ∈ concat stages) ∨
  (∃ R : gset string,
     errs = [CircularDependency R] ∧ R ≠ ∅ ∧
     (∀ s, s ∈ R ↔ s ∈ services ∧ s ∉ concat stages) ∧
     (∀ s, s ∈ R → ∃ dep, dep ∈ dependencies self s ∧
                          service_name dep ∈ R ∧ service_name dep ≠ s)).
Proof.
  destruct (discover_Inv self services) as (st & Heq & HI & Hst).
  rewrite Heq. simpl.
  destruct (stage_loop_exit self (size (list_to_set services : gset string))
              (initial_state services)) as [[Hrem Herr]|(Hrem & Hcs & Herr)];
    [done| |]; rewrite <- Hst in *; simpl in Herr.
  - left. split; [done|]. intros s Hs. apply (inv_staged self _ _ HI).
    rewrite Hrem. split; [by apply elem_of_list_to_set|set_solver].
  - right. exists (remaining st). split; [done|]. split; [done|]. split.
    + intros s. rewrite (inv_staged self _ _ HI), elem_of_list_to_set.
      pose proof (inv_remaining self _ _ HI s) as Hsub.
      rewrite elem_of_list_to_set in Hsub.
      destruct (decide (s ∈ remaining st)); naive_solver.
    + intros s Hs.
      destruct (decide (undeployed_deps self (remaining st) s = [])) as [Hnil|Hsome].
      { assert (s ∈ current_stage_of self (remaining st))
          by (by apply elem_of_current_stage).
        rewrite Hcs in H. by apply elem_of_nil in H. }
      destruct (undeployed_deps self (remaining st) s) as [|d l] eqn:E; [done|].
      assert (Hd : d ∈ undeployed_deps self (remaining st) s) by (rewrite E; left).
      unfold undeployed_deps in Hd.
      apply list_elem_of_fmap in Hd as (dep & -> & Hdep).
      apply list_elem_of_filter in Hdep as [[HdR Hdne] Hdep]. eauto.
Qed.

Lemma discover_errors_nil_iff
  (self : DependencyGraphAgent) (services : list string) :
  (discover_deployment_order self services).2 = [] ↔
  acyclic_strict self (list_to_set services).
Proof.
  destruct (discover_Inv self services) as (st & Heq & HI & Hst).
  rewrite Heq. simpl. split.
  - intros Herr s Hcyc.
    destruct (stage_loop_exit self (size (list_to_set services : gset string))
                (initial_state services)) as [[Hrem _]|(_ & _ & Herr')];
      [done| |]; rewrite <- Hst in *.
    2:{ rewrite Herr in Herr'. simpl in Herr'. done. }
    assert (Hs : s ∈ (list_to_set services : gset string)).
    { assert (H : ∀ a b, tc (strict_edge self (list_to_set services)) a b →
                         a ∈ (list_to_set services : gset string)).
      { intros a b Hab. induction Hab as [a b [(Ha & _) _]|a b c [(Ha & _) _] _ _]; done. }
      by eapply H. }
    assert (Hj : ∃ j, in_stage (deployment_stages st) j s).
    { apply in_stage_concat, (inv_staged self _ _ HI). rewrite Hrem. set_solver. }
    destruct Hj as [j Hj].
    destruct (staged_walk_descends self _ _ HI Hrem s s Hcyc j Hj) as (i & Hlt & Hi).
    pose proof (in_stage_unique _ _ _ _ (inv_nodup self _ _ HI) Hi Hj). lia.
  - intros Hacyc.
    destruct (stage_loop_complete self (list_to_set services)
                (size (list_to_set services : gset string))
                (initial_state services)) as [_ Herr]; [|done|done|].
    + by apply acyclic_strict_current_stage.
    + by rewrite <- Hst in Herr.
Qed.

(** X3.  No error is reported exactly when the declared edges between
    distinct requested services form no cycle (an edge from a service to
    itself does not count). *)
Theorem discover_no_error_iff_acyclic
  (self : DependencyGraphAgent) (services : list string) :
  (discover_deployment_order self services).2 = [] ↔
  acyclic_strict self (list_to_set services).
Proof. exact (discover_errors_nil_iff self services). Qed.

Lemma undeployed_deps_names (self1 self2 : DependencyGraphAgent)
  (R : gset string) (s : string) :
  service_name <$> dependencies self1 s = service_name <$> dependencies self2 s →
  undeployed_deps self1 R s = undeployed_deps self2 R s.
Proof.
  unfold undeployed_deps.
  generalize (dependencies self1 s) (dependencies self2 s).
  induction l as [|d1 l1 IH]; intros [|d2 l2] Heq; simpl in Heq; try done.
  injection Heq as Hd Hl. rewrite !filter_cons, Hd.
  destruct (decide _); simpl; rewrite ?Hd; [f_equal|]; by apply IH.
Qed.

Lemma stage_loop_names (self1 self2 : DependencyGraphAgent) (fuel : nat)
  (st : LoopState) :
  (∀ s, service_name <$> dependencies self1 s
        = service_name <$> dependencies self2 s) →
  stage_loop self1 fuel st = stage_loop self2 fuel st.
Proof.
  intros Hnames.
  assert (Hcs : ∀ R, current_stage_of self1 R = current_stage_of self2 R).
  { intros R. unfold current_stage_of. apply list_filter_iff.
    intros s. by rewrite (undeployed_deps_names self1 self2). }
  revert st. induction fuel as [|fuel IH]; intros st; simpl; [done|].
  rewrite Hcs. destruct (decide _); [done|]. destruct (decide _); [done|].
  apply IH.
Qed.

(** X4.  The result depends on the names of the declared dependencies
    only: two dependency maps that list the same dependency names for every
    service, whatever the ordering hints, versions, regions and other
    fields, give the same stage-groups and errors. *)
Theorem discover_ignores_hints
  (self1 self2 : DependencyGraphAgent) (services : list string) :
  (∀ s, service_name <$> dependencies self1 s
        = service_name <$> dependencies self2 s) →
  discover_deployment_order self1 services = discover_deployment_order self2 services.
Proof.
  intros Hnames. unfold discover_deployment_order.
  by rewrite (stage_loop_names self1 self2).
Qed.

Lemma discover_ignores_hints_witness :
  (∀ s, service_name <$> dependencies parallel_agent s
        = service_name <$> dependencies hinted_agent s) ∧
  discover_deployment_order parallel_agent ["a"; "b"]
  = discover_deployment_order hinted_agent ["a"; "b"].
Proof.
  assert (H : ∀ s, service_name <$> dependencies parallel_agent s
                   = service_name <$> dependencies hinted_agent s).
  { intros s. unfold dependencies, parallel_agent, hinted_agent. simpl.
    destruct (decide (s = "a")) as [->|Hne].
    - by rewrite !lookup_insert_eq.
    - by rewrite !lookup_insert_ne, !lookup_empty. }
  split; [exact H|].
  exact (discover_ignores_hints parallel_agent hinted_agent ["a"; "b"] H).
Defined.

Example discover_cycle :
  discover_deployment_order cyclic_agent ["a"; "b"; "c"]
  = ([["c"]], [CircularDependency {["a"; "b"]}]).
Proof. vm_compute. reflexivity. Qed.

End OrchestratorExtraTheorems.

(** * Properties of [calculate_blast_radius] *)

Section BlastRadiusProofs.
Import Orchestrator BlastRadius.
Variable self : DependencyGraphAgent.
Variable service : string.

Lemma elem_of_items (o : string) (deps : list ServiceDependency) :
  (o, deps) ∈ items self ↔ dependency_map self !! o = Some deps.
Proof. apply elem_of_map_to_list. Qed.

Lemma items_NoDup : NoDup (items self).*1.
Proof. apply NoDup_fst_map_to_list. Qed.

Lemma mentions_pos (d : string) (deps : list ServiceDependency) :
  (0 < mentions d deps)%nat ↔ ∃ dep, dep ∈ deps ∧ service_name dep = d.
Proof.
  unfold mentions. split.
  - intros Hpos. destruct (filter _ deps) as [|dep l] eqn:E; [simpl in Hpos; lia|].
    assert (Hin : dep ∈ filter (λ dep, service_name dep = d) deps)
      by (rewrite E; left).
    apply list_elem_of_filter in Hin as [? ?]. eauto.
  - intros (dep & Hin & Hd).
    assert (Hf : dep ∈ filter (λ dep, service_name dep = d) deps)
      by (by apply list_elem_of_filter).
    destruct (filter _ deps); [by apply elem_of_nil in Hf|simpl; lia].
Qed.

Lemma mentions_le (d : string) (deps : list ServiceDependency) :
  (mentions d deps ≤ length deps)%nat.
Proof. apply length_filter. Qed.

(** ** The first loop *)

Lemma note_direct_fold (o : string) (deps : list ServiceDependency)
  (st : list string * gset string) :
  let r := fold_left (note_direct service o) deps st in
  (∀ x, x ∈ r.1 ↔ x ∈ st.1 ∨ (x = o ∧ ∃ dep, dep ∈ deps ∧ service_name dep = service)) ∧
  (∀ x, x ∈ r.2 ↔ x ∈ st.2 ∨ (x = o ∧ ∃ dep, dep ∈ deps ∧ service_name dep = service)).
Proof.
  revert st. induction deps as [|dep deps IH]; intros st; simpl.
  - split; intros x; split; try tauto; intros [?|[_ (d & Hd & _)]]; try done;
      by apply elem_of_nil in Hd.
  - destruct (IH (note_direct service o st dep)) as [H1 H2].
    unfold note_direct in H1, H2.
    split; intros x; [rewrite H1|rewrite H2];
      destruct (decide (service_name dep = service)) as [Hd|Hd]; simpl;
      unfold append; rewrite ?elem_of_app, ?list_elem_of_singleton,
        ?elem_of_union, ?elem_of_singleton;
      setoid_rewrite elem_of_cons; naive_solver.
Qed.

Lemma find_direct_fold (its : list (string * list ServiceDependency))
  (st : list string * gset string) :
  let r := fold_left (λ st it, fold_left (note_direct service it.1) it.2 st) its st in
  (∀ x, x ∈ r.1 ↔ x ∈ st.1 ∨
        ∃ deps dep, (x, deps) ∈ its ∧ dep ∈ deps ∧ service_name dep = service) ∧
  (∀ x, x ∈ r.2 ↔ x ∈ st.2 ∨
        ∃ deps dep, (x, deps) ∈ its ∧ dep ∈ deps ∧ service_name dep = service).
Proof.
  revert st. induction its as [|[o deps] its IH]; intros st; simpl.
  - split; intros x; split; try tauto; intros [?|(d & ? & H & _)]; try done;
      by apply elem_of_nil in H.
  - destruct (IH (fold_left (note_direct service o) deps st)) as [H1 H2].
    destruct (note_direct_fold o deps st) as [H3 H4].
    split; intros x; [rewrite H1, H3|rewrite H2, H4];
      setoid_rewrite elem_of_cons; naive_solver.
Qed.

Lemma find_direct_spec :
  (∀ x, x ∈ (find_direct service (items self)).1 ↔ declares self x service) ∧
  (∀ x, x ∈ (find_direct service (items self)).2 ↔ declares self x service).
Proof.
  unfold find_direct, declares.
  destruct (find_direct_fold (items self) ([], ∅)) as [H1 H2].
  split; intros x; [rewrite H1|rewrite H2]; simpl;
    setoid_rewrite elem_of_items; rewrite ?elem_of_nil; set_solver.
Qed.

(** ** One scan of the map *)

Lemma note_transitive_fold (x o : string) (deps : list ServiceDependency) (st : Bfs) :
  fold_left (note_transitive x o) deps st =
  mkBfs (transitive st ++ replicate (mentions x deps) o)
        (if decide (mentions x deps = 0%nat) then affected_services st
         else affected_services st ∪ {[o]})
        (to_check st ++ replicate (mentions x deps) o).
Proof.
  revert st. induction deps as [|dep deps IH]; intros st; simpl.
  - unfold mentions. simpl. rewrite !app_nil_r. by destruct st.
  - rewrite IH. unfold note_transitive, mentions. rewrite filter_cons.
    destruct (decide (service_name dep = x)) as [Hd|Hd]; simpl; [|done].
    unfold append. rewrite <- !app_assoc. simpl. f_equal.
    destruct (decide (length (filter (λ dep, service_name dep = x) deps) = 0%nat));
      [done|]. set_solver.
Qed.

Lemma pending_cons (it : string * list ServiceDependency)
  (its : list (string * list ServiceDependency)) (S : gset string) :
  pending (it :: its) S
  = ((if decide (it.1 ∈ S) then 0 else length it.2) + pending its S)%nat.
Proof. reflexivity. Qed.

Lemma pending_mono (its : list (string * list ServiceDependency)) (S S' : gset string) :
  S ⊆ S' → (pending its S' ≤ pending its S)%nat.
Proof.
  intros Hsub. induction its as [|it its IH]; [done|].
  rewrite !pending_cons.
  destruct (decide (it.1 ∈ S)) as [Hin|Hout].
  - rewrite decide_True by set_solver. lia.
  - destruct (decide (it.1 ∈ S')); lia.
Qed.

Lemma pending_fresh (its : list (string * list ServiceDependency))
  (S : gset string) (o : string) :
  o ∉ its.*1 → pending its (S ∪ {[o]}) = pending its S.
Proof.
  induction its as [|it its IH]; intros Ho; [done|].
  rewrite !pending_cons. rewrite fmap_cons in Ho.
  apply not_elem_of_cons in Ho as [Hne Ho]. rewrite IH by done. f_equal.
  destruct (decide (it.1 ∈ S)) as [Hin|Hout].
  - rewrite decide_True by set_solver. done.
  - rewrite decide_False by set_solver. done.
Qed.

Lemma pending_total (its : list (string * list ServiceDependency)) (S : gset string) :
  (pending its S ≤ sum_list ((λ it, length it.2) <$> its))%nat.
Proof.
  induction its as [|it its IH]; [done|]. rewrite pending_cons, fmap_cons.
  change (sum_list (length it.2 :: ((λ it, length it.2) <$> its)))
    with (length it.2 + sum_list ((λ it, length it.2) <$> its))%nat.
  destruct (decide (it.1 ∈ S)); lia.
Qed.

(** What one scan of a list of entries does, for the service [x] being
    checked: it appends the same services [q] to [transitive] and to
    [to_check], makes them affected, and leaves no entry that mentions [x]
    unaffected. *)
Lemma scan_fold (x : string) (its : list (string * list ServiceDependency)) (st : Bfs) :
  NoDup its.*1 →
  let st' := fold_left (scan_item x) its st in
  ∃ q,
    transitive st' = (transitive st ++ q)%list ∧
    to_check st' = (to_check st ++ q)%list ∧
    (∀ y, y ∈ affected_services st' ↔ y ∈ affected_services st ∨ y ∈ q) ∧
    (∀ y, y ∈ q → (y ∉ affected_services st) ∧
                  ∃ deps dep, (y, deps) ∈ its ∧ dep ∈ deps ∧ service_name dep = x) ∧
    (∀ o deps dep, (o, deps) ∈ its → dep ∈ deps → service_name dep = x →
                   o ∈ affected_services st') ∧
    (length q + pending its (affected_services st')
     ≤ pending its (affected_services st))%nat.
Proof.
  revert st. induction its as [|[o deps] its IH]; intros st Hnd; simpl.
  - exists []. rewrite !app_nil_r. split; [done|]. split; [done|].
    split; [intros y; rewrite elem_of_nil; tauto|].
    split; [intros y Hy; by apply elem_of_nil in Hy|].
    split; [intros ? ? ? H; by apply elem_of_nil in H|done].
  - rewrite fmap_cons in Hnd. apply NoDup_cons in Hnd as [Ho Hnd]. simpl in Ho.
    remember (scan_item x st (o, deps)) as st1 eqn:Hst1.
    destruct (IH st1 Hnd) as (q' & Htr & Htc & Haff & Hq & Hall & Hlen).
    assert (Hmono : affected_services st1 ⊆ affected_services
                      (fold_left (scan_item x) its st1)).
    { intros y Hy. apply Haff. by left. }
    unfold scan_item in Hst1. cbn [fst snd] in Hst1.
    destruct (decide (o ∈ affected_services st)) as [Hin|Hout].
    + (* already affected: the entry is skipped *)
      subst st1. exists q'. split; [done|]. split; [done|]. split; [done|].
      split; [|split].
      * intros y Hy. destruct (Hq y Hy) as [Hn (d & dp & Hd & ?)].
        split; [done|]. exists d, dp. split; [by right|done].
      * intros o' deps' dep Hin' Hdep Hx.
        apply elem_of_cons in Hin' as [Heq|Hin']; [|by eapply Hall].
        injection Heq as -> ->. apply Haff. by left.
      * rewrite !pending_cons. cbn [fst snd]. rewrite !decide_True; [lia|done|].
        apply Haff. by left.
    + (* not affected: one append for each mention of [x] *)
      rewrite note_transitive_fold in Hst1.
      destruct (decide (mentions x deps = 0%nat)) as [Hz|Hnz].
      * assert (st1 = st) as Hsame.
        { rewrite Hst1, Hz. simpl. rewrite !app_nil_r. by destruct st. }
        rewrite Hsame in *. exists q'.
        split; [done|]. split; [done|]. split; [done|]. split; [|split].
        -- intros y Hy. destruct (Hq y Hy) as [Hn (d & dp & Hd & ?)].
           split; [done|]. exists d, dp. split; [by right|done].
        -- intros o' deps' dep Hin' Hdep Hx.
           apply elem_of_cons in Hin' as [Heq|Hin']; [|by eapply Hall].
           injection Heq as -> ->. exfalso.
           assert (0 < mentions x deps)%nat; [|lia].
           apply mentions_pos. eauto.
        -- rewrite !pending_cons. cbn [fst snd].
           rewrite (decide_False (P := o ∈ affected_services st)) by done.
           destruct (decide (o ∈ affected_services (fold_left (scan_item x) its st)));
             lia.
      * assert (Hpos : (0 < mentions x deps)%nat) by lia.
        apply mentions_pos in Hpos as (dep0 & Hdep0 & Hx0).
        assert (Haff1 : affected_services st1 = affected_services st ∪ {[o]})
          by (by rewrite Hst1).
        assert (Htr1 : transitive st1
                       = (transitive st ++ replicate (mentions x deps) o)%list)
          by (by rewrite Hst1).
        assert (Htc1 : to_check st1
                       = (to_check st ++ replicate (mentions x deps) o)%list)
          by (by rewrite Hst1).
        assert (Ho1 : o ∈ affected_services st1) by (rewrite Haff1; set_solver).
        exists (replicate (mentions x deps) o ++ q')%list.
        split; [rewrite Htr, Htr1; by rewrite app_assoc|].
        split; [rewrite Htc, Htc1; by rewrite app_assoc|].
        split; [|split; [|split]].
        -- intros y. rewrite Haff, elem_of_app, Haff1.
           rewrite elem_of_union, elem_of_singleton, elem_of_replicate.
           naive_solver lia.
        -- intros y Hy. apply elem_of_app in Hy as [Hy|Hy].
           ++ apply elem_of_replicate in Hy as [-> _]. split; [done|].
              exists deps, dep0. split; [left|done].
           ++ destruct (Hq y Hy) as [Hn (d & dp & Hd & ?)]. split.
              ** intros Hy'. apply Hn. rewrite Haff1. set_solver.
              ** exists d, dp. split; [by right|done].
        -- intros o' deps' dep Hin' Hdep Hx.
           apply elem_of_cons in Hin' as [Heq|Hin']; [|by eapply Hall].
           injection Heq as -> ->. by apply Hmono.
        -- rewrite !pending_cons. cbn [fst snd].
           rewrite (decide_False (P := o ∈ affected_services st)) by done.
           rewrite decide_True by (by apply Hmono).
           rewrite length_app, length_replicate.
           pose proof (mentions_le x deps).
           assert (pending its (affected_services st1)
                   = pending its (affected_services st)).
           { rewrite Haff1. by apply pending_fresh. }
           lia.
Qed.

(** ** The second loop *)

Lemma BfsInv_step (fuel : nat) (st : Bfs) (x : string) (rest : list string) :
  to_check st = x :: rest →
  BfsInv self service (S fuel) st →
  BfsInv self service fuel
    (fold_left (scan_item x) (items self)
       (mkBfs (transitive st) (affected_services st) rest)).
Proof.
  intros Hq [Hsound Hdirect Hclosed Hqueue Htrans Hwork].
  destruct (scan_fold x (items self)
              (mkBfs (transitive st) (affected_services st) rest) items_NoDup)
    as (q & Htr & Htc & Haff & Hnew & Hall & Hlen).
  cbn [transitive affected_services to_check] in *.
  assert (Hx : x ∈ affected_services st) by (apply Hqueue; rewrite Hq; left).
  split.
  - intros y Hy. apply Haff in Hy as [Hy|Hy]; [by apply Hsound|].
    destruct (Hnew y Hy) as [_ (deps & dep & Hin & Hdep & Hname)].
    apply (tc_l _ _ x); [|by apply Hsound].
    exists deps, dep. split; [by apply elem_of_items|done].
  - intros y Hy. apply Haff. left. by apply Hdirect.
  - intros y Hy. rewrite Htc. apply Haff in Hy as [Hy|Hy].
    + destruct (Hclosed y Hy) as [Hin|Hcl].
      * rewrite Hq in Hin. apply elem_of_cons in Hin as [->|Hin].
        -- right. intros o (deps & dep & Hmap & Hdep & Hname).
           eapply Hall; [by apply elem_of_items|done..].
        -- left. apply elem_of_app. by left.
      * right. intros o Ho. apply Haff. left. by apply Hcl.
    + left. apply elem_of_app. by right.
  - intros y. rewrite Htc, elem_of_app. intros [Hy|Hy]; apply Haff.
    + left. apply Hqueue. rewrite Hq. by right.
    + by right.
  - intros y. rewrite Htr, elem_of_app, Htrans, Haff. split.
    + intros [[Hy Hn]|Hy]; [tauto|]. split; [by right|].
      intros Hd. destruct (Hnew y Hy) as [Hout _]. apply Hout. by apply Hdirect.
    + intros [[Hy|Hy] Hn]; tauto.
  - rewrite Htc, length_app. rewrite Hq in Hwork. simpl in Hwork. lia.
Qed.

Lemma bfs_loop_BfsInv (fuel : nat) (st : Bfs) :
  BfsInv self service fuel st →
  (∃ left_over, BfsInv self service left_over (bfs_loop (items self) fuel st)) ∧
  to_check (bfs_loop (items self) fuel st) = [].
Proof.
  revert st. induction fuel as [|fuel IH]; intros st HI; simpl.
  - split; [by exists 0%nat|]. destruct HI as [_ _ _ _ _ Hwork].
    destruct (to_check st); [done|simpl in Hwork; lia].
  - destruct (to_check st) as [|x rest] eqn:Hq.
    + split; [by exists (S fuel)|done].
    + apply IH. by apply BfsInv_step.
Qed.

Lemma BfsInv_initial :
  let affected := (find_direct service (items self)).2 in
  BfsInv self service (bfs_fuel (items self) affected)
    (mkBfs [] affected (elements affected)).
Proof.
  intros affected. destruct find_direct_spec as [_ Haff]. fold affected in Haff.
  split; cbn [transitive affected_services to_check].
  - intros y Hy. apply tc_once. by apply Haff.
  - intros y Hy. by apply Haff.
  - intros y Hy. left. by apply elem_of_elements.
  - intros y Hy. by apply elem_of_elements in Hy.
  - intros y. rewrite elem_of_nil, Haff. tauto.
  - unfold bfs_fuel. pose proof (pending_total (items self) affected).
    change (length (elements affected)) with (size affected). lia.
Qed.

(** When the loop is over, every service that reaches [service] is
    affected. *)
Lemma BfsInv_complete (fuel : nat) (st : Bfs) :
  BfsInv self service fuel st → to_check st = [] →
  ∀ y, tc (declares self) y service → y ∈ affected_services st.
Proof.
  intros [Hsound Hdirect Hclosed Hqueue Htrans Hwork] Hq y Hy.
  induction Hy as [y z Hyz|y z w Hyz _ IH].
  - by apply Hdirect.
  - destruct (Hclosed z (IH Hsound Hdirect Htrans)) as [Hin|Hcl]; [|by apply Hcl].
    + rewrite Hq in Hin. by apply elem_of_nil in Hin.
Qed.

(** ** Repetitions *)

Lemma mentions_NoDup (d : string) (deps : list ServiceDependency) :
  NoDup (service_name <$> deps) → (mentions d deps ≤ 1)%nat.
Proof.
  unfold mentions. induction deps as [|dep deps IH]; intros Hnd; [simpl; lia|].
  rewrite fmap_cons in Hnd. apply NoDup_cons in Hnd as [Hout Hnd].
  rewrite filter_cons. destruct (decide (service_name dep = d)) as [<-|Hne].
  - assert (filter (λ dep', service_name dep' = service_name dep) deps = []) as ->.
    { apply elem_of_nil_inv. intros dep' Hin.
      apply list_elem_of_filter in Hin as [Heq Hin].
      apply Hout. rewrite <- Heq. by apply list_elem_of_fmap_2. }
    simpl. lia.
  - by apply IH.
Qed.

Lemma replicate_le_1_NoDup (n : nat) (o : string) : (n ≤ 1)%nat → NoDup (replicate n o).
Proof.
  intros Hn. destruct n as [|[|n]]; [constructor|apply NoDup_singleton|lia].
Qed.

Lemma note_direct_fold_list (o : string) (deps : list ServiceDependency)
  (st : list string * gset string) :
  (fold_left (note_direct service o) deps st).1
  = (st.1 ++ replicate (mentions service deps) o)%list.
Proof.
  revert st. induction deps as [|dep deps IH]; intros st; simpl.
  - unfold mentions. simpl. by rewrite app_nil_r.
  - rewrite IH. unfold note_direct, mentions. rewrite filter_cons.
    destruct (decide (service_name dep = service)); simpl; [|done].
    unfold append. by rewrite <- app_assoc.
Qed.

Lemma find_direct_NoDup (its : list (string * list ServiceDependency))
  (st : list string * gset string) :
  NoDup its.*1 →
  (∀ o deps, (o, deps) ∈ its → (mentions service deps ≤ 1)%nat) →
  NoDup st.1 → (∀ y, y ∈ st.1 → y ∉ its.*1) →
  NoDup (fold_left (λ st it, fold_left (note_direct service it.1) it.2 st) its st).1.
Proof.
  revert st. induction its as [|[o deps] its IH]; intros st Hkeys Hone Hnd Hfresh;
    simpl; [done|].
  rewrite fmap_cons in Hkeys. apply NoDup_cons in Hkeys as [Ho Hkeys]. simpl in Ho.
  apply IH; [done|..].
  - intros o' deps' Hin. apply (Hone o' deps'). by right.
  - rewrite note_direct_fold_list. apply NoDup_app. split; [done|]. split.
    + intros y Hy Hrep. apply elem_of_replicate in Hrep as [-> _].
      apply (Hfresh o Hy). rewrite fmap_cons. left.
    + apply replicate_le_1_NoDup, (Hone o deps). left.
  - intros y. rewrite note_direct_fold_list, elem_of_app. intros [Hy|Hy].
    + intros Hin. apply (Hfresh y Hy). rewrite fmap_cons. by right.
    + apply elem_of_replicate in Hy as [-> _]. done.
Qed.

Lemma scan_fold_NoDup (x : string) (its : list (string * list ServiceDependency))
  (st : Bfs) :
  (∀ o deps, (o, deps) ∈ its → (mentions x deps ≤ 1)%nat) →
  NoDup (transitive st) →
  (∀ y, y ∈ transitive st → y ∈ affected_services st) →
  let st' := fold_left (scan_item x) its st in
  NoDup (transitive st') ∧
  (∀ y, y ∈ transitive st' → y ∈ affected_services st').
Proof.
  revert st. induction its as [|[o deps] its IH]; intros st Hone Hnd Hsub; simpl;
    [done|].
  apply IH.
  - intros o' deps' Hin. apply (Hone o' deps'). by right.
  - unfold scan_item. cbn [fst snd].
    destruct (decide (o ∈ affected_services st)) as [Hin|Hout]; [done|].
    rewrite note_transitive_fold. cbn [transitive].
    apply NoDup_app. split; [done|]. split.
    + intros y Hy Hrep. apply elem_of_replicate in Hrep as [-> _].
      apply Hout. by apply Hsub.
    + apply replicate_le_1_NoDup, (Hone o deps). left.
  - unfold scan_item. cbn [fst snd].
    destruct (decide (o ∈ affected_services st)) as [Hin|Hout]; [done|].
    rewrite note_transitive_fold. cbn [transitive affected_services].
    intros y Hy. apply elem_of_app in Hy as [Hy|Hy].
    + destruct (decide (mentions x deps = 0%nat)); [by apply Hsub|].
      apply elem_of_union. left. by apply Hsub.
    + apply elem_of_replicate in Hy as [-> Hn].
      destruct (decide (mentions x deps = 0%nat)); [done|]. set_solver.
Qed.

Lemma bfs_loop_NoDup (fuel : nat) (st : Bfs) :
  distinct_deps self →
  NoDup (transitive st) →
  (∀ y, y ∈ transitive st → y ∈ affected_services st) →
  NoDup (transitive (bfs_loop (items self) fuel st)).
Proof.
  intros Hdistinct. revert st.
  induction fuel as [|fuel IH]; intros st Hnd Hsub; simpl; [done|].
  destruct (to_check st) as [|x rest]; [done|].
  destruct (scan_fold_NoDup x (items self)
              (mkBfs (transitive st) (affected_services st) rest)) as [H1 H2];
    [|done|done|by apply IH].
  intros o deps Hin. apply mentions_NoDup, (Hdistinct o). by apply elem_of_items.
Qed.

End BlastRadiusProofs.

Section BlastRadiusTheorems.
Import Orchestrator BlastRadius.

(** X23.  [calculate_blast_radius] lists as direct dependents exactly
    the services that declare a dependency on the given service, and as
    transitive dependents exactly the services that depend on it through a
    chain of declared dependencies without declaring it themselves; the
    user impact is always reported as 0 and the critical path as empty. *)
Theorem blast_radius_correct (self : DependencyGraphAgent) (service : string) :
  let r := calculate_blast_radius self service in
  (∀ o, o ∈ direct_dependents r ↔ declares self o service) ∧
  (∀ o, o ∈ transitive_dependents r ↔
        tc (declares self) o service ∧ ¬ declares self o service) ∧
  estimated_user_impact_percent r = 0%Q ∧
  critical_path_services r = [].
Proof.
  unfold calculate_blast_radius.
  pose proof (find_direct_spec self service) as [Hdirect _].
  pose proof (BfsInv_initial self service) as HI. cbv zeta in HI.
  destruct (find_direct service (items self)) as [direct affected] eqn:E.
  cbn [fst snd] in *.
  apply bfs_loop_BfsInv in HI as [[left_over HI] Hq].
  cbn [direct_dependents transitive_dependents estimated_user_impact_percent
       critical_path_services].
  split; [done|]. split; [|done].
  intros o. rewrite (bfs_transitive _ _ _ _ HI). split.
  - intros [Ho Hn]. split; [|done]. by apply (bfs_sound _ _ _ _ HI).
  - intros [Ho Hn]. split; [|done]. by eapply BfsInv_complete.
Qed.

(** X24.  When no service lists the same dependency name twice, neither
    list of the blast radius repeats a service (a dependency listed twice
    makes its dependent appear twice). *)
Theorem blast_radius_NoDup (self : DependencyGraphAgent) (service : string) :
  distinct_deps self →
  NoDup (direct_dependents (calculate_blast_radius self service)) ∧
  NoDup (transitive_dependents (calculate_blast_radius self service)).
Proof.
  intros Hdistinct. unfold calculate_blast_radius.
  assert (Hdirect : NoDup (find_direct service (items self)).1).
  { apply find_direct_NoDup; [apply items_NoDup| |constructor|].
    - intros o deps Hin. apply mentions_NoDup, (Hdistinct o).
      by apply elem_of_items.
    - intros y Hy. by apply elem_of_nil in Hy. }
  destruct (find_direct service (items self)) as [direct affected] eqn:E.
  cbn [direct_dependents transitive_dependents]. split; [done|].
  apply bfs_loop_NoDup; [done|constructor|].
  intros y Hy. by apply elem_of_nil in Hy.
Qed.

Lemma diamond_distinct : distinct_deps diamond_agent.
Proof.
  intros o deps Hmap. unfold diamond_agent in Hmap. simpl in Hmap.
  repeat (apply lookup_insert_Some in Hmap as [[_ <-]|[_ Hmap]];
          [simpl; repeat constructor; set_solver|]).
  by rewrite lookup_empty in Hmap.
Qed.

Lemma blast_radius_NoDup_witness :
  distinct_deps diamond_agent ∧
  NoDup (direct_dependents (calculate_blast_radius diamond_agent "a")) ∧
  NoDup (transitive_dependents (calculate_blast_radius diamond_agent "a")).
Proof.
  split; [exact diamond_distinct|].
  exact (blast_radius_NoDup diamond_agent "a" diamond_distinct).
Defined.

Example blast_radius_diamond :
  calculate_blast_radius diamond_agent "a"
  = mkBlastRadiusReport ["c"; "b"] ["d"] 0 [].
Proof. vm_compute. reflexivity. Qed.

Example blast_radius_repeated :
  calculate_blast_radius repeated_agent "a"
  = mkBlastRadiusReport ["b"] ["d"; "d"] 0 [].
Proof. vm_compute. reflexivity. Qed.

End BlastRadiusTheorems.

(** * Properties of the build pipeline *)

Section PipelineProofs.
Import Pipeline DependencyGraph.

(** ** Dicts in insertion order *)

Lemma dict_set_keys {A : Type} (d : list (string * A)) (k : string) (v : A) :
  (dict_set d k v).*1 = if decide (k ∈ d.*1) then d.*1 else (d.*1 ++ [k])%list.
Proof.
  induction d as [|[k' v'] d IH].
  - simpl. destruct (decide (k ∈ [])) as [H|_]; [by apply elem_of_nil in H|done].
  - cbn [dict_set]. rewrite fmap_cons. cbn [fst].
    destruct (decide (k' = k)) as [->|Hne].
    + destruct (decide (k ∈ k :: d.*1)) as [_|H]; [done|]. exfalso. apply H. left.
    + rewrite fmap_cons, IH. cbn [fst].
      destruct (decide (k ∈ d.*1)) as [Hin|Hout];
        destruct (decide (k ∈ k' :: d.*1)) as [Hin'|Hout']; try done.
      * exfalso. apply Hout'. by right.
      * apply elem_of_cons in Hin' as [?|?]; [congruence|done].
Qed.

Lemma dict_set_keys_elem {A : Type} (d : list (string * A)) (k k' : string) (v : A) :
  k' ∈ (dict_set d k v).*1 ↔ k' = k ∨ k' ∈ d.*1.
Proof.
  rewrite dict_set_keys. destruct (decide (k ∈ d.*1)).
  - split; [by right|]. by intros [->|?].
  - rewrite elem_of_app, list_elem_of_singleton. tauto.
Qed.

Lemma dict_set_NoDup {A : Type} (d : list (string * A)) (k : string) (v : A) :
  NoDup d.*1 → NoDup (dict_set d k v).*1.
Proof.
  intros Hnd. rewrite dict_set_keys. destruct (decide (k ∈ d.*1)); [done|].
  apply NoDup_app. split; [done|]. split; [|apply NoDup_singleton].
  intros x Hx ->%list_elem_of_singleton. done.
Qed.

Lemma dict_set_fresh {A : Type} (d : list (string * A)) (k : string) (v : A) :
  k ∉ d.*1 → dict_set d k v = (d ++ [(k, v)])%list.
Proof.
  induction d as [|[k' v'] d IH]; intros Hout; simpl; [done|].
  rewrite fmap_cons, not_elem_of_cons in Hout. destruct Hout as [Hne Hout].
  simpl in Hne. rewrite decide_False by done. by rewrite IH.
Qed.

Lemma elem_of_dict_set {A : Type} (d : list (string * A)) (k k' : string)
  (v v' : A) :
  NoDup d.*1 →
  (k', v') ∈ dict_set d k v ↔ (k' = k ∧ v' = v) ∨ (k' ≠ k ∧ (k', v') ∈ d).
Proof.
  induction d as [|[k0 v0] d IH]; intros Hnd; simpl.
  - rewrite list_elem_of_singleton. split.
    + intros [= -> ->]. by left.
    + intros [[-> ->]|[_ H]]; [done|]. by apply elem_of_nil in H.
  - rewrite fmap_cons in Hnd. apply NoDup_cons in Hnd as [Hk0 Hnd]. simpl in Hk0.
    destruct (decide (k0 = k)) as [->|Hne].
    + rewrite !elem_of_cons. split.
      * intros [[= -> ->]|Hin]; [by left|]. right. split; [|by right].
        intros ->. apply Hk0. by apply (list_elem_of_fmap_2 fst) in Hin.
      * intros [[-> ->]|[Hne [[= ? ?]|Hin]]]; [by left|done|by right].
    + rewrite !elem_of_cons, (IH Hnd). split.
      * intros [[= -> ->]|[[-> ->]|[Hne' Hin]]]; [right|by left|right].
        -- split; [done|by left].
        -- split; [done|by right].
      * intros [[-> ->]|[Hne' [[= -> ->]|Hin]]]; [right; by left|by left|].
        right. right. done.
Qed.

Lemma dict_set_fmap {A B : Type} (f : A → B) (d : list (string * A))
  (k : string) (v : A) :
  dict_set (prod_map id f <$> d) k (f v) = prod_map id f <$> dict_set d k v.
Proof.
  induction d as [|[k' v'] d IH]; [done|].
  rewrite fmap_cons. cbn [dict_set prod_map id fst snd].
  destruct (decide (k' = k)); rewrite fmap_cons; [done|].
  by rewrite <- IH.
Qed.

(** ** Step 1: the builds *)

Section steps.
Variable self : UnifiedCIPipelineOrchestrator.
Variable clock : nat → Instant.

Lemma record_build_fst
  (st : list (string * BuildArtifact.t) * list (string * BuildSummary))
  (task : string * BuildArtifact.t) :
  (record_build st task).1 = dict_set st.1 task.1 task.2.
Proof. by destruct task. Qed.

Lemma run_builds_snoc (services : list Service) (s : Service) :
  run_builds self (services ++ [s])
  = record_build (run_builds self services) (build_task self s).
Proof. unfold run_builds. by rewrite fmap_app, fold_left_app. Qed.

Lemma run_builds_summary (services : list Service) :
  (run_builds self services).2
  = prod_map id build_summary <$> (run_builds self services).1.
Proof.
  induction services as [|s services IH] using rev_ind; [done|].
  rewrite run_builds_snoc. unfold record_build, build_task. cbn [fst snd].
  by rewrite IH, dict_set_fmap.
Qed.

Lemma run_builds_NoDup (services : list Service) :
  NoDup (run_builds self services).1.*1.
Proof.
  induction services as [|s services IH] using rev_ind; [constructor|].
  rewrite run_builds_snoc. unfold record_build, build_task. cbn [fst snd].
  by apply dict_set_NoDup.
Qed.

Lemma run_builds_keys (services : list Service) (n : string) :
  n ∈ (run_builds self services).1.*1 ↔ n ∈ name <$> services.
Proof.
  induction services as [|s services IH] using rev_ind; [done|].
  rewrite run_builds_snoc. unfold record_build, build_task. cbn [fst snd].
  rewrite dict_set_keys_elem, IH, fmap_app, elem_of_app. simpl.
  rewrite list_elem_of_singleton. tauto.
Qed.

Lemma last_named_snoc (services : list Service) (s s' : Service) (n : string) :
  last_named (services ++ [s]) n s' ↔
  (s' = s ∧ n = name s) ∨ (n ≠ name s ∧ last_named services n s').
Proof.
  unfold last_named. split.
  - intros (before & after & Heq & Hn & Hout).
    destruct after as [|a after _] using rev_ind.
    + apply app_inj_tail in Heq as [_ ->]. by left.
    + right. rewrite fmap_app, elem_of_app in Hout.
      change (before ++ s' :: after ++ [a])%list
        with (before ++ (s' :: after) ++ [a])%list in Heq.
      rewrite app_assoc in Heq. apply app_inj_tail in Heq as [-> ->].
      split.
      * intros ->. apply Hout. right. simpl. by apply list_elem_of_singleton.
      * exists before, after. split; [done|]. split; [done|]. tauto.
  - intros [[-> ->]|(Hne & before & after & -> & Hn & Hout)].
    + exists services, []. split; [done|]. split; [done|]. by intros ?%elem_of_nil.
    + exists before, (after ++ [s])%list. split; [by rewrite <- app_assoc|].
      split; [done|]. rewrite fmap_app, elem_of_app. simpl.
      rewrite list_elem_of_singleton. tauto.
Qed.

Lemma run_builds_last (services : list Service) (n : string)
  (artifact : BuildArtifact.t) :
  (n, artifact) ∈ (run_builds self services).1 ↔
  ∃ s, last_named services n s ∧ artifact = (build_task self s).2.
Proof.
  revert n artifact.
  induction services as [|s services IH] using rev_ind; intros n artifact.
  - split; [by intros ?%elem_of_nil|].
    intros (s & (before & after & Heq & _) & _). by destruct before.
  - rewrite run_builds_snoc, record_build_fst.
    change (build_task self s).1 with (name s).
    rewrite elem_of_dict_set by apply run_builds_NoDup. rewrite IH. split.
    + intros [[-> ->]|(Hne & s' & Hlast & ->)].
      * exists s. split; [|done]. apply last_named_snoc. by left.
      * exists s'. split; [|done]. apply last_named_snoc. by right.
    + intros (s' & [[-> ->]|[Hne Hlast]]%last_named_snoc & ->); [by left|].
      right. split; [done|]. by exists s'.
Qed.

Lemma build_task_passed (s : Service) :
  BuildArtifact.scan_status (build_task self s).2 = "PASSED".
Proof. unfold build_task. by destruct (decide _). Qed.

Lemma run_builds_passed (services : list Service) (it : string * BuildArtifact.t) :
  it ∈ (run_builds self services).1 → BuildArtifact.scan_status it.2 = "PASSED".
Proof.
  destruct it as [n artifact]. intros (s & _ & ->)%run_builds_last.
  apply build_task_passed.
Qed.

Lemma run_builds_length (services : list Service) :
  length (run_builds self services).1 = size (requested services).
Proof.
  rewrite <- (length_fmap fst).
  rewrite <- (size_list_to_set (C := gset string)) by apply run_builds_NoDup.
  f_equal. apply set_eq. intros n. unfold requested.
  by rewrite !elem_of_list_to_set, run_builds_keys.
Qed.

(** ** Step 2: the compliance checks *)

Lemma all_checks_counts (now : Instant) (n : string) (artifact : BuildArtifact.t) :
  BuildArtifact.scan_status artifact = "PASSED" →
  let c := compliance_summary (all_checks_of self now n artifact) in
  total_count c
  = (4 + if gdpr_governed (compliance self) n then 1 else 0)%Z ∧
  passed_count c = (total_count c - if is_business_hours now then 0 else 1)%Z ∧
  length (details c) = Z.to_nat (total_count c).
Proof.
  intros Hscan. unfold all_checks_of, validate_security, validate_governance,
    validate_compliance, compliance_summary, append.
  rewrite Hscan. destruct (gdpr_governed _ _), (is_business_hours now); done.
Qed.

Lemma validate_build_passed (st : Validation) (it : string * BuildArtifact.t) :
  BuildArtifact.scan_status it.2 = "PASSED" →
  all_compliance_passed (validate_build self clock st it)
  = is_business_hours (clock (readings st)) && all_compliance_passed st.
Proof.
  destruct it as [n artifact]. intros Hscan. unfold validate_build.
  cbn [all_compliance_passed].
  destruct (all_checks_counts (clock (readings st)) n artifact Hscan)
    as (Htotal & Hpassed & _).
  cbv zeta in Htotal, Hpassed. rewrite Hpassed. clear Htotal Hpassed.
  generalize (total_count (compliance_summary
                (all_checks_of self (clock (readings st)) n artifact))).
  intros total. destruct (is_business_hours _); cbn [andb].
  - by rewrite Z.sub_0_r, Z.ltb_irrefl.
  - by destruct (Z.ltb_spec (total - 1) total); [|lia].
Qed.

Lemma validate_fold (its : list (string * BuildArtifact.t)) (st : Validation) :
  (∀ it, it ∈ its → BuildArtifact.scan_status it.2 = "PASSED") →
  NoDup ((checked st).*1 ++ its.*1) →
  let st' := fold_left (validate_build self clock) its st in
  readings st' = (readings st + length its)%nat ∧
  (all_compliance_passed st' = true ↔
     all_compliance_passed st = true ∧
     ∀ j, (j < length its)%nat →
          is_business_hours (clock (readings st + j)) = true) ∧
  (checked st').*1 = ((checked st).*1 ++ its.*1)%list ∧
  (∀ n c, (n, c) ∈ checked st' ↔
     (n, c) ∈ checked st ∨
     ∃ j artifact, its !! j = Some (n, artifact) ∧
       c = compliance_summary
             (all_checks_of self (clock (readings st + j)) n artifact)).
Proof.
  revert st. induction its as [|[n0 a0] its IH]; intros st Hscan Hnd; cbv zeta.
  - simpl. rewrite Nat.add_0_r, app_nil_r. split; [done|]. split.
    { split; [|tauto]. intros ?. split; [done|]. intros j ?. lia. }
    split; [done|]. intros n c. split; [by left|].
    intros [?|(j & artifact & Hj & _)]; [done|]. by rewrite lookup_nil in Hj.
  - cbn [fold_left].
    assert (Hfresh : n0 ∉ (checked st).*1).
    { intros Hin. rewrite fmap_cons in Hnd. apply NoDup_app in Hnd as (_ & Hd & _).
      apply (Hd n0 Hin). left. }
    assert (Hchecked : checked (validate_build self clock st (n0, a0))
              = (checked st ++ [(n0, compliance_summary
                   (all_checks_of self (clock (readings st)) n0 a0))])%list).
    { unfold validate_build. cbn [checked]. by apply dict_set_fresh. }
    assert (Hreadings : readings (validate_build self clock st (n0, a0))
                        = S (readings st)) by done.
    destruct (IH (validate_build self clock st (n0, a0)))
      as (Hr & Hp & Hk & Hc).
    { intros it Hit. apply Hscan. by right. }
    { rewrite Hchecked, fmap_app, <- app_assoc. done. }
    cbv zeta in Hr, Hp, Hk, Hc. rewrite Hreadings in Hr, Hp, Hc.
    split; [rewrite Hr; cbn [length]; lia|]. split; [|split].
    + rewrite Hp, (validate_build_passed st (n0, a0)) by (apply Hscan; left).
      rewrite andb_true_iff. split.
      * intros [[Hb Hall] Hrest]. split; [done|]. intros [|j] Hj.
        -- by rewrite Nat.add_0_r.
        -- rewrite <- Nat.add_succ_comm. apply Hrest. simpl in Hj. lia.
      * intros [Hall Hrest]. split; [split; [|done]|].
        -- rewrite <- (Nat.add_0_r (readings st)). apply Hrest. simpl. lia.
        -- intros j Hj. rewrite Nat.add_succ_comm. apply Hrest. simpl. lia.
    + rewrite Hk, Hchecked, fmap_app, <- app_assoc. done.
    + intros n c. rewrite Hc, Hchecked, elem_of_app, list_elem_of_singleton.
      split.
      * intros [[?|[= -> ->]]|(j & artifact & Hj & ->)]; [by left|right..].
        -- exists 0%nat, a0. by rewrite Nat.add_0_r.
        -- exists (S j), artifact. by rewrite <- Nat.add_succ_comm.
      * intros [?|([|j] & artifact & Hj & ->)]; [left; by left|..].
        -- injection Hj as -> ->. left. right. by rewrite Nat.add_0_r.
        -- right. exists j, artifact. by rewrite Nat.add_succ_comm.
Qed.

(** ** The pipeline as a whole *)

Lemma orchestrate_unfold (services : list Service) :
  let st := run_validation self clock (run_builds self services).1 in
  let d := Orchestrator.discover_deployment_order (dependencies self)
             (name <$> services) in
  orchestrate_build_pipeline self clock services
  = mkPipelineResult (isoformat (clock 0)) (Z.of_nat (length services))
      (run_builds self services).2 (checked st)
      ((if truthy d.2 then false else all_compliance_passed st)
       && negb (truthy d.2))
      (if truthy d.2 then d.2 else [])
      (seconds (clock (readings st)) - seconds (clock 0)) d.1.
Proof.
  unfold orchestrate_build_pipeline.
  destruct (run_builds self services) as [build_results builds].
  by destruct (Orchestrator.discover_deployment_order _ _) as [stages errs].
Qed.

Lemma run_validation_spec (services : list Service) :
  let build_results := (run_builds self services).1 in
  let st := run_validation self clock build_results in
  readings st = S (size (requested services)) ∧
  (all_compliance_passed st = true ↔
     ∀ k, (1 ≤ k ≤ size (requested services))%nat →
          is_business_hours (clock k) = true) ∧
  (checked st).*1 = build_results.*1 ∧
  (∀ n c, (n, c) ∈ checked st ↔
     ∃ j artifact, build_results !! j = Some (n, artifact) ∧
       c = compliance_summary (all_checks_of self (clock (S j)) n artifact)).
Proof.
  cbv zeta. unfold run_validation.
  destruct (validate_fold (run_builds self services).1 (mkValidation 1 [] true))
    as (Hr & Hp & Hk & Hc).
  { apply run_builds_passed. }
  { apply run_builds_NoDup. }
  cbv zeta in Hr, Hp, Hk, Hc. cbn [readings checked all_compliance_passed] in *.
  rewrite run_builds_length in Hr, Hp. split; [by rewrite Hr|]. split; [|split].
  - rewrite Hp. split.
    + intros [_ H] k Hk'. replace k with (1 + (k - 1))%nat by lia. apply H. lia.
    + intros H. split; [done|]. intros j Hj. apply H. lia.
  - done.
  - intros n c. rewrite Hc. split; [|by right].
    intros [?%elem_of_nil|?]; done.
Qed.

End steps.

End PipelineProofs.

Section PipelineTheorems.
Import Pipeline DependencyGraph.

(** X25.  The pipeline declares the deployment ready exactly when every
    compliance round was run within business hours (one reading of the
    clock for each distinct requested name, after the reading that opens
    the run) and the dependencies between distinct requested services form
    no cycle: the builds always report a passing scan, so no other check
    can fail. *)
Theorem pipeline_ready_iff (self : UnifiedCIPipelineOrchestrator)
  (clock : nat → Instant) (services : list Service) :
  deployment_ready (orchestrate_build_pipeline self clock services) = true ↔
  (∀ k, (1 ≤ k ≤ size (requested services))%nat →
        is_business_hours (clock k) = true) ∧
  acyclic_strict (dependencies self) (requested services).
Proof.
  rewrite orchestrate_unfold. cbv zeta. cbn [deployment_ready].
  destruct (run_validation_spec self clock services) as (_ & Hp & _).
  cbv zeta in Hp. rewrite <- Hp.
  unfold requested. rewrite <- discover_errors_nil_iff.
  destruct (Orchestrator.discover_deployment_order _ _).2 as [|e errs];
    cbn [truthy negb].
  - rewrite andb_true_r. tauto.
  - split; [done|]. by intros [_ ?].
Qed.

(** X26.  The compliance section of the result has one entry for each
    distinct requested name, in the order of the builds; the entry of the
    [j]-th name counts four checks, or five when the policy of the service
    is GDPR-governed, and all of them pass except the deployment-window
    check when reading [j+1] of the clock is outside business hours. *)
Theorem pipeline_compliance_checks (self : UnifiedCIPipelineOrchestrator)
  (clock : nat → Instant) (services : list Service) :
  let r := orchestrate_build_pipeline self clock services in
  (compliance_checks r).*1 = (builds r).*1 ∧
  NoDup (builds r).*1 ∧
  (∀ n, n ∈ (builds r).*1 ↔ n ∈ name <$> services) ∧
  (∀ n c, (n, c) ∈ compliance_checks r →
     ∃ j, (builds r).*1 !! j = Some n ∧
       total_count c
       = (4 + if gdpr_governed (compliance self) n then 1 else 0)%Z ∧
       passed_count c
       = (total_count c - if is_business_hours (clock (S j)) then 0 else 1)%Z ∧
       length (details c) = Z.to_nat (total_count c)).
Proof.
  rewrite orchestrate_unfold. cbv zeta. cbn [compliance_checks builds].
  destruct (run_validation_spec self clock services) as (_ & _ & Hk & Hc).
  cbv zeta in Hk, Hc.
  assert (Hkeys : (run_builds self services).2.*1 = (run_builds self services).1.*1).
  { rewrite run_builds_summary, <- list_fmap_compose. apply list_fmap_ext.
    by intros _ [? ?] _. }
  rewrite Hkeys. split; [done|]. split; [apply run_builds_NoDup|].
  split; [apply run_builds_keys|].
  intros n c (j & artifact & Hj & ->)%Hc. exists j. split.
  { by rewrite list_lookup_fmap, Hj. }
  apply all_checks_counts.
  apply (run_builds_passed self services (n, artifact)).
  by eapply list_elem_of_lookup_2.
Qed.

(** X27.  The build section of the result holds, under each requested
    name, the build of the last entry of [services] with that name: a
    success with a passing scan, from the AWS registry when the entry's
    cloud is "aws" and from the Azure registry for any other cloud.  Names
    requested twice are built once, so the section can be shorter than
    [services_requested]. *)
Theorem pipeline_builds (self : UnifiedCIPipelineOrchestrator)
  (clock : nat → Instant) (services : list Service) :
  let r := orchestrate_build_pipeline self clock services in
  services_requested r = Z.of_nat (length services) ∧
  length (builds r) = size (requested services) ∧
  (length (builds r) ≤ length services)%nat ∧
  (∀ n b, (n, b) ∈ builds r ↔
     ∃ s, last_named services n s ∧
       b = if decide (cloud s = "aws")
           then mkBuildSummary "SUCCESS"
                  ("123456789.dkr.ecr." +:+ region (aws self)
                     +:+ ".amazonaws.com/" +:+ n +:+ ":latest")
                  180 "PASSED"
           else mkBuildSummary "SUCCESS"
                  ("myregistry.azurecr.io/" +:+ n +:+ ":latest")
                  165 "PASSED").
Proof.
  rewrite orchestrate_unfold. cbv zeta. cbn [services_requested builds].
  split; [done|].
  assert (Hlen : length (run_builds self services).2 = size (requested services)).
  { by rewrite run_builds_summary, length_fmap, run_builds_length. }
  split; [done|]. split.
  - rewrite run_builds_summary, length_fmap, <- (length_fmap fst),
      <- (length_fmap name services).
    apply submseteq_length, NoDup_submseteq; [apply run_builds_NoDup|].
    intros n. by rewrite run_builds_keys.
  - intros n b. rewrite run_builds_summary, list_elem_of_fmap. split.
    + intros ([n' artifact] & [= -> ->] & (s & Hlast & ->)%run_builds_last).
      exists s. split; [done|]. destruct Hlast as (_ & _ & _ & <- & _).
      unfold build_task. by destruct (decide _).
    + intros (s & Hlast & ->). exists (n, (build_task self s).2). split.
      * destruct Hlast as (_ & _ & _ & <- & _).
        unfold build_task. by destruct (decide _).
      * apply run_builds_last. by exists s.
Qed.

(** A request naming [payment] twice, once for each cloud: two builds for
    three requested entries, the later (Azure) entry kept in the place of
    the first, five checks for the GDPR-governed service and four for the
    other; ready in office hours, blocked by the window check at night. *)
Example pipeline_office :
  let r := orchestrate_build_pipeline example_orchestrator office_clock
             example_services in
  services_requested r = 3%Z ∧
  builds r = [("payment", mkBuildSummary "SUCCESS"
                            "myregistry.azurecr.io/payment:latest" 165 "PASSED");
              ("auth", mkBuildSummary "SUCCESS"
                         "myregistry.azurecr.io/auth:latest" 165 "PASSED")] ∧
  (λ it, (it.1, passed_count it.2, total_count it.2)) <$> compliance_checks r
  = [("payment", 5%Z, 5%Z); ("auth", 4%Z, 4%Z)] ∧
  deployment_stages r = [["auth"]; ["payment"]] ∧
  deployment_ready r = true.
Proof. vm_compute. done. Qed.

Example pipeline_night :
  let r := orchestrate_build_pipeline example_orchestrator night_clock
             example_services in
  (λ it, (it.1, passed_count it.2, total_count it.2)) <$> compliance_checks r
  = [("payment", 4%Z, 5%Z); ("auth", 3%Z, 4%Z)] ∧
  errors r = [] ∧
  deployment_ready r = false.
Proof. vm_compute. done. Qed.

End PipelineTheorems.

(** * Properties of the risk score *)

Section RiskProofs.
Import RiskAssessment.
Open Scope Q_scope.

(** ** Sums *)

Lemma fold_left_Qplus_acc (xs : list Q) (a : Q) :
  fold_left Qplus xs a == a + fold_left Qplus xs 0.
Proof.
  revert a. induction xs as [|x xs IH]; intros a; simpl.
  - lra.
  - rewrite (IH (a + x)), (IH (0 + x)). lra.
Qed.

Lemma py_sum_nil : py_sum [] == 0.
Proof. reflexivity. Qed.

Lemma py_sum_cons (x : Q) (xs : list Q) : py_sum (x :: xs) == x + py_sum xs.
Proof. unfold py_sum. simpl. rewrite fold_left_Qplus_acc. lra. Qed.

Lemma py_sum_app (xs ys : list Q) : py_sum (xs ++ ys) == py_sum xs + py_sum ys.
Proof.
  induction xs as [|x xs IH]; simpl.
  - rewrite py_sum_nil. lra.
  - rewrite !py_sum_cons, IH. lra.
Qed.

Lemma weighted_sum_cons (f : RiskFactor) (fs : list RiskFactor) :
  weighted_sum (f :: fs) == severity f * weight_of f + weighted_sum fs.
Proof. unfold weighted_sum. simpl. apply py_sum_cons. Qed.

Lemma total_weight_cons (f : RiskFactor) (fs : list RiskFactor) :
  total_weight (f :: fs) == weight_of f + total_weight fs.
Proof. unfold total_weight. simpl. apply py_sum_cons. Qed.

Lemma weighted_sum_app (fs gs : list RiskFactor) :
  weighted_sum (fs ++ gs) == weighted_sum fs + weighted_sum gs.
Proof. unfold weighted_sum. rewrite map_app. apply py_sum_app. Qed.

Lemma total_weight_app (fs gs : list RiskFactor) :
  total_weight (fs ++ gs) == total_weight fs + total_weight gs.
Proof. unfold total_weight. rewrite map_app. apply py_sum_app. Qed.

(** ** Weights *)

Lemma weight_of_cases (f : RiskFactor) :
  weight_of f = 1.5 ∨ weight_of f = 1.3 ∨ weight_of f = 1.0 ∨ weight_of f = 0.8.
Proof.
  unfold weight_of, weights.
  destruct (decide (category f = "compliance")) as [->|H1]; [by left|].
  rewrite lookup_insert_ne by done.
  destruct (decide (category f = "security")) as [->|H2]; [right; by left|].
  rewrite lookup_insert_ne by done.
  destruct (decide (category f = "testing")) as [->|H3]; [right; right; by left|].
  rewrite lookup_insert_ne by done.
  destruct (decide (category f = "infrastructure")) as [->|H4]; [right; right; by right|].
  rewrite lookup_insert_ne by done.
  rewrite lookup_empty. right; right; by left.
Qed.

Lemma weight_of_pos (f : RiskFactor) : 0 < weight_of f.
Proof.
  destruct (weight_of_cases f) as [-> | [-> | [-> | ->]]]; reflexivity.
Qed.

Lemma total_weight_nonneg (fs : list RiskFactor) : 0 <= total_weight fs.
Proof.
  induction fs as [|f fs IH].
  - unfold total_weight. simpl. rewrite py_sum_nil. lra.
  - rewrite total_weight_cons. pose proof (weight_of_pos f). lra.
Qed.

Lemma total_weight_pos (fs : list RiskFactor) : fs ≠ [] → 0 < total_weight fs.
Proof.
  destruct fs as [|f fs]; [done|]. intros _.
  rewrite total_weight_cons.
  pose proof (weight_of_pos f). pose proof (total_weight_nonneg fs). lra.
Qed.


(** ** Truncation *)

Lemma py_int_nonneg (x : Q) : 0 <= x → py_int x = Qfloor x.
Proof.
  intros Hx. unfold py_int. destruct (Qlt_le_dec x 0); [lra|done].
Qed.

Lemma Qfloor_le_Qceiling (x : Q) : (Qfloor x ≤ Qceiling x)%Z.
Proof.
  pose proof (Qfloor_le x). pose proof (Qle_ceiling x).
  assert (inject_Z (Qfloor x) <= inject_Z (Qceiling x)) by lra.
  by rewrite Zle_Qle.
Qed.

Lemma py_int_mono (x y : Q) : x <= y → (py_int x ≤ py_int y)%Z.
Proof.
  intros Hxy. unfold py_int.
  destruct (Qlt_le_dec x 0), (Qlt_le_dec y 0).
  - by apply Qceiling_resp_le.
  - transitivity 0%Z.
    + change 0%Z with (Qceiling 0). apply Qceiling_resp_le. lra.
    + change 0%Z with (Qfloor 0). by apply Qfloor_resp_le.
  - lra.
  - by apply Qfloor_resp_le.
Qed.

Lemma py_int_ge (x : Q) (n : Z) : inject_Z n <= x → (0 ≤ n)%Z → (n ≤ py_int x)%Z.
Proof.
  intros Hx Hn.
  assert (0 <= x).
  { rewrite Zle_Qle in Hn. change (inject_Z 0) with 0 in Hn. lra. }
  rewrite py_int_nonneg by done.
  rewrite <- (Qfloor_Z n). by apply Qfloor_resp_le.
Qed.

(** ** The score *)

Lemma risk_score_nonempty (fs : list RiskFactor) :
  fs ≠ [] → _calculate_risk_score fs = py_int (weighted_average fs).
Proof.
  intros Hne. pose proof (total_weight_pos fs Hne) as Hpos.
  destruct fs as [|f fs]; [done|]. unfold _calculate_risk_score, weighted_average.
  destruct (Qlt_le_dec 0 (total_weight (f :: fs))); [done|lra].
Qed.

Lemma weighted_sum_nonneg (fs : list RiskFactor) :
  (∀ f, f ∈ fs → 0 <= severity f) → 0 <= weighted_sum fs.
Proof.
  induction fs as [|f fs IH]; intros Hsev.
  - unfold weighted_sum. simpl. rewrite py_sum_nil. lra.
  - rewrite weighted_sum_cons.
    assert (0 <= severity f) by (apply Hsev; left).
    assert (0 <= weighted_sum fs) by (apply IH; intros g Hg; apply Hsev; by right).
    pose proof (weight_of_pos f). nra.
Qed.

(** The weighted sum is bounded below by the total weight times any lower
    bound of the severities. *)
Lemma weighted_sum_lower (fs : list RiskFactor) (b : Q) :
  (∀ f, f ∈ fs → b <= severity f) → b * total_weight fs <= weighted_sum fs.
Proof.
  induction fs as [|f fs IH]; intros Hsev.
  - unfold weighted_sum, total_weight. simpl. rewrite py_sum_nil. lra.
  - rewrite weighted_sum_cons, total_weight_cons.
    assert (b <= severity f) by (apply Hsev; left).
    assert (b * total_weight fs <= weighted_sum fs)
      by (apply IH; intros g Hg; apply Hsev; by right).
    pose proof (weight_of_pos f). nra.
Qed.


Lemma Qdiv_ge (a c n : Q) : 0 < c → n * c <= a → n <= a / c.
Proof.
  intros Hc H. apply Qle_shift_div_l; done.
Qed.

End RiskProofs.
(** * Properties of the binary64 arithmetic *)

Section Binary64Proofs.
Import Binary64.
Open Scope Q_scope.

Lemma Qpower2_pos (e : Z) : 0 < 2 ^ e.
Proof. apply Qpower_0_lt. reflexivity. Qed.

Lemma Qdiv_le_cross (a b c d : Q) :
  0 < b → 0 < d → a * d <= c * b → a / b <= c / d.
Proof.
  intros Hb Hd H. apply Qle_shift_div_r; [done|].
  assert (E : c / d * b == c * b / d) by (field; lra). rewrite E.
  apply Qle_shift_div_l; [done|]. done.
Qed.

Lemma py_round_error (y : Q) : Qabs (inject_Z (py_round y) - y) <= 1 # 2.
Proof.
  unfold py_round.
  pose proof (Qfloor_le y) as Hlo. pose proof (Qlt_floor y) as Hhi.
  rewrite inject_Z_plus in Hhi. change (inject_Z 1) with 1 in Hhi.
  apply Qabs_Qle_condition.
  destruct (Qlt_le_dec (y - inject_Z (Qfloor y)) (1 # 2)) as [H|H].
  { split; lra. }
  destruct (Qlt_le_dec (1 # 2) (y - inject_Z (Qfloor y))) as [H'|H'].
  { rewrite inject_Z_plus. change (inject_Z 1) with 1. split; lra. }
  destruct (Z.even (Qfloor y)).
  - split; lra.
  - rewrite inject_Z_plus. change (inject_Z 1) with 1. split; lra.
Qed.

Lemma ilog2_le (x : Q) : ¬ x == 0 → 2 ^ ilog2 x <= Qabs x.
Proof.
  intros Hx. unfold ilog2.
  destruct (Qlt_le_dec _ _) as [_|H]; [|done].
  destruct x as [n d]. cbn [Qnum Qden Qabs].
  assert (Hn : (0 < Z.abs n)%Z).
  { destruct n; [|lia..]. exfalso. apply Hx. reflexivity. }
  set (a := Z.log2 (Z.abs n)). set (b := Z.log2 (Z.pos d)).
  assert (Ha : (0 <= a)%Z) by apply Z.log2_nonneg.
  assert (Hb : (0 <= b)%Z) by apply Z.log2_nonneg.
  destruct (Z.log2_spec (Z.abs n) Hn) as [Hna _]. fold a in Hna.
  destruct (Z.log2_spec (Z.pos d) eq_refl) as [_ Hdb]. fold b in Hdb.
  replace (a - b - 1)%Z with (a - Z.succ b)%Z by lia.
  rewrite Qpower_minus by discriminate.
  rewrite (Qmake_Qdiv (Z.abs n) d).
  assert (E1 : 2 ^ a == inject_Z (2 ^ a)%Z)
    by (symmetry; apply (Zpower_Qpower 2 a Ha)).
  assert (E2 : 2 ^ Z.succ b == inject_Z (2 ^ Z.succ b)%Z)
    by (symmetry; apply (Zpower_Qpower 2 (Z.succ b)); lia).
  rewrite E1, E2.
  assert (Hpow : (0 < 2 ^ Z.succ b)%Z) by (apply Z.pow_pos_nonneg; lia).
  apply Qdiv_le_cross.
  - change 0 with (inject_Z 0). by rewrite <- Zlt_Qlt.
  - change 0 with (inject_Z 0). by rewrite <- Zlt_Qlt.
  - rewrite <- !inject_Z_mult, <- Zle_Qle. nia.
Qed.

Lemma ilog2_lt (x : Q) : ¬ x == 0 → Qabs x < 2 ^ (ilog2 x + 1).
Proof.
  intros Hx. unfold ilog2.
  destruct (Qlt_le_dec _ _) as [H|_].
  { by replace (Z.log2 (Z.abs (Qnum x)) - Z.log2 (Z.pos (Qden x)) - 1 + 1)%Z
      with (Z.log2 (Z.abs (Qnum x)) - Z.log2 (Z.pos (Qden x)))%Z by lia. }
  destruct x as [n d]. cbn [Qnum Qden Qabs].
  assert (Hn : (0 < Z.abs n)%Z).
  { destruct n; [|lia..]. exfalso. apply Hx. reflexivity. }
  set (a := Z.log2 (Z.abs n)). set (b := Z.log2 (Z.pos d)).
  assert (Ha : (0 <= a)%Z) by apply Z.log2_nonneg.
  assert (Hb : (0 <= b)%Z) by apply Z.log2_nonneg.
  destruct (Z.log2_spec (Z.abs n) Hn) as [_ Hna]. fold a in Hna.
  destruct (Z.log2_spec (Z.pos d) eq_refl) as [Hdb _]. fold b in Hdb.
  replace (a - b + 1)%Z with (Z.succ a - b)%Z by lia.
  rewrite Qpower_minus by discriminate.
  rewrite (Qmake_Qdiv (Z.abs n) d).
  assert (E1 : 2 ^ Z.succ a == inject_Z (2 ^ Z.succ a)%Z)
    by (symmetry; apply (Zpower_Qpower 2 (Z.succ a)); lia).
  assert (E2 : 2 ^ b == inject_Z (2 ^ b)%Z)
    by (symmetry; apply (Zpower_Qpower 2 b Hb)).
  rewrite E1, E2.
  assert (Hpow : (0 < 2 ^ b)%Z) by (apply Z.pow_pos_nonneg; lia).
  apply Qlt_shift_div_l.
  - change 0 with (inject_Z 0). by rewrite <- Zlt_Qlt.
  - assert (E : inject_Z (Z.abs n) / inject_Z (Z.pos d) * inject_Z (2 ^ b)
                == inject_Z (Z.abs n) * inject_Z (2 ^ b) / inject_Z (Z.pos d)).
    { field. intros H0. discriminate H0. }
    rewrite E. apply Qlt_shift_div_r.
    + change 0 with (inject_Z 0). by rewrite <- Zlt_Qlt.
    + rewrite <- !inject_Z_mult, <- Zlt_Qlt. nia.
Qed.

Lemma rnd_0 (x : Q) : x == 0 → rnd x = 0.
Proof. intros Hx. unfold rnd. by destruct (Qeq_dec x 0). Qed.

(** One rounding changes a value by at most the fraction [u] of it. *)
Lemma rnd_error (x : Q) : Qabs (rnd x - x) <= u * Qabs x.
Proof.
  unfold rnd. destruct (Qeq_dec x 0) as [Hx|Hx].
  { rewrite Hx. vm_compute. discriminate. }
  cbv zeta. rewrite Qred_correct.
  set (q := (ilog2 x - 52)%Z).
  pose proof (Qpower2_pos q) as Hq.
  pose proof (py_round_error (x / 2 ^ q)) as Herr.
  pose proof (ilog2_le x Hx) as Hlog.
  assert (Hsplit : 2 ^ ilog2 x == 2 ^ q * 2 ^ 52).
  { rewrite <- Qpower_plus by discriminate. unfold q.
    by replace (ilog2 x - 52 + 52)%Z with (ilog2 x) by lia. }
  rewrite Hsplit in Hlog.
  assert (E : inject_Z (py_round (x / 2 ^ q)) * 2 ^ q - x
              == (inject_Z (py_round (x / 2 ^ q)) - x / 2 ^ q) * 2 ^ q)
    by (field; lra).
  rewrite E, Qabs_Qmult, (Qabs_pos (2 ^ q)) by lra.
  change (2 ^ 52) with (4503599627370496 # 1) in Hlog. unfold u.
  assert (Qabs (inject_Z (py_round (x / 2 ^ q)) - x / 2 ^ q) * 2 ^ q
          <= (1 # 2) * 2 ^ q).
  { apply Qmult_le_compat_r; [done|lra]. }
  lra.
Qed.

Lemma rnd_bounds (x : Q) :
  0 <= x → (1 - u) * x <= rnd x ∧ rnd x <= (1 + u) * x.
Proof.
  intros Hx. pose proof (rnd_error x) as H.
  rewrite (Qabs_pos x) in H by done.
  apply Qabs_Qle_condition in H. split; lra.
Qed.

Lemma rnd_nonneg (x : Q) : 0 <= x → 0 <= rnd x.
Proof.
  intros Hx. destruct (rnd_bounds x Hx) as [H _].
  assert (0 <= (1 - u) * x); [|lra].
  apply Qmult_le_0_compat; [|done]. vm_compute. discriminate.
Qed.

(** *** Accumulated error *)

Lemma approx_refl (k x : Q) : 0 <= k → 0 <= x → approx k x x.
Proof.
  intros Hk Hx. unfold approx, eps.
  assert (0 <= k * x) by (by apply Qmult_le_0_compat). split; lra.
Qed.

Lemma approx_0 (k : Q) : approx k 0 0.
Proof. unfold approx. split; lra. Qed.

Lemma approx_nonneg (k xt x : Q) :
  0 <= x → k * eps <= 1 → approx k xt x → 0 <= xt.
Proof.
  intros Hx Hk [H _].
  assert (0 <= (1 - k * eps) * x) by (apply Qmult_le_0_compat; lra). lra.
Qed.

Lemma approx_weaken (j k xt x : Q) :
  j <= k → 0 <= x → approx j xt x → approx k xt x.
Proof.
  intros Hjk Hx [H1 H2]. unfold approx, eps in *.
  assert (0 <= (k - j) * x) by (apply Qmult_le_0_compat; lra). split; lra.
Qed.

Lemma approx_add (k xt x yt y : Q) :
  approx k xt x → approx k yt y → approx k (xt + yt) (x + y).
Proof. unfold approx. intros [H1 H2] [H3 H4]. split; lra. Qed.

Lemma approx_rnd (k xt x : Q) :
  0 <= x → 0 <= k → k * eps <= 1 → approx k xt x → approx (k + 1) (rnd xt) x.
Proof.
  intros Hx Hk Hke Hap.
  pose proof (approx_nonneg _ _ _ Hx Hke Hap) as Hxt.
  destruct (rnd_bounds xt Hxt) as [Hlo Hhi]. destruct Hap as [H1 H2].
  unfold approx, eps, u in *.
  assert (0 <= (1 - k * (1 # 4503599627370496)) * x)
    by (apply Qmult_le_0_compat; lra).
  assert (0 <= k * x) by (by apply Qmult_le_0_compat).
  split; lra.
Qed.

Lemma approx_mul_rnd (s w wt : Q) :
  0 <= s → 0 <= w → approx 1 wt w → approx 4 (fmul (rnd s) wt) (s * w).
Proof.
  intros Hs Hw Hwt. unfold fmul.
  destruct (rnd_bounds s Hs) as [Hs1 Hs2].
  pose proof (rnd_nonneg s Hs) as Hrs.
  assert (Hwt0 : 0 <= wt) by (eapply approx_nonneg; [exact Hw| |exact Hwt]; done).
  destruct Hwt as [Hw1 Hw2]. unfold eps, u in *.
  assert (Hup : rnd s * wt <= ((1 + (1 # 9007199254740992)) * s)
                              * ((1 + 1 * (1 # 4503599627370496)) * w)).
  { apply Qmult_le_compat_nonneg; split; done. }
  assert (Hlo : ((1 - (1 # 9007199254740992)) * s)
                * ((1 - 1 * (1 # 4503599627370496)) * w) <= rnd s * wt).
  { apply Qmult_le_compat_nonneg; (split; [|done]); apply Qmult_le_0_compat;
      try done; vm_compute; discriminate. }
  assert (Hsw : 0 <= s * w) by (by apply Qmult_le_0_compat).
  assert (Hp : 0 <= rnd s * wt) by (by apply Qmult_le_0_compat).
  destruct (rnd_bounds _ Hp) as [Hr1 Hr2]. unfold approx, eps, u in *.
  split; lra.
Qed.

Lemma approx_div (a xt x yt y : Q) :
  0 <= a → a <= 1 # 4 → 0 <= x → 0 < y →
  (1 - a) * x <= xt ∧ xt <= (1 + a) * x →
  (1 - a) * y <= yt ∧ yt <= (1 + a) * y →
  (1 - 4 * a) * (x / y) <= xt / yt ∧ xt / yt <= (1 + 4 * a) * (x / y).
Proof.
  intros Ha0 Ha Hx Hy [Hx1 Hx2] [Hy1 Hy2].
  assert (Hyt : 0 < yt).
  { assert (0 < (1 - a) * y) by (apply Qmult_lt_0_compat; lra). lra. }
  set (z := x / y).
  assert (Hz : 0 <= z) by (apply Qle_shift_div_l; lra).
  assert (Ex : x == z * y) by (unfold z; field; lra).
  assert (Hzy : 0 <= z * y) by (apply Qmult_le_0_compat; lra).
  assert (Hazy : 0 <= a * (z * y)) by (by apply Qmult_le_0_compat).
  assert (Haazy : 0 <= a * (a * (z * y))) by (by apply Qmult_le_0_compat).
  assert (Haazy' : a * (a * (z * y)) <= (1 # 4) * (a * (z * y))).
  { apply Qmult_le_compat_r; done. }
  assert (Hzyt1 : z * ((1 - a) * y) <= z * yt)
    by (rewrite !(Qmult_comm z); by apply Qmult_le_compat_r).
  assert (Hzyt2 : z * yt <= z * ((1 + a) * y))
    by (rewrite !(Qmult_comm z); by apply Qmult_le_compat_r).
  assert (Hazyt1 : a * (z * ((1 - a) * y)) <= a * (z * yt))
    by (rewrite !(Qmult_comm a); by apply Qmult_le_compat_r).
  assert (Hazyt2 : a * (z * yt) <= a * (z * ((1 + a) * y)))
    by (rewrite !(Qmult_comm a); by apply Qmult_le_compat_r).
  rewrite Ex in Hx1, Hx2. split.
  - apply Qle_shift_div_l; [done|]. lra.
  - apply Qle_shift_div_r; [done|]. lra.
Qed.

Lemma rnd_abs_bounds (x b : Q) :
  Qabs x <= b → Qabs (rnd x) <= (1 + u) * b.
Proof.
  intros Hx. pose proof (rnd_error x) as He.
  apply Qabs_Qle_condition in He. apply Qabs_Qle_condition in Hx.
  apply Qabs_Qle_condition. unfold u in *.
  destruct (Qlt_le_dec x 0) as [Hneg|Hpos].
  - rewrite Qabs_neg in He by lra. split; lra.
  - rewrite Qabs_pos in He by lra. split; lra.
Qed.

(** What one round adds to the compensation term is of the size of one
    rounding error of the partial sum. *)
Lemma compensation_small (a b t : Q) :
  0 <= a → 0 <= b →
  Qabs (t - (a + b)) <= u * (a + b) →
  Qabs (fadd (fsub a t) b) <= (3 # 2) * eps * (a + b).
Proof.
  intros Ha Hb Ht. unfold fadd, fsub.
  apply Qabs_Qle_condition in Ht.
  pose proof (rnd_error (a - t)) as H1. apply Qabs_Qle_condition in H1.
  assert (Hd : Qabs (rnd (a - t) + b) <= (2 * u + u * u) * (a + b)).
  { apply Qabs_Qle_condition. unfold u in *.
    destruct (Qlt_le_dec (a - t) 0) as [Hneg|Hpos].
    - rewrite Qabs_neg in H1 by lra. split; lra.
    - rewrite Qabs_pos in H1 by lra. split; lra. }
  apply rnd_abs_bounds in Hd. unfold u, eps in *.
  eapply Qle_trans; [exact Hd|]. lra.
Qed.

End Binary64Proofs.

(** The rounding agrees with the kernel's binary64 arithmetic. *)
Section Binary64Check.
Import Binary64 PrimFloat.

#[warnings="-inexact-float"]
Example rnd_agrees_security_7 :
  Qred (SF2Q (FloatOps.Prim2SF (7 * 1.3 / 1.3)%float))
  = fdiv (fmul (rnd 7) (rnd 1.3)) (rnd 1.3).
Proof. vm_compute. reflexivity. Qed.

#[warnings="-inexact-float"]
Example rnd_agrees_infrastructure_43 :
  Qred (SF2Q (FloatOps.Prim2SF (43 * 0.8 / 0.8)%float))
  = fdiv (fmul (rnd 43) (rnd 0.8)) (rnd 0.8).
Proof. vm_compute. reflexivity. Qed.

#[warnings="-inexact-float"]
Example rnd_agrees_sum :
  Qred (SF2Q (FloatOps.Prim2SF (40 * 1.3 + 85 * 1.5 + 15 * 1.0)%float))
  = fadd (fadd (fmul (rnd 40) (rnd 1.3)) (fmul (rnd 85) (rnd 1.5)))
         (fmul (rnd 15) (rnd 1.0)).
Proof. vm_compute. reflexivity. Qed.

Example rnd_agrees_third :
  Qred (SF2Q (FloatOps.Prim2SF (5 / 3)%float)) = fdiv (rnd 5) (rnd 3).
Proof. vm_compute. reflexivity. Qed.

(** Ten times 0.1: the plain sum falls short of 1, the compensated sum is
    1, as the two generations of [sum()] return. *)
Example py_sum_tenths :
  RiskScore64.py_sum RiskScore64.Plain (map rnd (repeat (1 # 10)%Q 10))
  = (9007199254740991 # 9007199254740992)%Q ∧
  RiskScore64.py_sum RiskScore64.Compensated (map rnd (repeat (1 # 10)%Q 10))
  = 1%Q.
Proof. vm_compute. split; reflexivity. Qed.

End Binary64Check.

(** * The risk score in binary64 *)

Section RiskScore64Proofs.
Import RiskAssessment Binary64.
Open Scope Q_scope.

Lemma weight_of_rnd (f : RiskFactor) :
  RiskScore64.weight_of f = rnd (weight_of f).
Proof.
  unfold RiskScore64.weight_of, RiskScore64.weights, weight_of, weights.
  destruct (decide (category f = "compliance")) as [->|H1].
  { by rewrite !lookup_insert_eq. }
  rewrite !(lookup_insert_ne _ "compliance") by done.
  destruct (decide (category f = "security")) as [->|H2].
  { by rewrite !lookup_insert_eq. }
  rewrite !(lookup_insert_ne _ "security") by done.
  destruct (decide (category f = "testing")) as [->|H3].
  { by rewrite !lookup_insert_eq. }
  rewrite !(lookup_insert_ne _ "testing") by done.
  destruct (decide (category f = "infrastructure")) as [->|H4].
  { by rewrite !lookup_insert_eq. }
  rewrite !(lookup_insert_ne _ "infrastructure") by done.
  by rewrite !lookup_empty.
Qed.

Lemma weight_of_approx (f : RiskFactor) :
  approx 1 (RiskScore64.weight_of f) (weight_of f).
Proof.
  rewrite weight_of_rnd. pose proof (weight_of_pos f) as Hw.
  destruct (rnd_bounds (weight_of f)) as [H1 H2]; [lra|].
  unfold approx, eps, u in *. split; lra.
Qed.

Lemma fold_left_Qplus_nonneg (xs : list Q) (acc : Q) :
  Forall (Qle 0) xs → 0 <= acc → 0 <= fold_left Qplus xs acc.
Proof.
  intros Hall. revert acc. induction Hall as [|x xs Hx Hall IH]; intros acc Hacc;
    simpl; [done|]. apply IH. lra.
Qed.

(** A float sum of [n] terms, each within [c] roundings of its exact
    value, is within [c + n] roundings of the exact sum. *)
Lemma py_sum_approx (c : Q) (xts xs : list Q) (acct acc k : Q) :
  Forall2 (λ xt x, 0 <= x ∧ approx c xt x) xts xs →
  0 <= acc → 0 <= c → c <= k →
  (k + inject_Z (Z.of_nat (length xs))) * eps <= 1 →
  approx k acct acc →
  approx (k + inject_Z (Z.of_nat (length xs)))
    (fold_left fadd xts acct) (fold_left Qplus xs acc).
Proof.
  intros Hall. revert acct acc k.
  induction Hall as [|xt x xts xs [Hx Hap] Hall IH];
    intros acct acc k Hacc Hc Hck Hk Hacct.
  - cbn [fold_left length]. change (inject_Z (Z.of_nat 0)) with 0.
    eapply approx_weaken; [|done|done]. lra.
  - cbn [fold_left length] in *.
    assert (En : inject_Z (Z.of_nat (S (length xs)))
                 == inject_Z (Z.of_nat (length xs)) + 1).
    { rewrite Nat2Z.inj_succ, <- Z.add_1_r, inject_Z_plus. reflexivity. }
    assert (Hn : 0 <= inject_Z (Z.of_nat (length xs))).
    { change 0 with (inject_Z 0). rewrite <- Zle_Qle. lia. }
    set (n := inject_Z (Z.of_nat (length xs))) in *.
    set (n' := inject_Z (Z.of_nat (S (length xs)))) in *.
    clearbody n n'.
    assert (Hk1 : (k + 1) * eps <= 1) by (unfold eps in *; lra).
    assert (Hstep : approx (k + 1) (fadd acct xt) (acc + x)).
    { unfold fadd. apply approx_rnd; [lra|lra|unfold eps in *; lra|].
      apply approx_add; [done|]. by apply (approx_weaken c). }
    destruct (IH (fadd acct xt) (acc + x) (k + 1)) as [IH1 IH2];
      [lra|lra|lra|unfold eps in *; lra|done|].
    apply (approx_weaken (k + 1 + n)); [lra| |by split].
    apply fold_left_Qplus_nonneg; [|lra].
    clear -Hall. induction Hall as [|???? [? _]]; by constructor.
Qed.

(** The compensated loop: the running sum is as close to the exact sum as
    in the plain loop, and the compensation term stays small. *)
Lemma compensated_fold (c : Q) (xts xs : list Q) (st : Q * Q) (acc k j : Q) :
  Forall2 (λ xt x, 0 <= x ∧ approx c xt x) xts xs →
  0 <= acc → 0 <= c → c <= k → 0 <= j →
  (k + inject_Z (Z.of_nat (length xs))) * eps <= 1 # 4 →
  (j + 3 * inject_Z (Z.of_nat (length xs))) * eps <= 1 →
  approx k st.1 acc →
  Qabs st.2 <= j * eps * acc →
  let st' := fold_left RiskScore64.compensated_step xts st in
  approx (k + inject_Z (Z.of_nat (length xs))) st'.1 (fold_left Qplus xs acc) ∧
  Qabs st'.2 <= (j + 3 * inject_Z (Z.of_nat (length xs))) * eps
                * fold_left Qplus xs acc.
Proof.
  intros Hall. revert st acc k j.
  induction Hall as [|xt x xts xs [Hx Hap] Hall IH];
    intros [f cc] acc k j Hacc Hc Hck Hj Hk Hjn Hf Hcc; cbv zeta.
  - cbn [fold_left length fst snd] in *. change (inject_Z (Z.of_nat 0)) with 0.
    split.
    + eapply approx_weaken; [|done|done]. lra.
    + eapply Qle_trans; [exact Hcc|]. lra.
  - cbn [fold_left length fst snd] in *.
    assert (En : inject_Z (Z.of_nat (S (length xs)))
                 == inject_Z (Z.of_nat (length xs)) + 1).
    { rewrite Nat2Z.inj_succ, <- Z.add_1_r, inject_Z_plus. reflexivity. }
    assert (Hn : 0 <= inject_Z (Z.of_nat (length xs))).
    { change 0 with (inject_Z 0). rewrite <- Zle_Qle. lia. }
    assert (Hnonneg : 0 <= fold_left Qplus xs (acc + x)).
    { apply fold_left_Qplus_nonneg; [|lra].
      clear -Hall. induction Hall as [|???? [? _]]; by constructor. }
    set (n := inject_Z (Z.of_nat (length xs))) in *.
    set (n' := inject_Z (Z.of_nat (S (length xs)))) in *.
    clearbody n n'.
    assert (Hke : k * eps <= 1 # 4) by (unfold eps in *; lra).
    assert (Hf0 : 0 <= f) by (eapply approx_nonneg; [exact Hacc| |exact Hf]; lra).
    assert (Hxt0 : 0 <= xt).
    { eapply approx_nonneg; [exact Hx| |exact Hap]. unfold eps in *. lra. }
    assert (Hxk : approx k xt x) by (by apply (approx_weaken c)).
    assert (Hsum : approx k (f + xt) (acc + x)) by (by apply approx_add).
    assert (Ht : approx (k + 1) (fadd f xt) (acc + x)).
    { unfold fadd. apply approx_rnd; [lra|lra|lra|done]. }
    (* the increment of the compensation term *)
    assert (Hinc : ∀ inc, Qabs inc <= (3 # 2) * eps * (f + xt) →
                          Qabs (fadd cc inc) <= (j + 3) * eps * (acc + x)).
    { intros inc Hinc. unfold fadd.
      assert (Hjacc : j * acc <= j * (acc + x)).
      { rewrite !(Qmult_comm j). apply Qmult_le_compat_r; lra. }
      assert (Hjs : 0 <= j * (acc + x)) by (apply Qmult_le_0_compat; lra).
      assert (Hks : 0 <= k * (acc + x)) by (apply Qmult_le_0_compat; lra).
      assert (Hroom : 0 <= (1 - (j + 3) * eps) * (acc + x)).
      { apply Qmult_le_0_compat; [|lra]. unfold eps in *. lra. }
      assert (Hkroom : 0 <= ((1 # 4) - k * eps) * (acc + x)).
      { apply Qmult_le_0_compat; lra. }
      destruct Hsum as [_ Hsum].
      assert (Hb : Qabs (cc + inc) <= j * eps * acc + (3 # 2) * eps * (f + xt)).
      { eapply Qle_trans; [apply Qabs_triangle|]. lra. }
      apply rnd_abs_bounds in Hb. eapply Qle_trans; [exact Hb|].
      unfold u, eps in *. lra. }
    assert (Hstep : Qabs (RiskScore64.compensated_step (f, cc) xt).2
                    <= (j + 3) * eps * (acc + x)).
    { unfold RiskScore64.compensated_step. cbn [fst snd].
      pose proof (rnd_error (f + xt)) as He. rewrite (Qabs_pos (f + xt)) in He by lra.
      destruct (Qle_bool (Qabs xt) (Qabs f)).
      - apply Hinc, compensation_small; done.
      - apply Hinc.
        assert (E : (3 # 2) * eps * (f + xt) == (3 # 2) * eps * (xt + f)) by ring.
        rewrite E. apply compensation_small; [done|done|].
        apply Qabs_Qle_condition in He. apply Qabs_Qle_condition.
        unfold fadd. split; lra. }
    destruct (IH (RiskScore64.compensated_step (f, cc) xt) (acc + x) (k + 1) (j + 3))
      as [IH1 IH2]; [lra|lra|lra|lra| | |exact Ht|exact Hstep|].
    + unfold eps in *. lra.
    + unfold eps in *. lra.
    + split.
      * apply (approx_weaken (k + 1 + n)); [lra|done|done].
      * eapply Qle_trans; [exact IH2|].
        assert (H : 0 <= (n' - n - 1) * fold_left Qplus xs (acc + x)).
        { apply Qmult_le_0_compat; [lra|done]. }
        unfold eps in *. lra.
Qed.

(** Either way of summing: a float sum of [n] terms, each within [c]
    roundings of its exact value, is within [c + 4 n + 1] roundings of the
    exact sum. *)
Lemma py_sum_any_approx (how : RiskScore64.Summation) (c : Q) (xts xs : list Q) :
  Forall2 (λ xt x, 0 <= x ∧ approx c xt x) xts xs →
  0 <= c →
  (c + 4 * inject_Z (Z.of_nat (length xs)) + 1) * eps <= 1 # 4 →
  approx (c + 4 * inject_Z (Z.of_nat (length xs)) + 1)
    (RiskScore64.py_sum how xts) (fold_left Qplus xs 0).
Proof.
  intros Hall Hc Hk.
  assert (Hn : 0 <= inject_Z (Z.of_nat (length xs))).
  { change 0 with (inject_Z 0). rewrite <- Zle_Qle. lia. }
  assert (Hnonneg : 0 <= fold_left Qplus xs 0).
  { apply fold_left_Qplus_nonneg; [|lra].
    clear -Hall. induction Hall as [|???? [? _]]; by constructor. }
  destruct how.
  - apply (approx_weaken (c + inject_Z (Z.of_nat (length xs)))); [lra|done|].
    apply (py_sum_approx c); [done|lra|done|lra| |apply approx_0].
    unfold eps in *. lra.
  - destruct Hall as [|xt x xts xs [Hx Hap] Hall]; [apply approx_0|].
    cbn [RiskScore64.py_sum fold_left length] in *.
    assert (En : inject_Z (Z.of_nat (S (length xs)))
                 == inject_Z (Z.of_nat (length xs)) + 1).
    { rewrite Nat2Z.inj_succ, <- Z.add_1_r, inject_Z_plus. reflexivity. }
    assert (Hm : 0 <= inject_Z (Z.of_nat (length xs))).
    { change 0 with (inject_Z 0). rewrite <- Zle_Qle. lia. }
    pose proof (compensated_fold c xts xs (fadd 0 xt, 0) (0 + x) (c + 1) 0 Hall)
      as Hfold.
    cbv zeta in Hfold.
    set (n := inject_Z (Z.of_nat (length xs))) in *.
    set (n' := inject_Z (Z.of_nat (S (length xs)))) in *.
    clearbody n n'.
    assert (Hfirst : approx (c + 1) (fadd 0 xt) (0 + x)).
    { unfold fadd. apply approx_rnd; [lra|lra|unfold eps in *; lra|].
      destruct Hap as [H1 H2]. unfold approx. split; lra. }
    destruct Hfold as [Hf Hcc]; [lra|lra|lra|lra| | |exact Hfirst| |].
    { unfold eps in *. lra. }
    { unfold eps in *. lra. }
    { cbn [snd]. rewrite Qabs_pos by lra. unfold eps. lra. }
    set (st := fold_left RiskScore64.compensated_step xts (fadd 0 xt, 0)) in *.
    set (total := fold_left Qplus xs (0 + x)) in *.
    clearbody st total.
    assert (Hnt : 0 <= n * total) by (by apply Qmult_le_0_compat).
    assert (Hct : 0 <= c * total) by (by apply Qmult_le_0_compat).
    assert (Hslack : 0 <= (n' - n - 1) * total).
    { apply Qmult_le_0_compat; [lra|done]. }
    apply Qabs_Qle_condition in Hcc. destruct Hf as [Hf1 Hf2].
    destruct (Qeq_dec st.2 0) as [E0|_].
    + unfold approx, eps in *. split; lra.
    + apply (approx_weaken (c + 4 * n + 1 + 1)); [lra|done|].
      unfold fadd. apply approx_rnd; [done|lra|unfold eps in *; lra|].
      unfold approx, eps in *. split; lra.
Qed.

Lemma graded_nonneg (f : RiskFactor) : RiskScore64.graded f → 0 <= severity f.
Proof.
  intros (s & Hs & ->). change 0 with (inject_Z 0). rewrite <- Zle_Qle. lia.
Qed.

(** Both float sums are within 400005 roundings of the exact sums. *)
Lemma sums_approx (how : RiskScore64.Summation) (fs : list RiskFactor) :
  (∀ f, f ∈ fs → 0 <= severity f) → (Z.of_nat (length fs) ≤ 100000)%Z →
  approx 400005 (RiskScore64.weighted_sum how fs) (weighted_sum fs) ∧
  approx 400005 (RiskScore64.total_weight how fs) (total_weight fs).
Proof.
  intros Hsev Hlen.
  assert (Hn : inject_Z (Z.of_nat (length fs)) <= 100000).
  { change 100000 with (inject_Z 100000). by rewrite <- Zle_Qle. }
  assert (Hn0 : 0 <= inject_Z (Z.of_nat (length fs))).
  { change 0 with (inject_Z 0). rewrite <- Zle_Qle. lia. }
  assert (Hws : 0 <= weighted_sum fs) by (by apply weighted_sum_nonneg).
  assert (Htw : 0 <= total_weight fs) by apply total_weight_nonneg.
  split.
  - unfold RiskScore64.weighted_sum, weighted_sum, py_sum in *.
    apply (approx_weaken (4 + 4 * inject_Z (Z.of_nat (length fs)) + 1));
      [lra|done|].
    rewrite <- (length_map (λ f, severity f * weight_of f) fs).
    apply (py_sum_any_approx how 4); [|lra|].
    + clear -Hsev. induction fs as [|f fs IH]; simpl; constructor.
      * assert (Hs : 0 <= severity f) by (apply Hsev; left).
        pose proof (weight_of_pos f). split.
        -- apply Qmult_le_0_compat; lra.
        -- apply approx_mul_rnd; [done|lra|apply weight_of_approx].
      * apply IH. intros g Hg. apply Hsev. by right.
    + rewrite length_map. unfold eps. lra.
  - unfold RiskScore64.total_weight, total_weight, py_sum in *.
    apply (approx_weaken (1 + 4 * inject_Z (Z.of_nat (length fs)) + 1));
      [lra|done|].
    rewrite <- (length_map weight_of fs).
    apply (py_sum_any_approx how 1); [|lra|].
    + clear. induction fs as [|f fs IH]; simpl; constructor; [|done].
      pose proof (weight_of_pos f). split; [lra|apply weight_of_approx].
    + rewrite length_map. unfold eps. lra.
Qed.

(** With integer severities the exact sums are integers of tenths. *)
Lemma sums_tenths (fs : list RiskFactor) :
  (∀ f, f ∈ fs → RiskScore64.graded f) →
  ∃ A B : Z,
    10 * weighted_sum fs == inject_Z A ∧ 10 * total_weight fs == inject_Z B ∧
    (0 ≤ A ≤ 100 * B)%Z ∧ (0 ≤ B ≤ 15 * Z.of_nat (length fs))%Z.
Proof.
  induction fs as [|f fs IH]; intros Hall.
  - exists 0%Z, 0%Z. unfold weighted_sum, total_weight. simpl.
    rewrite py_sum_nil. split; [reflexivity|]. split; [reflexivity|]. lia.
  - destruct IH as (A & B & EA & EB & HA & HB).
    { intros g Hg. apply Hall. by right. }
    destruct (Hall f) as (s & Hs & Es); [left|].
    assert (HW : ∃ W : Z, 10 * weight_of f == inject_Z W ∧ (8 ≤ W ≤ 15)%Z).
    { destruct (weight_of_cases f) as [-> | [-> | [-> | ->]]];
        [exists 15%Z|exists 13%Z|exists 10%Z|exists 8%Z]; (split; [reflexivity|lia]). }
    destruct HW as (W & EW & HW).
    exists (A + s * W)%Z, (B + W)%Z.
    rewrite weighted_sum_cons, total_weight_cons, Es.
    rewrite !inject_Z_plus, inject_Z_mult.
    split; [|split; [|split]].
    + rewrite <- EA, <- EW. ring.
    + rewrite <- EB, <- EW. ring.
    + nia.
    + cbn [length]. lia.
Qed.

Lemma Qfloor_lt_Z (q : Q) (m : Z) : q < inject_Z m → (Qfloor q < m)%Z.
Proof.
  intros H. pose proof (Qfloor_le q) as Hf.
  rewrite Zlt_Qlt. lra.
Qed.

Lemma Qfloor_ge_Z (q : Q) (m : Z) : inject_Z m <= q → (m ≤ Qfloor q)%Z.
Proof.
  intros H. pose proof (Qlt_floor q) as Hf.
  assert (Hlt : inject_Z m < inject_Z (Qfloor q + 1)) by lra.
  rewrite <- Zlt_Qlt in Hlt. lia.
Qed.

(** The binary64 score of a list of up to 100000 factors with integer
    severities in 0-100 is the floor of the exact weighted average, or one
    less, however the sums are made; it is the floor unless the average is
    an integer. *)
Lemma risk_score64_near_floor (how : RiskScore64.Summation)
  (fs : list RiskFactor) :
  fs ≠ [] → (Z.of_nat (length fs) ≤ 100000)%Z →
  (∀ f, f ∈ fs → RiskScore64.graded f) →
  (Qfloor (weighted_average fs) - 1 ≤ RiskScore64._calculate_risk_score how fs
   ∧ RiskScore64._calculate_risk_score how fs
     ≤ Qfloor (weighted_average fs))%Z ∧
  (weighted_average fs == inject_Z (Qfloor (weighted_average fs)) ∨
   (Qfloor (weighted_average fs) ≤ RiskScore64._calculate_risk_score how fs)%Z).
Proof.
  intros Hne Hlen Hgraded.
  assert (Hsev : ∀ f, f ∈ fs → 0 <= severity f)
    by (intros f Hf; by apply graded_nonneg, Hgraded).
  pose proof (total_weight_pos fs Hne) as Htw.
  pose proof (weighted_sum_nonneg fs Hsev) as Hws.
  destruct (sums_tenths fs Hgraded) as (A & B & EA & EB & HA & HB).
  destruct (sums_approx how fs Hsev Hlen) as [Haws Hatw].
  set (ws := weighted_sum fs) in *. set (tw := total_weight fs) in *.
  set (wst := RiskScore64.weighted_sum how fs) in *.
  set (twt := RiskScore64.total_weight how fs) in *.
  assert (Htwt : 0 < twt).
  { destruct Hatw as [H _]. unfold eps in H.
    assert (0 < (1 - 400005 * (1 # 4503599627370496)) * tw); [|lra].
    apply Qmult_lt_0_compat; [reflexivity|done]. }
  assert (Escore : RiskScore64._calculate_risk_score how fs
                   = py_int (fdiv wst twt)).
  { destruct fs as [|f fs]; [done|]. unfold RiskScore64._calculate_risk_score.
    fold twt. destruct (Qlt_le_dec 0 twt); [done|lra]. }
  rewrite Escore. unfold weighted_average. fold ws tw.
  set (avg := ws / tw).
  assert (Havg0 : 0 <= avg) by (apply Qle_shift_div_l; lra).
  assert (Eavg : ws == avg * tw) by (unfold avg; field; lra).
  (* the exact average is at most 100 and keeps clear of the next integer *)
  assert (HB0 : (0 < B)%Z).
  { rewrite Zlt_Qlt. rewrite <- EB. change (inject_Z 0) with 0. lra. }
  assert (Havg100 : avg <= 100).
  { apply Qle_shift_div_r; [done|].
    assert (H : inject_Z A <= inject_Z (100 * B)) by (rewrite <- Zle_Qle; lia).
    rewrite inject_Z_mult, <- EA, <- EB in H. change (inject_Z 100) with 100 in H.
    lra. }
  pose proof (Qfloor_le avg) as Hm1. pose proof (Qlt_floor avg) as Hm2.
  set (m := Qfloor avg) in *.
  rewrite inject_Z_plus in Hm2. change (inject_Z 1) with 1 in Hm2.
  assert (Hgap : 1 <= (inject_Z m + 1 - avg) * 1500000).
  { assert (HAB : (A + 1 ≤ (m + 1) * B)%Z).
    { assert (H : inject_Z A < inject_Z ((m + 1) * B)); [|rewrite <- Zlt_Qlt in H; lia].
      rewrite inject_Z_mult, inject_Z_plus, <- EA, <- EB.
      change (inject_Z 1) with 1. rewrite Eavg.
      assert (avg * tw < (inject_Z m + 1) * tw)
        by (apply Qmult_lt_compat_r; done).
      lra. }
    rewrite Zle_Qle, inject_Z_plus, inject_Z_mult, inject_Z_plus, <- EA, <- EB in HAB.
    change (inject_Z 1) with 1 in HAB. rewrite Eavg in HAB.
    assert (HBn : 10 * tw <= 1500000).
    { rewrite EB. change 1500000 with (inject_Z 1500000). rewrite <- Zle_Qle. lia. }
    assert ((inject_Z m + 1 - avg) * (10 * tw) <= (inject_Z m + 1 - avg) * 1500000).
    { rewrite !(Qmult_comm (inject_Z m + 1 - avg)).
      apply Qmult_le_compat_r; lra. }
    lra. }
  assert (Hlow : avg == inject_Z m ∨ 1 <= (avg - inject_Z m) * 1500000).
  { assert (HBn : 10 * tw <= 1500000).
    { rewrite EB. change 1500000 with (inject_Z 1500000). rewrite <- Zle_Qle. lia. }
    assert (HmB : (m * B ≤ A)%Z).
    { rewrite Zle_Qle, inject_Z_mult, <- EA, <- EB, Eavg.
      assert (inject_Z m * tw <= avg * tw) by (apply Qmult_le_compat_r; lra).
      lra. }
    destruct (decide (A = m * B)%Z) as [E|NE].
    - left. assert (H : (avg - inject_Z m) * tw == 0).
      { assert (H : inject_Z A == inject_Z (m * B)) by (by rewrite E).
        rewrite inject_Z_mult, <- EA, <- EB, Eavg in H. lra. }
      apply Qmult_integral in H as [H|H]; lra.
    - right. assert (HAB : (m * B + 1 ≤ A)%Z) by lia.
      rewrite Zle_Qle, inject_Z_plus, inject_Z_mult, <- EA, <- EB, Eavg in HAB.
      change (inject_Z 1) with 1 in HAB.
      assert ((avg - inject_Z m) * (10 * tw) <= (avg - inject_Z m) * 1500000).
      { rewrite !(Qmult_comm (avg - inject_Z m)).
        apply Qmult_le_compat_r; lra. }
      lra. }
  (* the float quotient *)
  destruct (approx_div (400005 * eps) wst ws twt tw) as [Hq1 Hq2];
    [unfold eps; lra|unfold eps; lra|done|done|exact Haws|exact Hatw|].
  fold avg in Hq1, Hq2.
  assert (Hq0 : 0 <= wst / twt).
  { apply Qle_shift_div_l; [done|].
    assert (0 <= wst); [|lra]. eapply approx_nonneg; [exact Hws| |exact Haws].
    unfold eps. lra. }
  unfold fdiv. destruct (rnd_bounds _ Hq0) as [Hr1 Hr2].
  pose proof (rnd_nonneg _ Hq0) as Hr0.
  unfold eps, u in *.
  rewrite py_int_nonneg by done. split; [split|].
  - apply Qfloor_ge_Z. replace (m - 1)%Z with (m + -1)%Z by lia.
    rewrite inject_Z_plus. change (inject_Z (-1)) with (-1 # 1). lra.
  - apply Z.lt_succ_r, Qfloor_lt_Z. unfold Z.succ. rewrite inject_Z_plus.
    change (inject_Z 1) with 1. lra.
  - destruct Hlow as [Hint|Hfar]; [by left|right].
    apply Qfloor_ge_Z. lra.
Qed.

End RiskScore64Proofs.


Section RiskScoreClaims.
Import RiskAssessment.
Open Scope Q_scope.

(** In exact arithmetic the score is the floor of the weighted average. *)
Lemma exact_score_floor (fs : list RiskFactor) :
  fs ≠ [] → (∀ f, f ∈ fs → 0 <= severity f) →
  _calculate_risk_score fs = Qfloor (weighted_average fs).
Proof.
  intros Hne Hsev. rewrite risk_score_nonempty by done.
  apply py_int_nonneg. unfold weighted_average.
  apply Qdiv_ge.
  - by apply total_weight_pos.
  - rewrite Qmult_0_l. by apply weighted_sum_nonneg.
Qed.

(** The binary64 score against the score of exact arithmetic: the same, or
    one less. *)
Lemma risk_score64_vs_exact (how : RiskScore64.Summation) (fs : list RiskFactor) :
  fs ≠ [] → (Z.of_nat (length fs) ≤ 100000)%Z →
  (∀ f, f ∈ fs → RiskScore64.graded f) →
  (_calculate_risk_score fs - 1 ≤ RiskScore64._calculate_risk_score how fs ∧
   RiskScore64._calculate_risk_score how fs ≤ _calculate_risk_score fs)%Z.
Proof.
  intros Hne Hlen Hgraded. rewrite exact_score_floor; [|done|].
  - by apply (risk_score64_near_floor how fs).
  - intros f Hf. by apply graded_nonneg, Hgraded.
Qed.

(** C2, as stated, fails: three testing factors of severity 2, 2 and 1
    average 5/3; the nearest integer is 2, the score returned is 1. *)
Lemma risk_score_rounding_counterexample :
  let fs := [factor "testing" 2; factor "testing" 2; factor "testing" 1] in
  weighted_average fs == 5 # 3 ∧
  spec_risk_score fs = 2%Z ∧
  RiskScore64._calculate_risk_score RiskScore64.Plain fs = 1%Z ∧
  RiskScore64._calculate_risk_score RiskScore64.Compensated fs = 1%Z.
Proof. vm_compute. split; [reflexivity|]. repeat split. Qed.

(** C2, amended.  For a list of at most 100000 factors whose severities
    are integers in 0-100, the score is the weighted average of the
    severities (weights compliance 1.5, security 1.3, testing 1.0,
    infrastructure 0.8, any other category 1.0) rounded down to an integer,
    the effect of [int()]; only when that average is itself an integer can
    the rounding of the binary64 operations leave the quotient just below
    it, and the score is then the average or one less.  The score is 0 for
    the empty list.  This holds for either way of summing floats. *)
Theorem risk_score_floor_or_one_below (how : RiskScore64.Summation)
  (fs : list RiskFactor) :
  (Z.of_nat (length fs) ≤ 100000)%Z →
  (∀ f, f ∈ fs → RiskScore64.graded f) →
  match fs with
  | [] => RiskScore64._calculate_risk_score how fs = 0%Z
  | _ =>
    RiskScore64._calculate_risk_score how fs = Qfloor (weighted_average fs) ∨
    (weighted_average fs == inject_Z (Qfloor (weighted_average fs)) ∧
     RiskScore64._calculate_risk_score how fs
     = (Qfloor (weighted_average fs) - 1)%Z)
  end.
Proof.
  intros Hlen Hgraded. destruct fs as [|f fs]; [done|].
  destruct (risk_score64_near_floor how (f :: fs)) as [[Hlo Hhi] [Hint|Hfl]];
    [done..| |left; lia].
  destruct (decide (RiskScore64._calculate_risk_score how (f :: fs)
                    = Qfloor (weighted_average (f :: fs)))) as [E|NE];
    [by left|right]. split; [done|lia].
Qed.

Lemma risk_score_floor_or_one_below_witness :
  (Z.of_nat (length [factor "security" 40; factor "compliance" 85;
                     factor "testing" 15]) ≤ 100000)%Z ∧
  (∀ f, f ∈ [factor "security" 40; factor "compliance" 85; factor "testing" 15] →
        RiskScore64.graded f) ∧
  (RiskScore64._calculate_risk_score RiskScore64.Plain
     [factor "security" 40; factor "compliance" 85; factor "testing" 15]
   = Qfloor (weighted_average
       [factor "security" 40; factor "compliance" 85; factor "testing" 15]) ∨
   (weighted_average
      [factor "security" 40; factor "compliance" 85; factor "testing" 15]
    == inject_Z (Qfloor (weighted_average
         [factor "security" 40; factor "compliance" 85; factor "testing" 15])) ∧
    RiskScore64._calculate_risk_score RiskScore64.Plain
      [factor "security" 40; factor "compliance" 85; factor "testing" 15]
    = (Qfloor (weighted_average
         [factor "security" 40; factor "compliance" 85; factor "testing" 15]) - 1)%Z)).
Proof.
  assert (H1 : (Z.of_nat (length [factor "security" 40; factor "compliance" 85;
                                  factor "testing" 15]) ≤ 100000)%Z)
    by (simpl; lia).
  assert (H2 : ∀ f, f ∈ [factor "security" 40; factor "compliance" 85;
                         factor "testing" 15] → RiskScore64.graded f).
  { intros f Hf. repeat (apply elem_of_cons in Hf as [->|Hf]);
      [exists 40%Z|exists 85%Z|exists 15%Z|by apply elem_of_nil in Hf];
      (split; [lia|reflexivity]). }
  split; [exact H1|]. split; [exact H2|].
  exact (risk_score_floor_or_one_below RiskScore64.Plain
           [factor "security" 40; factor "compliance" 85; factor "testing" 15]
           H1 H2).
Defined.

(** Both cases occur.  Three factors whose quotient is not near an integer
    score the floor of their average; one security factor of severity 7
    scores 6 and one infrastructure factor of severity 43 scores 42, the
    binary64 quotients [7 * 1.3 / 1.3] and [43 * 0.8 / 0.8] lying just
    below 7 and 43. *)
Example risk_score_binary64_cases :
  RiskScore64._calculate_risk_score RiskScore64.Plain
    [factor "security" 40; factor "compliance" 85; factor "testing" 15] = 51%Z ∧
  Qfloor (weighted_average
    [factor "security" 40; factor "compliance" 85; factor "testing" 15]) = 51%Z ∧
  RiskScore64._calculate_risk_score RiskScore64.Plain [factor "security" 7] = 6%Z ∧
  RiskScore64._calculate_risk_score RiskScore64.Compensated [factor "security" 7]
  = 6%Z ∧
  Qfloor (weighted_average [factor "security" 7]) = 7%Z ∧
  RiskScore64._calculate_risk_score RiskScore64.Plain
    [factor "infrastructure" 43] = 42%Z ∧
  Qfloor (weighted_average [factor "infrastructure" 43]) = 43%Z.
Proof. vm_compute. repeat split. Qed.

Example risk_score_three_factors :
  _calculate_risk_score
    [factor "security" 40; factor "compliance" 85; factor "testing" 15] = 51%Z.
Proof. vm_compute. reflexivity. Qed.



(** C9, as stated, fails: one factor of severity 0 is a non-empty list
    with severities in 0–100, and its score is 0. *)
Lemma risk_score_zero_counterexample :
  let fs := [factor "testing" 0] in
  (∀ f, f ∈ fs → 0 <= severity f ∧ severity f <= 100) ∧
  _calculate_risk_score fs = 0%Z ∧
  fs ≠ [].
Proof.
  simpl. split; [|split; [vm_compute; reflexivity|done]].
  intros f Hf. apply list_elem_of_singleton in Hf as ->. simpl. lra.
Qed.

(** C9, amended.  For factor lists whose severities are at least 1, the
    score is 0 if and only if the list is empty. *)
Theorem risk_score_zero_iff_empty (fs : list RiskFactor) :
  (∀ f, f ∈ fs → 1 <= severity f) →
  _calculate_risk_score fs = 0%Z ↔ fs = [].
Proof.
  intros Hsev. split; [|by intros ->].
  intros Hz. destruct fs as [|f fs]; [done|]. exfalso.
  rewrite risk_score_nonempty in Hz by done.
  assert (1 ≤ py_int (weighted_average (f :: fs)))%Z; [|lia].
  apply py_int_ge; [|lia]. unfold weighted_average.
  apply Qdiv_ge; [by apply total_weight_pos|].
  by apply weighted_sum_lower.
Qed.

Lemma risk_score_zero_iff_empty_witness :
  (∀ f, f ∈ [factor "infrastructure" 1; factor "testing" 1] → 1 <= severity f) ∧
  (_calculate_risk_score [factor "infrastructure" 1; factor "testing" 1] = 0%Z ↔
   [factor "infrastructure" 1; factor "testing" 1] = []).
Proof.
  assert (H : ∀ f, f ∈ [factor "infrastructure" 1; factor "testing" 1] →
                   1 <= severity f).
  { intros f Hf. repeat (apply elem_of_cons in Hf as [->|Hf]);
      [simpl; lra..|by apply elem_of_nil in Hf]. }
  split; [exact H|].
  exact (risk_score_zero_iff_empty
           [factor "infrastructure" 1; factor "testing" 1] H).
Defined.

End RiskScoreClaims.

(** * Properties of [assess] *)

Section AssessProofs.
Import RiskAssessment.
Open Scope Q_scope.

Lemma weight_compliance n s d m : weight_of (mkRiskFactor n s "compliance" d m) = 1.5.
Proof. reflexivity. Qed.

Lemma weight_security n s d m : weight_of (mkRiskFactor n s "security" d m) = 1.3.
Proof. reflexivity. Qed.

Lemma weight_testing n s d m : weight_of (mkRiskFactor n s "testing" d m) = 1.0.
Proof. reflexivity. Qed.

Lemma weight_infrastructure n s d m :
  weight_of (mkRiskFactor n s "infrastructure" d m) = 0.8.
Proof. reflexivity. Qed.

Lemma excess_nil : excess [] == 0.
Proof. reflexivity. Qed.

Lemma excess_app (fs gs : list RiskFactor) :
  excess (fs ++ gs) == excess fs + excess gs.
Proof. unfold excess. rewrite weighted_sum_app, total_weight_app. lra. Qed.

Lemma excess_append (fs : list RiskFactor) n s c d m :
  excess (append fs (mkRiskFactor n s c d m)) ==
  excess fs + weight_of (mkRiskFactor n s c d m) * (s - 30).
Proof.
  unfold append. rewrite excess_app. unfold excess at 2.
  rewrite weighted_sum_cons, total_weight_cons.
  unfold weighted_sum, total_weight. simpl map. rewrite py_sum_nil.
  simpl severity. lra.
Qed.

(** The score reaches 30 as soon as the excess is non-negative. *)
Lemma excess_nonneg_score (fs : list RiskFactor) :
  fs ≠ [] → 0 <= excess fs → (30 ≤ _calculate_risk_score fs)%Z.
Proof.
  intros Hne Hex. rewrite risk_score_nonempty by done.
  apply py_int_ge; [|lia]. unfold weighted_average.
  apply Qdiv_ge; [by apply total_weight_pos|].
  unfold excess in Hex. change (inject_Z 30) with 30. lra.
Qed.

Ltac excess_simpl :=
  rewrite ?excess_append, ?excess_nil,
    ?weight_compliance, ?weight_security, ?weight_testing, ?weight_infrastructure.

(** ** Severity floors of the four evaluators *)

Lemma vulnerability_severity_floor (v : Z) :
  (0 < v)%Z → 10 <= inject_Z (Z.min 50 (v * 10)).
Proof.
  intros Hv. change 10 with (inject_Z 10). rewrite <- Zle_Qle. lia.
Qed.

Lemma coverage_severity_floor (c : Q) : c < 70 → 15 <= py_floordiv (100 - c) 2.
Proof.
  intros Hc. unfold py_floordiv. change 15 with (inject_Z 15).
  rewrite <- Zle_Qle. rewrite <- (Qfloor_Z 15). apply Qfloor_resp_le.
  change (inject_Z 15) with 15. apply Qdiv_ge; lra.
Qed.

Lemma regression_severity_floor (p : Q) : 5 < p → 10 <= py_min 50 (p * 2).
Proof. intros Hp. unfold py_min. destruct (Qlt_le_dec (p * 2) 50); lra. Qed.

Lemma security_excess (self : SecurityEvaluator.t) (service version : string) :
  -26 <= excess (SecurityEvaluator.evaluate self service version).
Proof.
  unfold SecurityEvaluator.evaluate. cbv zeta.
  set (scan := default _ _).
  destruct (0 <? get (vulnerability_count scan) 0)%Z eqn:Hv;
    [apply Z.ltb_lt, vulnerability_severity_floor in Hv|];
    destruct (get (cert_expires_in_days scan) 365 <? 30)%Z;
    destruct (get (secrets_detected scan) false);
    excess_simpl; lra.
Qed.

Lemma testing_excess (self : TestingEvaluator.t) (service version : string) :
  -35 <= excess (TestingEvaluator.evaluate self service version).
Proof.
  unfold TestingEvaluator.evaluate. cbv zeta.
  set (results := default _ _).
  destruct (Qlt_le_dec (get (code_coverage results) 0) 70) as [Hc|_];
    [apply coverage_severity_floor in Hc|];
    destruct (0 <? get (failed_tests results) 0)%Z;
    (destruct (Qlt_le_dec 5 (get (performance_regression_percent results) 0))
       as [Hp|_]; [apply regression_severity_floor in Hp|]);
    excess_simpl; lra.
Qed.

Lemma infrastructure_excess (self : InfrastructureEvaluator.t)
  (service version : string) :
  -16 <= excess (InfrastructureEvaluator.evaluate self service version).
Proof.
  unfold InfrastructureEvaluator.evaluate. cbv zeta.
  set (status := default _ _).
  destruct (Qlt_le_dec (get (cluster_health status) 100) 80) as [Hh|_];
    destruct (Qlt_le_dec 85 (get (disk_usage_percent status) 0));
    destruct (5 <? get (deployments_in_queue status) 0)%Z;
    excess_simpl; lra.
Qed.

Ltac factor_cases Hf :=
  unfold append in Hf; simpl in Hf;
  repeat (apply elem_of_cons in Hf as [->|Hf]);
  try (by apply elem_of_nil in Hf).

(** A compliance factor of severity 70 or more is "Change Not Approved"
    (100) or "Data Residency Violation" (85); either lifts the excess of
    the compliance factors to 82.5 at least. *)
Lemma compliance_excess (self : ComplianceEvaluator.t) (now : datetime)
  (service version environment : string) (f : RiskFactor) :
  f ∈ ComplianceEvaluator.evaluate self now service version environment →
  70 <= severity f →
  82.5 <= excess (ComplianceEvaluator.evaluate self now service version environment).
Proof.
  unfold ComplianceEvaluator.evaluate. cbv zeta.
  set (pol := get (policies _) _).
  destruct (negb (get (change_approved (ComplianceEvaluator.compliance_db self)) false));
    destruct (decide (environment = "production"));
    try destruct (decide (hour now ∈ get (restricted_deployment_windows pol) []));
    destruct (get (data_residency_required pol) false);
    try destruct (negb (get (deployment_in_correct_region
                               (ComplianceEvaluator.compliance_db self)) true));
    intros Hf Hs; excess_simpl; try lra;
    exfalso; factor_cases Hf; cbn [severity] in Hs; lra.
Qed.

Lemma security_category (self : SecurityEvaluator.t) (service version : string)
  (f : RiskFactor) :
  f ∈ SecurityEvaluator.evaluate self service version → category f = "security".
Proof.
  unfold SecurityEvaluator.evaluate. cbv zeta.
  set (scan := default _ _).
  destruct (0 <? get (vulnerability_count scan) 0)%Z;
    destruct (get (cert_expires_in_days scan) 365 <? 30)%Z;
    destruct (get (secrets_detected scan) false);
    intros Hf; factor_cases Hf; reflexivity.
Qed.

Lemma testing_category (self : TestingEvaluator.t) (service version : string)
  (f : RiskFactor) :
  f ∈ TestingEvaluator.evaluate self service version → category f = "testing".
Proof.
  unfold TestingEvaluator.evaluate. cbv zeta.
  set (results := default _ _).
  destruct (Qlt_le_dec (get (code_coverage results) 0) 70);
    destruct (0 <? get (failed_tests results) 0)%Z;
    destruct (Qlt_le_dec 5 (get (performance_regression_percent results) 0));
    intros Hf; factor_cases Hf; reflexivity.
Qed.

Lemma infrastructure_category (self : InfrastructureEvaluator.t)
  (service version : string) (f : RiskFactor) :
  f ∈ InfrastructureEvaluator.evaluate self service version →
  category f = "infrastructure".
Proof.
  unfold InfrastructureEvaluator.evaluate. cbv zeta.
  set (status := default _ _).
  destruct (Qlt_le_dec (get (cluster_health status) 100) 80);
    destruct (Qlt_le_dec 85 (get (disk_usage_percent status) 0));
    destruct (5 <? get (deployments_in_queue status) 0)%Z;
    intros Hf; factor_cases Hf; reflexivity.
Qed.

(** Sorting keeps the factors. *)
Lemma elem_of_insert_desc (x g : RiskFactor) (l : list RiskFactor) :
  g ∈ insert_desc x l ↔ g = x ∨ g ∈ l.
Proof.
  induction l as [|y l IH]; simpl.
  - rewrite list_elem_of_singleton, elem_of_nil. tauto.
  - destruct (Qlt_le_dec (severity x) (severity y)).
    + rewrite !elem_of_cons, IH. tauto.
    + rewrite !elem_of_cons. tauto.
Qed.

Lemma elem_of_sorted_by_severity_desc (g : RiskFactor) (l : list RiskFactor) :
  g ∈ sorted_by_severity_desc l ↔ g ∈ l.
Proof.
  induction l as [|x l IH]; simpl; [done|].
  rewrite elem_of_insert_desc, elem_of_cons, IH. tauto.
Qed.

(** Any blocking compliance factor among the collected factors keeps the
    score at 30 or above. *)
Lemma blocking_compliance_score (self : RiskAssessmentAgent)
  (context : DeploymentContext) (now_window : datetime) (f : RiskFactor) :
  f ∈ all_factors_of self context now_window →
  blocking_compliance f →
  (30 ≤ _calculate_risk_score (all_factors_of self context now_window))%Z.
Proof.
  intros Hf [Hcat Hsev].
  apply excess_nonneg_score.
  { intros Hnil. rewrite Hnil in Hf. by apply elem_of_nil in Hf. }
  unfold all_factors_of in *. cbv zeta in *. simpl app in *.
  rewrite !elem_of_app in Hf.
  assert (Hc : f ∈ ComplianceEvaluator.evaluate (compliance_evaluator self)
                 now_window (service_name context) (version context)
                 (environment context)).
  { destruct Hf as [[[Hf|Hf]|Hf]|Hf]; [| |done|].
    - apply security_category in Hf. congruence.
    - apply testing_category in Hf. congruence.
    - apply infrastructure_category in Hf. congruence. }
  rewrite !excess_app.
  pose proof (security_excess (security_evaluator self)
                (service_name context) (version context)).
  pose proof (testing_excess (testing_evaluator self)
                (service_name context) (version context)).
  pose proof (infrastructure_excess (infrastructure_evaluator self)
                (service_name context) (version context)).
  pose proof (compliance_excess _ _ _ _ _ f Hc Hsev).
  lra.
Qed.

End AssessProofs.

Section AssessClaims.
Import RiskAssessment.
Open Scope Q_scope.

(** C3.  Whenever the factors reported by [assess] include a compliance
    factor of CRITICAL severity (70 or more: "Change Not Approved" at 100,
    "Data Residency Violation" at 85), the report's [autonomous_decision]
    is false.  The flag is computed as [risk_score < 30] only; the severity
    floors of the evaluators keep the score of such an assessment at 30 or
    above. *)
Theorem critical_compliance_blocks_autonomous (self : RiskAssessmentAgent)
  (context : DeploymentContext) (now_window now_report : datetime) :
  (∃ f, f ∈ factors (assess self context now_window now_report).1 ∧
        blocking_compliance f) →
  autonomous_decision (assess self context now_window now_report).1 = false.
Proof.
  intros (f & Hf & Hblock).
  unfold assess in *. cbn [fst factors autonomous_decision] in *.
  rewrite elem_of_sorted_by_severity_desc in Hf.
  apply Z.ltb_ge.
  exact (blocking_compliance_score self context now_window f Hf Hblock).
Qed.

Lemma critical_compliance_blocks_autonomous_witness :
  (∃ f, f ∈ factors (assess unapproved_agent payment_context
                       (mkDatetime "2024-01-01T12:00:00" 12)
                       (mkDatetime "2024-01-01T12:00:01" 12)).1 ∧
        blocking_compliance f) ∧
  autonomous_decision (assess unapproved_agent payment_context
                         (mkDatetime "2024-01-01T12:00:00" 12)
                         (mkDatetime "2024-01-01T12:00:01" 12)).1 = false.
Proof.
  assert (H : ∃ f, f ∈ factors (assess unapproved_agent payment_context
                       (mkDatetime "2024-01-01T12:00:00" 12)
                       (mkDatetime "2024-01-01T12:00:01" 12)).1 ∧
                   blocking_compliance f).
  { exists (mkRiskFactor "Change Not Approved" 100 "compliance"
              [Lit "Release not approved by change management board"]
              (Some "Submit and obtain change approval")).
    split; [vm_compute; left|]. split; [reflexivity|]. simpl. lra. }
  split; [exact H|].
  exact (critical_compliance_blocks_autonomous unapproved_agent payment_context
           (mkDatetime "2024-01-01T12:00:00" 12)
           (mkDatetime "2024-01-01T12:00:01" 12) H).
Defined.

Example assess_unapproved_score :
  risk_score (assess unapproved_agent payment_context
                (mkDatetime "2024-01-01T12:00:00" 12)
                (mkDatetime "2024-01-01T12:00:01" 12)).1 = 34%Z.
Proof. vm_compute. reflexivity. Qed.

End AssessClaims.

(** * Further properties of the risk reports *)

Ltac member_cases Hf :=
  unfold append in Hf; simpl in Hf;
  repeat (apply elem_of_cons in Hf as [->|Hf]);
  try (by apply elem_of_nil in Hf).

Section RiskExtraProofs.
Import RiskAssessment RiskReports.
Open Scope Q_scope.

Lemma py_int_Z (n : Z) : py_int (inject_Z n) = n.
Proof.
  unfold py_int. destruct (Qlt_le_dec (inject_Z n) 0).
  - apply Qceiling_Z.
  - apply Qfloor_Z.
Qed.

Lemma weighted_sum_upper (fs : list RiskFactor) (b : Q) :
  (∀ f, f ∈ fs → severity f <= b) → weighted_sum fs <= b * total_weight fs.
Proof.
  induction fs as [|f fs IH]; intros Hsev.
  - unfold weighted_sum, total_weight. simpl. rewrite py_sum_nil. lra.
  - rewrite weighted_sum_cons, total_weight_cons.
    assert (severity f <= b) by (apply Hsev; left).
    assert (weighted_sum fs <= b * total_weight fs)
      by (apply IH; intros g Hg; apply Hsev; by right).
    pose proof (weight_of_pos f). nra.
Qed.

Lemma Qdiv_le_upper (a c n : Q) : 0 < c → a <= n * c → a / c <= n.
Proof. intros Hc H. apply Qle_shift_div_r; done. Qed.

(** ** Sorting *)

Lemma insert_desc_Permutation (x : RiskFactor) (l : list RiskFactor) :
  insert_desc x l ≡ₚ x :: l.
Proof.
  induction l as [|y l IH]; simpl; [done|].
  destruct (Qlt_le_dec (severity x) (severity y)); [|done].
  rewrite IH. apply Permutation_swap.
Qed.

Lemma sorted_by_severity_desc_Permutation (l : list RiskFactor) :
  sorted_by_severity_desc l ≡ₚ l.
Proof.
  induction l as [|x l IH]; simpl; [done|].
  rewrite insert_desc_Permutation. by rewrite IH.
Qed.

Lemma insert_desc_sorted (x : RiskFactor) (l : list RiskFactor) :
  StronglySorted severity_desc l → StronglySorted severity_desc (insert_desc x l).
Proof.
  induction l as [|y l IH]; intros Hs; simpl.
  - repeat constructor.
  - apply StronglySorted_inv in Hs as [Hl Hy].
    destruct (Qlt_le_dec (severity x) (severity y)) as [Hlt|Hle].
    + constructor; [by apply IH|].
      apply Forall_forall. intros z Hz.
      apply elem_of_insert_desc in Hz as [->|Hz].
      * unfold severity_desc. lra.
      * by apply (proj1 (Forall_forall _ _) Hy).
    + constructor; [by constructor|].
      constructor; [exact Hle|].
      apply Forall_forall. intros z Hz.
      pose proof (proj1 (Forall_forall _ _) Hy z Hz) as Hzy.
      unfold severity_desc in *. lra.
Qed.

Lemma sorted_by_severity_desc_sorted (l : list RiskFactor) :
  StronglySorted severity_desc (sorted_by_severity_desc l).
Proof.
  induction l as [|x l IH]; simpl; [constructor|]. by apply insert_desc_sorted.
Qed.

(** Inserting keeps the factors of one severity in their order, the new
    one first. *)
Lemma insert_desc_filter (v : Q) (x : RiskFactor) (l : list RiskFactor) :
  filter (λ f, severity f == v) (insert_desc x l)
  = filter (λ f, severity f == v) (x :: l).
Proof.
  induction l as [|y l IH]; simpl; [done|].
  destruct (Qlt_le_dec (severity x) (severity y)) as [Hlt|Hle]; [|done].
  rewrite filter_cons, IH, !filter_cons.
  destruct (decide (severity y == v)) as [Hy|Hy];
    destruct (decide (severity x == v)) as [Hx|Hx]; try done.
  exfalso. rewrite Hy, Hx in Hlt. by apply Qlt_irrefl in Hlt.
Qed.

Lemma sorted_by_severity_desc_stable (v : Q) (l : list RiskFactor) :
  filter (λ f, severity f == v) (sorted_by_severity_desc l)
  = filter (λ f, severity f == v) l.
Proof.
  induction l as [|x l IH]; simpl; [done|].
  rewrite insert_desc_filter, !filter_cons, IH. done.
Qed.

(** ** Grouping by category *)

Lemma categorize_lookup_acc (fs : list RiskFactor) (c : string)
  (acc : gmap string (list CategorizedFactor)) :
  fold_left
    (λ categorized factor,
       let categorized :=
         match categorized !! category factor with
         | None => <[category factor := []]> categorized
         | Some _ => categorized
         end in
       <[category factor :=
           append (default [] (categorized !! category factor))
                  (mkCategorizedFactor (name factor) (severity factor))]>
         categorized)
    fs acc !! c
  = match acc !! c, categorized <$> filter (λ f, category f = c) fs with
    | Some old, new => Some (old ++ new)%list
    | None, [] => None
    | None, new => Some new
    end.
Proof.
  revert acc. induction fs as [|f fs IH]; intros acc; simpl.
  - destruct (acc !! c); [by rewrite app_nil_r|done].
  - rewrite IH. rewrite filter_cons.
    destruct (decide (category f = c)) as [<-|Hne].
    + rewrite lookup_insert_eq. simpl.
      destruct (acc !! category f) as [old|] eqn:E.
      * rewrite E. simpl. unfold append. by rewrite <- app_assoc.
      * rewrite lookup_insert_eq. simpl. done.
    + rewrite lookup_insert_ne by done.
      destruct (acc !! category f) as [old|] eqn:E.
      * done.
      * by rewrite lookup_insert_ne.
Qed.

(** ** Severity floors *)


Lemma security_floor (self : SecurityEvaluator.t) (service version : string)
  (f : RiskFactor) :
  f ∈ SecurityEvaluator.evaluate self service version →
  10 <= severity f ∧ severity f <= 100.
Proof.
  unfold SecurityEvaluator.evaluate. cbv zeta.
  set (scan := default _ _).
  destruct (0 <? get (vulnerability_count scan) 0)%Z eqn:Hv;
    [apply Z.ltb_lt in Hv|];
    destruct (get (cert_expires_in_days scan) 365 <? 30)%Z;
    destruct (get (secrets_detected scan) false);
    intros Hf; member_cases Hf; cbn [severity]; try lra;
    (split; [by apply vulnerability_severity_floor|]);
    change 100 with (inject_Z 100); rewrite <- Zle_Qle; lia.
Qed.

Lemma testing_floor (self : TestingEvaluator.t) (service version : string)
  (f : RiskFactor) :
  f ∈ TestingEvaluator.evaluate self service version →
  10 <= severity f.
Proof.
  unfold TestingEvaluator.evaluate. cbv zeta.
  set (results := default _ _).
  destruct (Qlt_le_dec (get (code_coverage results) 0) 70) as [Hc|_];
    [apply coverage_severity_floor in Hc|];
    destruct (0 <? get (failed_tests results) 0)%Z;
    (destruct (Qlt_le_dec 5 (get (performance_regression_percent results) 0))
       as [Hp|_]; [apply regression_severity_floor in Hp|]);
    intros Hf; member_cases Hf; cbn [severity]; lra.
Qed.

Lemma compliance_floor (self : ComplianceEvaluator.t) (now : datetime)
  (service version environment : string) (f : RiskFactor) :
  f ∈ ComplianceEvaluator.evaluate self now service version environment →
  10 <= severity f ∧ severity f <= 100.
Proof.
  unfold ComplianceEvaluator.evaluate. cbv zeta.
  set (pol := get (policies _) _).
  destruct (negb (get (change_approved (ComplianceEvaluator.compliance_db self)) false));
    destruct (decide (environment = "production"));
    try destruct (decide (hour now ∈ get (restricted_deployment_windows pol) []));
    destruct (get (data_residency_required pol) false);
    try destruct (negb (get (deployment_in_correct_region
                               (ComplianceEvaluator.compliance_db self)) true));
    intros Hf; member_cases Hf; cbn [severity]; lra.
Qed.

Lemma infrastructure_floor (self : InfrastructureEvaluator.t)
  (service version : string) (f : RiskFactor) :
  f ∈ InfrastructureEvaluator.evaluate self service version →
  10 <= severity f.
Proof.
  unfold InfrastructureEvaluator.evaluate. cbv zeta.
  set (status := default _ _).
  destruct (Qlt_le_dec (get (cluster_health status) 100) 80) as [Hh|_];
    destruct (Qlt_le_dec 85 (get (disk_usage_percent status) 0));
    destruct (5 <? get (deployments_in_queue status) 0)%Z;
    intros Hf; member_cases Hf; cbn [severity]; lra.
Qed.

Lemma all_factors_floor (self : RiskAssessmentAgent) (context : DeploymentContext)
  (now_window : datetime) (f : RiskFactor) :
  f ∈ all_factors_of self context now_window → 10 <= severity f.
Proof.
  unfold all_factors_of. cbv zeta. simpl app. rewrite !elem_of_app.
  intros [[[Hf|Hf]|Hf]|Hf].
  - by apply security_floor in Hf as [? _].
  - by apply testing_floor in Hf.
  - by apply compliance_floor in Hf as [? _].
  - by apply infrastructure_floor in Hf.
Qed.

End RiskExtraProofs.

Section RiskExtraTheorems.
Import RiskAssessment RiskReports.
Open Scope Q_scope.

Lemma risk_score_lower (fs : list RiskFactor) (lo : Z) :
  fs ≠ [] → (∀ f, f ∈ fs → inject_Z lo <= severity f) →
  (lo ≤ _calculate_risk_score fs)%Z.
Proof.
  intros Hne Hsev. rewrite risk_score_nonempty by done.
  pose proof (total_weight_pos fs Hne) as Hpos.
  assert (H : (py_int (inject_Z lo) ≤ py_int (weighted_average fs))%Z).
  { apply py_int_mono, Qdiv_ge; [done|]. by apply weighted_sum_lower. }
  by rewrite py_int_Z in H.
Qed.

Lemma risk_score_upper (fs : list RiskFactor) (hi : Z) :
  fs ≠ [] → (∀ f, f ∈ fs → severity f <= inject_Z hi) →
  (_calculate_risk_score fs ≤ hi)%Z.
Proof.
  intros Hne Hsev. rewrite risk_score_nonempty by done.
  pose proof (total_weight_pos fs Hne) as Hpos.
  assert (H : (py_int (weighted_average fs) ≤ py_int (inject_Z hi))%Z).
  { apply py_int_mono, Qdiv_le_upper; [done|]. by apply weighted_sum_upper. }
  by rewrite py_int_Z in H.
Qed.

(** X5.  The composite score of a non-empty list of at most 100000 factors
    with integer severities in 0-100 is at most the largest severity and
    at least the smallest severity minus one: the binary64 quotient can
    fall just below the smallest severity (one security factor of severity
    7 scores 6), it never exceeds the largest. *)
Theorem risk_score_within_bounds (how : RiskScore64.Summation)
  (fs : list RiskFactor) (lo hi : Z) :
  fs ≠ [] →
  (Z.of_nat (length fs) ≤ 100000)%Z →
  (∀ f, f ∈ fs → RiskScore64.graded f ∧
                 inject_Z lo <= severity f ∧ severity f <= inject_Z hi) →
  (lo - 1 ≤ RiskScore64._calculate_risk_score how fs ∧
   RiskScore64._calculate_risk_score how fs ≤ hi)%Z.
Proof.
  intros Hne Hlen Hsev.
  destruct (risk_score64_vs_exact how fs) as [Hlo Hhi]; [done|done| |].
  { intros f Hf. by apply Hsev. }
  pose proof (risk_score_lower fs lo Hne) as H1.
  pose proof (risk_score_upper fs hi Hne) as H2.
  split.
  - etrans; [|exact Hlo]. apply Z.sub_le_mono_r, H1. intros f Hf. by apply Hsev.
  - etrans; [exact Hhi|]. apply H2. intros f Hf. by apply Hsev.
Qed.

Lemma risk_score_within_bounds_witness :
  [factor "security" 40; factor "compliance" 85; factor "testing" 15] ≠ [] ∧
  (Z.of_nat (length [factor "security" 40; factor "compliance" 85;
                     factor "testing" 15]) ≤ 100000)%Z ∧
  (∀ f, f ∈ [factor "security" 40; factor "compliance" 85; factor "testing" 15] →
        RiskScore64.graded f ∧
        inject_Z 15 <= severity f ∧ severity f <= inject_Z 85) ∧
  (15 - 1 ≤ RiskScore64._calculate_risk_score RiskScore64.Plain
              [factor "security" 40; factor "compliance" 85; factor "testing" 15] ∧
   RiskScore64._calculate_risk_score RiskScore64.Plain
     [factor "security" 40; factor "compliance" 85; factor "testing" 15] ≤ 85)%Z.
Proof.
  assert (H1 : [factor "security" 40; factor "compliance" 85; factor "testing" 15]
               ≠ []) by done.
  assert (H2 : (Z.of_nat (length [factor "security" 40; factor "compliance" 85;
                                  factor "testing" 15]) ≤ 100000)%Z)
    by (simpl; lia).
  assert (H3 : ∀ f, f ∈ [factor "security" 40; factor "compliance" 85;
                         factor "testing" 15] →
                    RiskScore64.graded f ∧
                    inject_Z 15 <= severity f ∧ severity f <= inject_Z 85).
  { intros f Hf. repeat (apply elem_of_cons in Hf as [->|Hf]);
      [split; [exists 40%Z|]|split; [exists 85%Z|]|split; [exists 15%Z|]
      |by apply elem_of_nil in Hf];
      try (split; [lia|reflexivity]); split; vm_compute; discriminate. }
  split; [exact H1|]. split; [exact H2|]. split; [exact H3|].
  exact (risk_score_within_bounds RiskScore64.Plain _ 15 85 H1 H2 H3).
Defined.

(** The lower bound cannot be raised: a single security factor of severity
    7 lies within the bounds 7 and 7 and scores 6. *)
Example risk_score_below_smallest_severity :
  RiskScore64._calculate_risk_score RiskScore64.Plain [factor "security" 7] = 6%Z.
Proof. vm_compute. reflexivity. Qed.

(** X6.  In every report of [assess] the level, the recommendation and the
    autonomous-approval flag agree: each level goes with its own
    recommendation text, a LOW report is always approved autonomously, an
    autonomously approved report is LOW or MEDIUM, and a HIGH or CRITICAL
    report never is. *)
Theorem assess_report_consistent (self : RiskAssessmentAgent)
  (context : DeploymentContext) (now_window now_report : datetime) :
  let r := (assess self context now_window now_report).1 in
  (risk_level r = "LOW" ↔
   recommendation r = "✓ APPROVED: Deploy immediately. All systems green.") ∧
  (risk_level r = "MEDIUM" ↔
   recommendation r
   = "⚠ CONDITIONAL: Deploy with caution. Review mitigations below.") ∧
  (risk_level r = "HIGH" ↔
   recommendation r
   = "🛑 MANUAL REVIEW REQUIRED: Address critical factors before deployment.") ∧
  (risk_level r = "CRITICAL" ↔
   recommendation r
   = "❌ BLOCKED: Critical issues detected. Do not proceed without resolution.") ∧
  (risk_level r = "LOW" → autonomous_decision r = true) ∧
  (autonomous_decision r = true → risk_level r = "LOW" ∨ risk_level r = "MEDIUM").
Proof.
  unfold assess. cbn [fst risk_level recommendation autonomous_decision].
  generalize (_calculate_risk_score (all_factors_of self context now_window)).
  intros z. unfold _classify_risk_level, _generate_recommendation.
  destruct (z <? 20)%Z eqn:H20; [|destruct (z <? 45)%Z eqn:H45;
    [|destruct (z <? 70)%Z eqn:H70]]; cbn [RiskLevel_name];
    repeat match goal with
           | H : (_ <? _)%Z = true |- _ => apply Z.ltb_lt in H
           | H : (_ <? _)%Z = false |- _ => apply Z.ltb_ge in H
           end;
    repeat (split; [split; intros H; first [reflexivity|discriminate H]|]);
    (split; [intros H; first [discriminate H|apply Z.ltb_lt; lia]
            |intros H; apply Z.ltb_lt in H;
             first [by left|by right|lia]]).
Qed.

(** X7.  The score of a report is 0 exactly when no factor was raised;
    otherwise it is at least 10, since no evaluator emits a severity below
    10. *)
Theorem assess_score_zero_iff_no_factor (self : RiskAssessmentAgent)
  (context : DeploymentContext) (now_window now_report : datetime) :
  let r := (assess self context now_window now_report).1 in
  (risk_score r = 0%Z ↔ factors r = []) ∧
  (risk_score r = 0%Z ∨ 10 ≤ risk_score r)%Z.
Proof.
  unfold assess. cbn [fst risk_score factors].
  assert (Hsorted : sorted_by_severity_desc (all_factors_of self context now_window)
                    = [] ↔ all_factors_of self context now_window = []).
  { split; [|by intros ->]. intros Hnil.
    apply Permutation_nil_r. rewrite <- Hnil.
    by rewrite sorted_by_severity_desc_Permutation. }
  rewrite Hsorted.
  destruct (all_factors_of self context now_window) as [|f fs] eqn:E.
  { split; [done|by left]. }
  assert (H10 : (10 ≤ _calculate_risk_score (f :: fs))%Z).
  { apply risk_score_lower; [done|].
    intros g Hg. rewrite <- E in Hg. by apply all_factors_floor in Hg. }
  split; [|by right]. split; [lia|done].
Qed.

(** X8.  The factors of a report are the collected factors in a stable
    descending order of severity: the same factors with the same
    multiplicities, every factor at least as severe as those after it, and
    factors of equal severity in the order the evaluators raised them. *)
Theorem assess_factors_sorted (self : RiskAssessmentAgent)
  (context : DeploymentContext) (now_window now_report : datetime) :
  let r := (assess self context now_window now_report).1 in
  factors r ≡ₚ all_factors_of self context now_window ∧
  StronglySorted severity_desc (factors r) ∧
  ∀ v, filter (λ f, severity f == v) (factors r)
       = filter (λ f, severity f == v) (all_factors_of self context now_window).
Proof.
  unfold assess. cbn [fst factors]. split; [|split].
  - apply sorted_by_severity_desc_Permutation.
  - apply sorted_by_severity_desc_sorted.
  - intros v. apply sorted_by_severity_desc_stable.
Qed.

(** X9.  [_categorize_factors] groups by category without losing or
    reordering anything: a category that no factor has is absent, and any
    other category maps to the name and severity of exactly its factors, in
    their order in the list. *)
Theorem categorize_factors_lookup (fs : list RiskFactor) (c : string) :
  _categorize_factors fs !! c =
  match categorized <$> filter (λ f, category f = c) fs with
  | [] => None
  | group => Some group
  end.
Proof.
  unfold _categorize_factors. rewrite categorize_lookup_acc, lookup_empty. done.
Qed.

(** X10.  When the code coverage and the cluster health read for the
    service are not negative, every severity in the report lies in 10–100
    and the score lies in 0–100. *)
Theorem assess_severities_in_range (self : RiskAssessmentAgent)
  (context : DeploymentContext) (now_window now_report : datetime) :
  0 <= get (code_coverage (test_results_of self context)) 0 →
  0 <= get (cluster_health (infra_status_of self context)) 100 →
  let r := (assess self context now_window now_report).1 in
  (∀ f, f ∈ factors r → 10 <= severity f ∧ severity f <= 100) ∧
  (0 ≤ risk_score r ∧ risk_score r ≤ 100)%Z.
Proof.
  intros Hcov Hhealth. unfold assess. cbn [fst factors risk_score].
  assert (Hall : ∀ f, f ∈ all_factors_of self context now_window →
                      10 <= severity f ∧ severity f <= 100).
  { intros f Hf. split; [by apply all_factors_floor in Hf|].
    unfold all_factors_of in Hf. cbv zeta in Hf. simpl app in Hf.
    rewrite !elem_of_app in Hf. destruct Hf as [[[Hf|Hf]|Hf]|Hf].
    - by apply security_floor in Hf as [_ ?].
    - revert Hf. unfold TestingEvaluator.evaluate. cbv zeta.
      unfold test_results_of in Hcov.
      set (results := default _ _) in *.
      assert (Hc : py_floordiv (100 - get (code_coverage results) 0) 2 <= 100).
      { unfold py_floordiv.
        pose proof (Qfloor_le ((100 - get (code_coverage results) 0) / 2)) as Hfl.
        assert ((100 - get (code_coverage results) 0) / 2 <= 100)
          by (apply Qdiv_le_upper; lra).
        lra. }
      assert (Hp : py_min 50 (get (performance_regression_percent results) 0 * 2)
                   <= 100).
      { unfold py_min. destruct (Qlt_le_dec _ _); lra. }
      destruct (Qlt_le_dec (get (code_coverage results) 0) 70);
        destruct (0 <? get (failed_tests results) 0)%Z;
        destruct (Qlt_le_dec 5 (get (performance_regression_percent results) 0));
        intros Hf; member_cases Hf; cbn [severity]; lra.
    - by apply compliance_floor in Hf as [_ ?].
    - revert Hf. unfold InfrastructureEvaluator.evaluate. cbv zeta.
      unfold infra_status_of in Hhealth.
      set (status := default _ _) in *.
      destruct (Qlt_le_dec (get (cluster_health status) 100) 80);
        destruct (Qlt_le_dec 85 (get (disk_usage_percent status) 0));
        destruct (5 <? get (deployments_in_queue status) 0)%Z;
        intros Hf; member_cases Hf; cbn [severity]; lra. }
  split.
  - intros f Hf. apply Hall. by rewrite elem_of_sorted_by_severity_desc in Hf.
  - destruct (all_factors_of self context now_window) as [|f fs] eqn:E.
    { simpl. lia. }
    pose proof (risk_score_lower (f :: fs) 10) as H1.
    pose proof (risk_score_upper (f :: fs) 100) as H2.
    split.
    + etrans; [|apply H1; [done|]]; [lia|]. intros g Hg. by apply Hall.
    + apply H2; [done|]. intros g Hg. by apply Hall.
Qed.

Lemma assess_severities_in_range_witness :
  0 <= get (code_coverage (test_results_of unapproved_agent payment_context)) 0 ∧
  0 <= get (cluster_health (infra_status_of unapproved_agent payment_context)) 100 ∧
  (∀ f, f ∈ factors (assess unapproved_agent payment_context
                       (mkDatetime "2024-01-01T12:00:00" 12)
                       (mkDatetime "2024-01-01T12:00:01" 12)).1 →
        10 <= severity f ∧ severity f <= 100) ∧
  (0 ≤ risk_score (assess unapproved_agent payment_context
                     (mkDatetime "2024-01-01T12:00:00" 12)
                     (mkDatetime "2024-01-01T12:00:01" 12)).1 ∧
   risk_score (assess unapproved_agent payment_context
                 (mkDatetime "2024-01-01T12:00:00" 12)
                 (mkDatetime "2024-01-01T12:00:01" 12)).1 ≤ 100)%Z.
Proof.
  assert (H1 : 0 <= get (code_coverage
                 (test_results_of unapproved_agent payment_context)) 0)
    by (vm_compute; discriminate).
  assert (H2 : 0 <= get (cluster_health
                 (infra_status_of unapproved_agent payment_context)) 100)
    by (vm_compute; discriminate).
  split; [exact H1|]. split; [exact H2|].
  exact (assess_severities_in_range unapproved_agent payment_context
           (mkDatetime "2024-01-01T12:00:00" 12)
           (mkDatetime "2024-01-01T12:00:01" 12) H1 H2).
Defined.

End RiskExtraTheorems.

(** * Properties of the learning history *)

Section InsightsProofs.
Import RiskAssessment RiskInsights.

(** The counts after all factors of a list have been seen. *)
Local Abbreviation counted fs :=
  (fold_left (λ issue_counts factor, bump (name factor) issue_counts) fs []).

Lemma issue_counts_concat (history : list Report) (acc : list (string * Z)) :
  fold_left
    (λ issue_counts report,
       fold_left (λ issue_counts factor, bump (name factor) issue_counts)
                 (factors report) issue_counts)
    history acc
  = fold_left (λ issue_counts factor, bump (name factor) issue_counts)
              (concat (factors <$> history)) acc.
Proof.
  revert acc. induction history as [|r history IH]; intros acc; simpl; [done|].
  by rewrite IH, fold_left_app.
Qed.

Lemma bump_keys (x : string) (l : list (string * Z)) :
  (bump x l).*1 = if decide (x ∈ l.*1) then l.*1 else (l.*1 ++ [x])%list.
Proof.
  induction l as [|[k v] l IH].
  - rewrite decide_False by apply not_elem_of_nil. done.
  - cbn [bump]. destruct (decide (k = x)) as [->|Hne].
    + rewrite !fmap_cons. cbn [fst]. rewrite decide_True by left. done.
    + rewrite !fmap_cons, IH. cbn [fst].
      destruct (decide (x ∈ l.*1)) as [Hin|Hout].
      * rewrite decide_True by (by right). done.
      * rewrite decide_False; [done|].
        intros Hx. apply elem_of_cons in Hx as [->|Hx]; done.
Qed.

Lemma bump_NoDup (x : string) (l : list (string * Z)) :
  NoDup l.*1 → NoDup (bump x l).*1.
Proof.
  intros Hnd. rewrite bump_keys. destruct (decide (x ∈ l.*1)); [done|].
  apply NoDup_app. split; [done|]. split; [|apply NoDup_singleton].
  intros y Hy Hx. apply list_elem_of_singleton in Hx as ->. done.
Qed.

Lemma elem_of_bump (x n : string) (v : Z) (l : list (string * Z)) :
  NoDup l.*1 →
  (n, v) ∈ bump x l ↔
  (n ≠ x ∧ (n, v) ∈ l) ∨
  (n = x ∧ ((∃ v0, (x, v0) ∈ l ∧ v = (v0 + 1)%Z) ∨ ((x ∉ l.*1) ∧ v = 1%Z))).
Proof.
  induction l as [|[k w] l IH]; intros Hnd.
  - cbn [bump]. rewrite list_elem_of_singleton.
    assert (Hnil : ∀ p : string * Z, p ∉ []) by apply not_elem_of_nil.
    assert (Hnil' : x ∉ ([] : list (string * Z)).*1) by apply not_elem_of_nil.
    split.
    + intros [= -> ->]. right. split; [done|]. right. done.
    + intros [[_ H]|[-> [(v0 & H & _)|[_ ->]]]];
        [by apply Hnil in H|by apply Hnil in H|done].
  - rewrite fmap_cons in Hnd. cbn [fst] in Hnd.
    apply NoDup_cons in Hnd as [Hk Hnd]. specialize (IH Hnd).
    assert (Hkey : ∀ v0, (k, v0) ∉ l).
    { intros v0 Hin. apply Hk, list_elem_of_fmap. exists (k, v0). done. }
    cbn [bump]. destruct (decide (k = x)) as [->|Hne].
    + assert (Hhead : x ∈ ((x, w) :: l).*1) by left.
      rewrite !elem_of_cons. split.
      * intros [[= -> ->]|Hin].
        -- right. split; [done|]. left. exists w. split; [by left|done].
        -- left. split; [|by right]. intros ->. by apply Hkey in Hin.
      * intros [[Hn [Heq|Hin]]|[-> [(v0 & Hin0 & ->)|[Hout _]]]].
        -- congruence.
        -- by right.
        -- apply elem_of_cons in Hin0 as [Heq|Hin].
           ++ simplify_eq. by left.
           ++ by apply Hkey in Hin.
        -- done.
    + rewrite !elem_of_cons, IH.
      assert (Hout : x ∉ ((k, w) :: l).*1 ↔ x ∉ l.*1).
      { rewrite fmap_cons, elem_of_cons. cbn [fst]. naive_solver. }
      rewrite Hout. split.
      * intros [Heq|[[Hn Hin]|[-> Hx]]].
        -- simplify_eq. left. split; [done|by left].
        -- left. split; [done|by right].
        -- right. split; [done|]. destruct Hx as [(v0 & Hin & ->)|[Hx ->]].
           ++ left. exists v0. split; [by right|done].
           ++ by right.
      * intros [[Hn [Heq|Hin]]|[-> Hx]].
        -- by left.
        -- right. left. done.
        -- right. right. split; [done|].
           destruct Hx as [(v0 & Hin0 & ->)|[Hx ->]].
           ++ apply elem_of_cons in Hin0 as [Heq|Hin]; [congruence|].
              left. eauto.
           ++ by right.
Qed.

(** The counts hold each name seen once, with the number of times it was
    seen. *)
Lemma counted_spec (fs : list RiskFactor) :
  NoDup (counted fs).*1 ∧
  ∀ n v, (n, v) ∈ counted fs ↔
         (v = Z.of_nat (length (filter (λ f, name f = n) fs)) ∧ 0 < v)%Z.
Proof.
  induction fs as [|f fs [IHnd IH]] using rev_ind.
  - split; [constructor|]. intros n v. simpl. rewrite elem_of_nil. lia.
  - rewrite fold_left_app. simpl. split; [by apply bump_NoDup|].
    intros n v. rewrite elem_of_bump by done.
    rewrite filter_app, length_app, filter_cons, filter_nil.
    assert (Hkeys : name f ∈ (counted fs).*1 ↔
                    (0 < Z.of_nat (length (filter (λ g, name g = name f) fs)))%Z).
    { rewrite list_elem_of_fmap. split.
      - intros ([k v0] & -> & Hin). apply IH in Hin. simpl in *. lia.
      - intros Hpos. eexists (name f, _). split; [done|]. apply IH. done. }
    destruct (decide (name f = n)) as [<-|Hne]; simpl.
    + split.
      * intros [[Hn _]|[_ [(v0 & Hin & ->)|[Hout ->]]]]; [done| |].
        -- apply IH in Hin. lia.
        -- rewrite Hkeys in Hout. lia.
      * intros [-> _]. right. split; [done|].
        destruct (decide (0 < Z.of_nat (length
                    (filter (λ g, name g = name f) fs)))%Z) as [Hpos|Hz].
        -- left. eexists. split; [apply IH; done|]. lia.
        -- right. rewrite Hkeys. split; [done|]. lia.
    + rewrite IH. split.
      * intros [[_ [-> ?]]|[-> _]]; [|done]. lia.
      * intros [-> ?]. left. split; [done|]. lia.
Qed.

(** ** Sorting by count *)

Lemma insert_by_count_Permutation (x : string * Z) (l : list (string * Z)) :
  insert_by_count x l ≡ₚ x :: l.
Proof.
  induction l as [|y l IH]; simpl; [done|].
  destruct (x.2 <? y.2)%Z; [|done]. rewrite IH. apply Permutation_swap.
Qed.

Lemma sorted_by_count_desc_Permutation (l : list (string * Z)) :
  sorted_by_count_desc l ≡ₚ l.
Proof.
  induction l as [|x l IH]; simpl; [done|].
  rewrite insert_by_count_Permutation. by rewrite IH.
Qed.

Lemma insert_by_count_sorted (x : string * Z) (l : list (string * Z)) :
  StronglySorted count_desc l → StronglySorted count_desc (insert_by_count x l).
Proof.
  induction l as [|y l IH]; intros Hs; simpl.
  - repeat constructor.
  - apply StronglySorted_inv in Hs as [Hl Hy].
    destruct (x.2 <? y.2)%Z eqn:Hlt.
    + apply Z.ltb_lt in Hlt. constructor; [by apply IH|].
      apply Forall_forall. intros z Hz.
      rewrite insert_by_count_Permutation in Hz.
      apply elem_of_cons in Hz as [->|Hz].
      * unfold count_desc. lia.
      * by apply (proj1 (Forall_forall _ _) Hy).
    + apply Z.ltb_ge in Hlt. constructor; [by constructor|].
      constructor; [exact Hlt|].
      apply Forall_forall. intros z Hz.
      pose proof (proj1 (Forall_forall _ _) Hy z Hz) as Hzy.
      unfold count_desc in *. lia.
Qed.

Lemma sorted_by_count_desc_sorted (l : list (string * Z)) :
  StronglySorted count_desc (sorted_by_count_desc l).
Proof.
  induction l as [|x l IH]; simpl; [constructor|]. by apply insert_by_count_sorted.
Qed.

(** In a sorted list every element of a prefix dominates every element of
    the rest. *)
Lemma sorted_app_dominates (l1 l2 : list (string * Z)) :
  StronglySorted count_desc (l1 ++ l2) →
  StronglySorted count_desc l1 ∧
  ∀ a b, a ∈ l1 → b ∈ l2 → count_desc a b.
Proof.
  induction l1 as [|x l1 IH]; simpl; intros Hs.
  - split; [constructor|]. intros a b Ha. by apply elem_of_nil in Ha.
  - apply StronglySorted_inv in Hs as [Hs Hx]. destruct (IH Hs) as [Hs1 Hdom].
    apply Forall_app in Hx as [Hx1 Hx2]. split; [by constructor|].
    intros a b Ha Hb. apply elem_of_cons in Ha as [->|Ha].
    + by apply (proj1 (Forall_forall _ _) Hx2).
    + by apply Hdom.
Qed.

End InsightsProofs.

Section InsightsTheorems.
Import RiskAssessment RiskInsights.

Lemma issue_counts_of_spec (history : list Report) :
  NoDup (issue_counts_of history).*1 ∧
  ∀ n v, (n, v) ∈ issue_counts_of history ↔
         (v = occurrences n history ∧ 0 < v)%Z.
Proof.
  unfold issue_counts_of, occurrences. rewrite issue_counts_concat.
  apply counted_spec.
Qed.

(** X11.  [_analyze_common_issues] lists at most five issue names, each
    once, each with the number of factors of that name in the whole
    history, in descending order of that number; a name that occurs in the
    history and is not listed occurs no more often than any listed one. *)
Theorem common_issues_top_five (self : RiskAssessmentAgent) :
  let top := _analyze_common_issues self in
  let history := learning_history self in
  (length top ≤ 5)%nat ∧
  NoDup top.*1 ∧
  (∀ n v, (n, v) ∈ top → v = occurrences n history ∧ (0 < v)%Z) ∧
  StronglySorted count_desc top ∧
  (∀ n, (0 < occurrences n history)%Z →
        n ∈ top.*1 ∨
        (length top = 5%nat ∧
         ∀ m w, (m, w) ∈ top → (occurrences n history ≤ w)%Z)).
Proof.
  intros top history. unfold top, _analyze_common_issues. fold history.
  destruct (issue_counts_of_spec history) as [Hnd Hspec].
  set (sorted := sorted_by_count_desc (issue_counts_of history)).
  assert (Hperm : sorted ≡ₚ issue_counts_of history)
    by apply sorted_by_count_desc_Permutation.
  assert (Hsplit : sorted = (take 5 sorted ++ drop 5 sorted)%list)
    by (by rewrite take_drop).
  assert (Hsorted : StronglySorted count_desc (take 5 sorted ++ drop 5 sorted)).
  { rewrite <- Hsplit. apply sorted_by_count_desc_sorted. }
  apply sorted_app_dominates in Hsorted as [Htop Hdom].
  split; [rewrite length_take; lia|]. split; [|split; [|split]].
  - rewrite fmap_take. apply (sublist_NoDup _ (sorted.*1)); [|apply sublist_take].
    by rewrite Hperm.
  - intros n v Hin. apply Hspec. rewrite <- Hperm.
    rewrite Hsplit. apply elem_of_app. by left.
  - done.
  - intros n Hpos.
    assert (Hin : (n, occurrences n history) ∈ sorted).
    { rewrite Hperm. by apply Hspec. }
    rewrite Hsplit in Hin. apply elem_of_app in Hin as [Hin|Hin].
    + left. apply list_elem_of_fmap. by exists (n, occurrences n history).
    + right. split.
      * rewrite length_take.
        assert (5 < length sorted)%nat; [|lia].
        destruct (decide (5 < length sorted)%nat) as [|Hle]; [done|].
        rewrite drop_ge in Hin by lia. by apply elem_of_nil in Hin.
      * intros m w Hmw. by apply (Hdom (m, w) (n, occurrences n history)).
Qed.

(** ** Sums over the history *)

Lemma sum_scores_cons (d : Report) (history : list Report) :
  sum_scores (d :: history) = (risk_score d + sum_scores history)%Z.
Proof.
  unfold sum_scores. simpl.
  assert (H : ∀ l a, fold_left (λ acc d, acc + risk_score d)%Z l a
                     = (a + fold_left (λ acc d, acc + risk_score d)%Z l 0)%Z).
  { induction l as [|x l IH]; intros a; simpl; [lia|].
    rewrite (IH (a + risk_score x)%Z), (IH (0 + risk_score x)%Z). lia. }
  rewrite H. lia.
Qed.

Lemma count_approved_cons (d : Report) (history : list Report) :
  count_approved (d :: history)
  = ((if autonomous_decision d then 1 else 0) + count_approved history)%Z.
Proof.
  unfold count_approved. simpl.
  assert (H : ∀ l a,
    fold_left (λ acc d, if autonomous_decision d then acc + 1 else acc)%Z l a
    = (a + fold_left (λ acc d, if autonomous_decision d then acc + 1 else acc)%Z
             l 0)%Z).
  { induction l as [|x l IH]; intros a; simpl; [lia|].
    rewrite (IH (if autonomous_decision x then a + 1 else a)%Z),
            (IH (if autonomous_decision x then 0 + 1 else 0)%Z).
    destruct (autonomous_decision x); lia. }
  rewrite H. destruct (autonomous_decision d); lia.
Qed.

Lemma sum_scores_bounds (history : list Report) (lo hi : Z) :
  (∀ d, d ∈ history → lo ≤ risk_score d ∧ risk_score d ≤ hi)%Z →
  (lo * Z.of_nat (length history) ≤ sum_scores history ∧
   sum_scores history ≤ hi * Z.of_nat (length history))%Z.
Proof.
  induction history as [|d history IH]; intros Hall.
  - unfold sum_scores. simpl. lia.
  - rewrite sum_scores_cons. cbn [length]. rewrite Nat2Z.inj_succ.
    destruct (Hall d) as [H1 H2]; [left|].
    destruct IH as [H3 H4]; [intros e He; apply Hall; by right|]. lia.
Qed.

Lemma count_approved_bounds (history : list Report) :
  (0 ≤ count_approved history ∧
   count_approved history ≤ Z.of_nat (length history))%Z ∧
  (count_approved history = Z.of_nat (length history) ↔
   ∀ d, d ∈ history → autonomous_decision d = true).
Proof.
  induction history as [|d history [[H1 H2] H3]].
  - unfold count_approved. simpl. split; [lia|].
    split; [|done]. intros _ d Hd. by apply elem_of_nil in Hd.
  - rewrite count_approved_cons. cbn [length]. rewrite Nat2Z.inj_succ.
    destruct (autonomous_decision d) eqn:E.
    + split; [lia|]. split.
      * intros Heq d' Hd'. apply elem_of_cons in Hd' as [->|Hd']; [done|].
        apply H3; [lia|done].
      * intros Hall. assert (count_approved history = Z.of_nat (length history));
          [|lia].
        apply H3. intros d' Hd'. apply Hall. by right.
    + split; [lia|]. split; [lia|].
      intros Hall. specialize (Hall d). rewrite E in Hall.
      discriminate Hall. left.
Qed.

Open Scope Q_scope.

(** X12.  [get_deployment_insights] returns the empty dict exactly for an
    empty history.  Otherwise it counts the assessments, the approval rate
    lies between 0 and 1 and is 1 exactly when every report was approved
    autonomously, the average score lies between any bounds that enclose
    all scores, and the common issues are those of
    [_analyze_common_issues]. *)
Theorem insights_summary (self : RiskAssessmentAgent) :
  match get_deployment_insights self with
  | None => learning_history self = []
  | Some i =>
    learning_history self ≠ [] ∧
    total_assessments i = length (learning_history self) ∧
    (0 <= approved_rate i ∧ approved_rate i <= 1) ∧
    (approved_rate i == 1 ↔
     ∀ d, d ∈ learning_history self → autonomous_decision d = true) ∧
    (∀ lo hi : Z,
       (∀ d, d ∈ learning_history self →
             (lo ≤ risk_score d ∧ risk_score d ≤ hi)%Z) →
       inject_Z lo <= avg_risk_score i ∧ avg_risk_score i <= inject_Z hi) ∧
    most_common_issues i = _analyze_common_issues self
  end.
Proof.
  unfold get_deployment_insights.
  destruct (learning_history self) as [|d history] eqn:E; [done|].
  cbn [total_assessments approved_rate avg_risk_score most_common_issues].
  set (n := Z.of_nat (length (d :: history))).
  assert (Hn : 0 < inject_Z n).
  { change 0 with (inject_Z 0). rewrite <- Zlt_Qlt. unfold n. simpl. lia. }
  destruct (count_approved_bounds (d :: history)) as [[Hc0 Hc1] Hall].
  fold n in Hc1, Hall.
  split; [done|]. split; [done|]. split; [|split; [|split; [|done]]].
  - split.
    + apply Qdiv_ge; [done|]. rewrite Qmult_0_l.
      change 0 with (inject_Z 0). by rewrite <- Zle_Qle.
    + apply Qdiv_le_upper; [done|]. rewrite Qmult_1_l. by rewrite <- Zle_Qle.
  - rewrite <- Hall. split.
    + intros H1. apply inject_Z_injective.
      rewrite <- (Qmult_div_r (inject_Z (count_approved (d :: history)))
                    (inject_Z n)) by lra.
      rewrite H1. lra.
    + intros ->. apply Qmult_inv_r. lra.
  - intros lo hi Hbounds.
    destruct (sum_scores_bounds (d :: history) lo hi Hbounds) as [H1 H2].
    fold n in H1, H2. split.
    + apply Qdiv_ge; [done|]. rewrite <- inject_Z_mult. by rewrite <- Zle_Qle.
    + apply Qdiv_le_upper; [done|]. rewrite <- inject_Z_mult. by rewrite <- Zle_Qle.
Qed.

Close Scope Q_scope.

Example insights_twice_assessed :
  ∃ i, get_deployment_insights twice_assessed = Some i ∧
       total_assessments i = 2%nat ∧
       most_common_issues i =
         [("Change Not Approved", 2%Z); ("High Disk Usage", 2%Z);
          ("Degraded Cluster Health", 2%Z); ("Pipeline Congestion", 2%Z);
          ("Low Code Coverage", 2%Z)].
Proof. eexists. split; [vm_compute; reflexivity|]. split; reflexivity. Qed.

End InsightsTheorems.

(** * Properties of the canary rollout *)

Section CanaryProofs.
Import CanaryDeployment.

Lemma last_traffic_split_app (t1 t2 : list Action) (p s : Z) :
  last_traffic_split t2 = Some (p, s) →
  last_traffic_split (t1 ++ t2) = Some (p, s).
Proof.
  unfold last_traffic_split. rewrite omap_app. intros H.
  destruct (omap _ t2) as [|x l] eqn:E using rev_ind; [done|].
  rewrite app_assoc, last_snoc. by rewrite last_snoc in H.
Qed.

Lemma enumerate_canary_stages :
  enumerate canary_stages 1 = [(1, 5); (2, 25); (3, 50); (4, 100)]%Z.
Proof. reflexivity. Qed.

(** C4.  With the stage weights [5, 25, 50, 100], when the metrics of the
    first stage evaluate healthy and those of the 25% stage unhealthy,
    [deploy_canary] returns status ROLLED_BACK with the reason of the
    failed evaluation; only the stages 5 and 25 were entered (the calls
    made are exactly the six listed, none of them a split to 50 or 100),
    and the last traffic split sends 100% to production and 0% to the
    canary. *)
Theorem canary_rollback_at_25 (self : CanaryDeploymentAgent)
  (app_name new_version : string) (canary_traffic_percent : Z) (now : Q)
  (w : World) (e1 e2 : Evaluation) :
  evaluation_at self (polls w) = Some e1 → healthy e1 = true →
  evaluation_at self (S (polls w)) = Some e2 → healthy e2 = false →
  ∃ result w',
    deploy_canary self app_name new_version canary_traffic_percent now w
      = (Ok result, w') ∧
    status result = "ROLLED_BACK" ∧
    rollback_reason result = Some (reason e2) ∧
    traffic_percent <$> stages result = [5; 25]%Z ∧
    trace w' = (trace w ++
      [deploy_to_slot app_name "staging" new_version;
       set_traffic_split app_name 95 5;
       collect_metrics app_name 300;
       set_traffic_split app_name 75 25;
       collect_metrics app_name 300;
       set_traffic_split app_name 100 0])%list ∧
    last_traffic_split (trace w') = Some (100, 0)%Z.
Proof.
  unfold evaluation_at. intros H1 Hh1 H2 Hh2.
  destruct (app_insights self (polls w)) as [m1|] eqn:E1; [|done].
  destruct (app_insights self (S (polls w))) as [m2|] eqn:E2; [|done].
  simpl in H1, H2. injection H1 as <-. injection H2 as <-.
  unfold deploy_canary. rewrite enumerate_canary_stages.
  cbn -[_evaluate_canary_metrics]. rewrite E1.
  cbn -[_evaluate_canary_metrics]. rewrite Hh1.
  change (2 =? 1)%Z with false.
  cbn -[_evaluate_canary_metrics]. rewrite E2.
  cbn -[_evaluate_canary_metrics]. rewrite Hh2.
  cbn -[_evaluate_canary_metrics].
  eexists _, _. split; [reflexivity|]. cbn -[_evaluate_canary_metrics].
  repeat split.
  - unfold append. by rewrite <- !app_assoc.
  - unfold append. rewrite <- !app_assoc. simpl.
    by apply last_traffic_split_app.
Qed.

Lemma canary_rollback_at_25_witness :
  evaluation_at degrading_agent (polls fresh_world)
    = Some (_evaluate_canary_metrics good_metrics) ∧
  healthy (_evaluate_canary_metrics good_metrics) = true ∧
  evaluation_at degrading_agent (S (polls fresh_world))
    = Some (_evaluate_canary_metrics bad_metrics) ∧
  healthy (_evaluate_canary_metrics bad_metrics) = false ∧
  ∃ result w',
    deploy_canary degrading_agent "shop" "v2" 5 1700000000%Q fresh_world
      = (Ok result, w') ∧
    status result = "ROLLED_BACK" ∧
    rollback_reason result = Some (reason (_evaluate_canary_metrics bad_metrics)) ∧
    traffic_percent <$> stages result = [5; 25]%Z ∧
    trace w' = (trace fresh_world ++
      [deploy_to_slot "shop" "staging" "v2";
       set_traffic_split "shop" 95 5;
       collect_metrics "shop" 300;
       set_traffic_split "shop" 75 25;
       collect_metrics "shop" 300;
       set_traffic_split "shop" 100 0])%list ∧
    last_traffic_split (trace w') = Some (100, 0)%Z.
Proof.
  repeat (split; [reflexivity|]).
  exact (canary_rollback_at_25 degrading_agent "shop" "v2" 5 1700000000%Q
           fresh_world _ _ eq_refl eq_refl eq_refl eq_refl).
Defined.

End CanaryProofs.

(** * Further properties of the canary rollout *)

Section CanaryExtra.
Import CanaryDeployment CanaryRuns.

Lemma evaluation_at_Some (self : CanaryDeploymentAgent) (n : nat) (e : Evaluation) :
  evaluation_at self n = Some e →
  ∃ m, app_insights self n = Some m ∧ e = _evaluate_canary_metrics m.
Proof.
  unfold evaluation_at. destruct (app_insights self n) as [m|]; [|done].
  intros [= <-]. eauto.
Qed.

Lemma evaluation_at_None (self : CanaryDeploymentAgent) (n : nat) :
  evaluation_at self n = None → app_insights self n = None.
Proof. unfold evaluation_at. by destruct (app_insights self n). Qed.

Lemma not_swapped_app (t1 t2 : list Action) :
  ¬ swapped t1 → ¬ swapped t2 → ¬ swapped (t1 ++ t2).
Proof.
  intros H1 H2 (a & p & s & Hin). apply elem_of_app in Hin as [Hin|Hin].
  - apply H1. by exists a, p, s.
  - apply H2. by exists a, p, s.
Qed.

Lemma healthy_at_answer (self : CanaryDeploymentAgent) (w : World) (n : nat) :
  healthy_at self w n →
  ∃ m, app_insights self (polls w + n) = Some m ∧
       healthy (_evaluate_canary_metrics m) = true.
Proof.
  intros (e & He & Hh). apply evaluation_at_Some in He as (m & Hm & ->). eauto.
Qed.

(** One stage of the run, for a known answer of the metrics source. *)
Ltac canary_stage E Hh :=
  cbn -[_evaluate_canary_metrics calls_through];
  rewrite E; cbn -[_evaluate_canary_metrics calls_through];
  rewrite ?Hh; cbn -[_evaluate_canary_metrics calls_through].

(** X13.  When the metrics of all four stages evaluate healthy,
    [deploy_canary] returns status SUCCESS without a rollback reason: the
    stages 5, 25, 50 and 100 are all recorded as passed, and the calls made
    are the deployment to the staging slot, the four splits each followed by
    a metrics collection, and last the swap of production and staging. *)
Theorem canary_success (self : CanaryDeploymentAgent)
  (app_name new_version : string) (canary_traffic_percent : Z) (now : Q)
  (w : World) :
  (∀ n, (n < 4)%nat → healthy_at self w n) →
  ∃ result w',
    deploy_canary self app_name new_version canary_traffic_percent now w
      = (Ok result, w') ∧
    status result = "SUCCESS" ∧
    rollback_reason result = None ∧
    traffic_percent <$> stages result = canary_stages ∧
    passed <$> stages result = [true; true; true; true] ∧
    trace w' = (trace w ++ calls_through app_name new_version 4
                  ++ [swap_slots app_name "production" "staging"])%list ∧
    polls w' = (polls w + 4)%nat.
Proof.
  intros H.
  destruct (healthy_at_answer self w 0 (H 0%nat ltac:(lia))) as (m0 & E0 & H0).
  destruct (healthy_at_answer self w 1 (H 1%nat ltac:(lia))) as (m1 & E1 & H1).
  destruct (healthy_at_answer self w 2 (H 2%nat ltac:(lia))) as (m2 & E2 & H2).
  destruct (healthy_at_answer self w 3 (H 3%nat ltac:(lia))) as (m3 & E3 & H3).
  rewrite Nat.add_0_r in E0.
  replace (polls w + 1)%nat with (S (polls w)) in E1 by lia.
  replace (polls w + 2)%nat with (S (S (polls w))) in E2 by lia.
  replace (polls w + 3)%nat with (S (S (S (polls w)))) in E3 by lia.
  unfold deploy_canary. rewrite enumerate_canary_stages.
  canary_stage E0 H0. change (2 =? 1)%Z with false.
  canary_stage E1 H1. change (3 =? 1)%Z with false.
  canary_stage E2 H2. change (4 =? 1)%Z with false.
  canary_stage E3 H3.
  eexists _, _. split; [reflexivity|]. cbn -[_evaluate_canary_metrics calls_through].
  rewrite ?H0, ?H1, ?H2, ?H3.
  repeat split; [|lia].
  unfold append. by rewrite <- !app_assoc.
Qed.

Lemma canary_success_witness :
  (∀ n, (n < 4)%nat → healthy_at healthy_agent fresh_world n) ∧
  ∃ result w',
    deploy_canary healthy_agent "shop" "v2" 5 1700000000%Q fresh_world
      = (Ok result, w') ∧
    status result = "SUCCESS" ∧
    rollback_reason result = None ∧
    traffic_percent <$> stages result = canary_stages ∧
    passed <$> stages result = [true; true; true; true] ∧
    trace w' = (trace fresh_world ++ calls_through "shop" "v2" 4
                  ++ [swap_slots "shop" "production" "staging"])%list ∧
    polls w' = (polls fresh_world + 4)%nat.
Proof.
  assert (H : ∀ n, (n < 4)%nat → healthy_at healthy_agent fresh_world n).
  { intros n _. exists (_evaluate_canary_metrics good_metrics). done. }
  split; [exact H|].
  exact (canary_success healthy_agent "shop" "v2" 5 1700000000%Q fresh_world H).
Defined.

Lemma calls_through_not_swapped (app_name new_version : string) (k : nat)
  (final : list Action) :
  ¬ swapped final →
  ¬ swapped (calls_through app_name new_version k ++ final).
Proof.
  intros Hfinal. apply not_swapped_app; [|done].
  intros (a & p & s & Hin). unfold calls_through in Hin.
  apply elem_of_cons in Hin as [Hin|Hin]; [done|].
  apply list_elem_of_In, in_concat in Hin as (calls & Hcalls & Hin).
  apply list_elem_of_In, list_elem_of_fmap in Hcalls as (pct & -> & _).
  apply list_elem_of_In in Hin. unfold stage_calls in Hin.
  repeat (apply elem_of_cons in Hin as [Hin|Hin]; [done|]).
  by apply elem_of_nil in Hin.
Qed.

Ltac canary_healthy H n m E Hh :=
  destruct (healthy_at_answer _ _ n (H n ltac:(lia))) as (m & E & Hh);
  rewrite ?Nat.add_succ_r, ?Nat.add_0_r in E.

Ltac canary_finish :=
  eexists _, _; split; [reflexivity|]; cbn -[_evaluate_canary_metrics calls_through];
  repeat split;
  [unfold append; by rewrite <- ?app_assoc
  |unfold append; rewrite <- ?app_assoc; by apply last_traffic_split_app
  |apply calls_through_not_swapped; intros (a & p & s & Hin);
   apply list_elem_of_singleton in Hin; discriminate Hin].

(** X14.  Whichever of the four stages is the first whose metrics evaluate
    unhealthy, [deploy_canary] returns status ROLLED_BACK with the reason of
    that evaluation: the stages up to that one are recorded, all passed but
    the last, no later stage is entered, the last call restores 100% of the
    traffic to production, and the slots are not swapped. *)
Theorem canary_rollback_at_first_unhealthy (self : CanaryDeploymentAgent)
  (app_name new_version : string) (canary_traffic_percent : Z) (now : Q)
  (w : World) (k : nat) (e : Evaluation) :
  (k < 4)%nat →
  (∀ n, (n < k)%nat → healthy_at self w n) →
  evaluation_at self (polls w + k) = Some e →
  healthy e = false →
  ∃ result w',
    deploy_canary self app_name new_version canary_traffic_percent now w
      = (Ok result, w') ∧
    status result = "ROLLED_BACK" ∧
    rollback_reason result = Some (reason e) ∧
    traffic_percent <$> stages result = take (S k) canary_stages ∧
    passed <$> stages result = (replicate k true ++ [false])%list ∧
    trace w' = (trace w ++ calls_through app_name new_version (S k)
                  ++ [set_traffic_split app_name 100 0])%list ∧
    last_traffic_split (trace w') = Some (100, 0)%Z ∧
    ¬ swapped (calls_through app_name new_version (S k)
                 ++ [set_traffic_split app_name 100 0]).
Proof.
  intros Hk H He Hbad.
  apply evaluation_at_Some in He as (mk & Ek & ->).
  unfold deploy_canary. rewrite enumerate_canary_stages.
  destruct k as [|[|[|[|k]]]]; [| | | |lia].
  - rewrite Nat.add_0_r in Ek.
    canary_stage Ek Hbad. canary_finish.
  - canary_healthy H 0%nat m0 E0 H0.
    rewrite ?Nat.add_succ_r, ?Nat.add_0_r in Ek.
    canary_stage E0 H0. change (2 =? 1)%Z with false.
    canary_stage Ek Hbad. canary_finish.
  - canary_healthy H 0%nat m0 E0 H0. canary_healthy H 1%nat m1 E1 H1.
    rewrite ?Nat.add_succ_r, ?Nat.add_0_r in Ek.
    canary_stage E0 H0. change (2 =? 1)%Z with false.
    canary_stage E1 H1. change (3 =? 1)%Z with false.
    canary_stage Ek Hbad. canary_finish.
  - canary_healthy H 0%nat m0 E0 H0. canary_healthy H 1%nat m1 E1 H1.
    canary_healthy H 2%nat m2 E2 H2.
    rewrite ?Nat.add_succ_r, ?Nat.add_0_r in Ek.
    canary_stage E0 H0. change (2 =? 1)%Z with false.
    canary_stage E1 H1. change (3 =? 1)%Z with false.
    canary_stage E2 H2. change (4 =? 1)%Z with false.
    canary_stage Ek Hbad. canary_finish.
Qed.

Lemma canary_rollback_at_first_unhealthy_witness :
  (1 < 4)%nat ∧
  (∀ n, (n < 1)%nat → healthy_at degrading_agent fresh_world n) ∧
  evaluation_at degrading_agent (polls fresh_world + 1)
    = Some (_evaluate_canary_metrics bad_metrics) ∧
  healthy (_evaluate_canary_metrics bad_metrics) = false ∧
  ∃ result w',
    deploy_canary degrading_agent "shop" "v2" 5 1700000000%Q fresh_world
      = (Ok result, w') ∧
    status result = "ROLLED_BACK" ∧
    rollback_reason result = Some (reason (_evaluate_canary_metrics bad_metrics)) ∧
    traffic_percent <$> stages result = take 2 canary_stages ∧
    passed <$> stages result = (replicate 1 true ++ [false])%list ∧
    trace w' = (trace fresh_world ++ calls_through "shop" "v2" 2
                  ++ [set_traffic_split "shop" 100 0])%list ∧
    last_traffic_split (trace w') = Some (100, 0)%Z ∧
    ¬ swapped (calls_through "shop" "v2" 2 ++ [set_traffic_split "shop" 100 0]).
Proof.
  assert (H1 : (1 < 4)%nat) by lia.
  assert (H2 : ∀ n, (n < 1)%nat → healthy_at degrading_agent fresh_world n).
  { intros n Hn. assert (n = 0%nat) as -> by lia.
    exists (_evaluate_canary_metrics good_metrics). done. }
  split; [exact H1|]. split; [exact H2|]. split; [reflexivity|].
  split; [reflexivity|].
  exact (canary_rollback_at_first_unhealthy degrading_agent "shop" "v2" 5
           1700000000%Q fresh_world 1 _ H1 H2 eq_refl eq_refl).
Defined.

Ltac canary_abort :=
  eexists; split; [reflexivity|]; cbn -[_evaluate_canary_metrics calls_through];
  repeat split;
  [unfold append; by rewrite <- ?app_assoc
  |unfold append; rewrite <- ?app_assoc; by apply last_traffic_split_app
  |rewrite <- (app_nil_r (calls_through _ _ _));
   apply calls_through_not_swapped; intros (a & p & s & Hin);
   by apply elem_of_nil in Hin].

(** X15.  When the metrics source gives no answer at some stage (what the
    stub [_collect_metrics] of the source does at the first one), the run
    aborts with the exception raised by [metrics.get]: no result is
    returned, no rollback is made, and the traffic split stays at the weight
    of that stage. *)
Theorem canary_abort_without_rollback (self : CanaryDeploymentAgent)
  (app_name new_version : string) (canary_traffic_percent : Z) (now : Q)
  (w : World) (k : nat) :
  (k < 4)%nat →
  (∀ n, (n < k)%nat → healthy_at self w n) →
  evaluation_at self (polls w + k) = None →
  ∃ w',
    deploy_canary self app_name new_version canary_traffic_percent now w
      = (AttributeError, w') ∧
    trace w' = (trace w ++ calls_through app_name new_version (S k))%list ∧
    last_traffic_split (trace w') = Some (100 - weight_at k, weight_at k)%Z ∧
    ¬ swapped (calls_through app_name new_version (S k)).
Proof.
  intros Hk H He. apply evaluation_at_None in He as Ek.
  unfold deploy_canary. rewrite enumerate_canary_stages.
  destruct k as [|[|[|[|k]]]]; [| | | |lia].
  - rewrite Nat.add_0_r in Ek.
    cbn -[_evaluate_canary_metrics calls_through]. rewrite Ek. canary_abort.
  - canary_healthy H 0%nat m0 E0 H0.
    rewrite ?Nat.add_succ_r, ?Nat.add_0_r in Ek.
    canary_stage E0 H0. change (2 =? 1)%Z with false.
    cbn -[_evaluate_canary_metrics calls_through]. rewrite Ek. canary_abort.
  - canary_healthy H 0%nat m0 E0 H0. canary_healthy H 1%nat m1 E1 H1.
    rewrite ?Nat.add_succ_r, ?Nat.add_0_r in Ek.
    canary_stage E0 H0. change (2 =? 1)%Z with false.
    canary_stage E1 H1. change (3 =? 1)%Z with false.
    cbn -[_evaluate_canary_metrics calls_through]. rewrite Ek. canary_abort.
  - canary_healthy H 0%nat m0 E0 H0. canary_healthy H 1%nat m1 E1 H1.
    canary_healthy H 2%nat m2 E2 H2.
    rewrite ?Nat.add_succ_r, ?Nat.add_0_r in Ek.
    canary_stage E0 H0. change (2 =? 1)%Z with false.
    canary_stage E1 H1. change (3 =? 1)%Z with false.
    canary_stage E2 H2. change (4 =? 1)%Z with false.
    cbn -[_evaluate_canary_metrics calls_through]. rewrite Ek. canary_abort.
Qed.

Lemma canary_abort_without_rollback_witness :
  (0 < 4)%nat ∧
  (∀ n, (n < 0)%nat → healthy_at silent_agent fresh_world n) ∧
  evaluation_at silent_agent (polls fresh_world + 0) = None ∧
  ∃ w',
    deploy_canary silent_agent "shop" "v2" 5 1700000000%Q fresh_world
      = (AttributeError, w') ∧
    trace w' = (trace fresh_world ++ calls_through "shop" "v2" 1)%list ∧
    last_traffic_split (trace w') = Some (100 - weight_at 0, weight_at 0)%Z ∧
    ¬ swapped (calls_through "shop" "v2" 1).
Proof.
  assert (H1 : (0 < 4)%nat) by lia.
  assert (H2 : ∀ n, (n < 0)%nat → healthy_at silent_agent fresh_world n)
    by (intros n Hn; lia).
  split; [exact H1|]. split; [exact H2|]. split; [reflexivity|].
  exact (canary_abort_without_rollback silent_agent "shop" "v2" 5
           1700000000%Q fresh_world 0 H1 H2 eq_refl).
Defined.

(** X16.  [_evaluate_canary_metrics] calls the metrics healthy exactly
    when the error rate is at most 2, the P99 latency at most 150 and the
    CPU usage at most 80 (the thresholds themselves are healthy), a missing
    key counting as 0; healthy metrics get the reason "All metrics healthy",
    and the three values read are reported back. *)
Theorem evaluate_canary_metrics_thresholds (m : Metrics) :
  let e := _evaluate_canary_metrics m in
  (healthy e = true ↔
   (get (error_rate m) 0 <= 2 ∧ get (latency_p99_ms m) 0 <= 150 ∧
    get (cpu_percent m) 0 <= 80)%Q) ∧
  (healthy e = true → reason e = [Lit "All metrics healthy"]) ∧
  eval_error_rate e = get (error_rate m) 0%Q ∧
  eval_latency_p99_ms e = get (latency_p99_ms m) 0%Q ∧
  eval_cpu_percent e = get (cpu_percent m) 0%Q.
Proof.
  unfold _evaluate_canary_metrics. cbv zeta.
  destruct (Qlt_le_dec 2.0 (get (error_rate m) 0%Q)) as [H1|H1];
    destruct (Qlt_le_dec 150 (get (latency_p99_ms m) 0%Q)) as [H2|H2];
    destruct (Qlt_le_dec 80 (get (cpu_percent m) 0%Q)) as [H3|H3];
    cbn [healthy reason eval_error_rate eval_latency_p99_ms eval_cpu_percent
         append app length Nat.eqb];
    (split; [split; [intros [=]|intros (? & ? & ?); exfalso; lra]
            |split; [intros [=]|done]])
    || (split; [split; [intros _; repeat split; lra|done]|done]).
Qed.

End CanaryExtra.


(** * Properties of the blue-green rollout *)

Section BlueGreenProofs.
Import BlueGreenDeployment.

(** X17.  The outcome of [deploy_green_environment] is decided by the
    first check that fails: FAILED "Health check timeout" when the health
    checks fail, FAILED "Smoke test failure" when they pass and the smoke
    tests fail, ROLLED_BACK "Health degradation" when both pass and the
    monitoring fails, and SUCCESS, naming the new version and both groups,
    exactly when all three pass. *)
Theorem blue_green_outcome (self : BlueGreenDeploymentAgent)
  (service new_image_uri : string) (instance_count : Z) (now : Q) :
  let green := green_name service now in
  let r := (deploy_green_environment self service new_image_uri
              instance_count now []).1 in
  (health_checks_pass self green = false →
   r = mkDeployResult "FAILED" (Some "Health check timeout") None None None) ∧
  (health_checks_pass self green = true → smoke_tests_pass self green = false →
   r = mkDeployResult "FAILED" (Some "Smoke test failure") None None None) ∧
  (health_checks_pass self green = true → smoke_tests_pass self green = true →
   monitoring_passes self green = false →
   r = mkDeployResult "ROLLED_BACK" (Some "Health degradation") None None None) ∧
  (status r = "SUCCESS" ↔
   health_checks_pass self green = true ∧ smoke_tests_pass self green = true ∧
   monitoring_passes self green = true) ∧
  (status r = "SUCCESS" →
   r = mkDeployResult "SUCCESS" None (Some new_image_uri)
         (Some (blue_name service)) (Some green)).
Proof.
  intros green r. unfold r, deploy_green_environment. fold green.
  unfold _wait_for_health_checks, _run_smoke_tests, _monitor_deployment.
  destruct (health_checks_pass self green);
    destruct (smoke_tests_pass self green);
    destruct (monitoring_passes self green); cbn;
    repeat split; try done; try (intros [=]); try (intros (? & ? & ?)); done.
Qed.

(** X18.  What [deploy_green_environment] does to traffic and capacity.
    The green group is always created first.  Traffic is switched to green
    only after health checks and smoke tests passed; a FAILED run never
    touches the target group and terminates the green group.  A ROLLED_BACK
    run switches to green and then back to blue, and terminates neither
    group.  The blue group is terminated only by a SUCCESS run, which leaves
    the traffic on green. *)
Theorem blue_green_traffic (self : BlueGreenDeploymentAgent)
  (service new_image_uri : string) (instance_count : Z) (now : Q) :
  let green := green_name service now in
  let blue := blue_name service in
  let run := deploy_green_environment self service new_image_uri
               instance_count now [] in
  head run.2 = Some (create_autoscaling_group green new_image_uri instance_count) ∧
  (status run.1 = "FAILED" ↔
   switches run.2 = [] ∧ terminated run.2 = [green]) ∧
  (status run.1 = "ROLLED_BACK" ↔
   switches run.2 = [green; blue] ∧ terminated run.2 = []) ∧
  (status run.1 = "SUCCESS" ↔
   switches run.2 = [green] ∧ terminated run.2 = [blue]) ∧
  (switches run.2 ≠ [] →
   health_checks_pass self green = true ∧ smoke_tests_pass self green = true).
Proof.
  intros green blue run. unfold run, deploy_green_environment. fold green blue.
  unfold _wait_for_health_checks, _run_smoke_tests, _monitor_deployment.
  assert (Hgb : green ≠ blue) by (unfold green, blue, green_name, blue_name; congruence).
  destruct (health_checks_pass self green);
    destruct (smoke_tests_pass self green);
    destruct (monitoring_passes self green); cbn;
    repeat split; try done; try (intros [=]); try (intros [[=] ?]);
    try (intros [? [=]]); try congruence.
Qed.

Example blue_green_stub :
  deploy_green_environment stub_agent "shop" "img:2" 3 1700000000%Q []
  = (mkDeployResult "FAILED" (Some "Health check timeout") None None None,
     [create_autoscaling_group (green_name "shop" 1700000000%Q) "img:2" 3;
      wait_for_health_checks (green_name "shop" 1700000000%Q) 300;
      terminate_asg (green_name "shop" 1700000000%Q)]).
Proof. reflexivity. Qed.

End BlueGreenProofs.

(** * Properties of the metric comparison *)

Section MonitoringProofs.
Import CanaryMonitoring.
Open Scope Q_scope.

Variable self : CanaryMonitoringAgent.
Variables service baseline_version canary_version : string.

Local Abbreviation step := (compare_metric self service baseline_version canary_version).
Local Abbreviation loop := (for_metrics self service baseline_version canary_version).

Lemma bind_Value {A B : Type} (a : A) (f : A → result B) : Value a ≫= f = f a.
Proof. reflexivity. Qed.

Lemma bind_Raise {A B : Type} (e : PyError) (f : A → result B) :
  Raise e ≫= f = Raise e.
Proof. reflexivity. Qed.

Lemma mean_not_zero_division (data : list Q) : mean data ≠ Raise ZeroDivisionError.
Proof. by destruct data. Qed.

(** Under the guard [baseline_avg > 0] the division succeeds. *)
Lemma py_div_positive (a b : Q) : 0 < b → py_div a b = Value (a / b).
Proof.
  intros Hb. unfold py_div. destruct (Qeq_dec b 0) as [Hz|_]; [|done].
  rewrite Hz in Hb. by apply Qlt_irrefl in Hb.
Qed.

(** What one iteration computes, when it does not raise. *)
Lemma compare_metric_Value (c c' : Comparison) (m : string) :
  step c m = Value c' →
  ∃ b k pct,
    mean (samples self m service baseline_version) = Value b ∧
    mean (samples self m service canary_version) = Value k ∧
    (if Qlt_le_dec 0 b then pct = Qabs (k - b) / b else pct = 0) ∧
    metric_comparisons c' =
      <[m := mkMetricResult b k pct
               (if Qlt_le_dec (alert_threshold self) pct
                then "DEGRADED" else "HEALTHY")]> (metric_comparisons c) ∧
    issues_detected c' =
      (if Qlt_le_dec (alert_threshold self) pct
       then append (issues_detected c)
              (mkIssue m (if Qlt_le_dec 0.25 pct then "HIGH" else "MEDIUM")
                       (py_round2 (pct * 100)))
       else issues_detected c) ∧
    rollback_recommended c' = rollback_recommended c.
Proof.
  unfold compare_metric.
  destruct (mean (samples self m service baseline_version)) as [b|] eqn:Eb; [|done].
  destruct (mean (samples self m service canary_version)) as [k|] eqn:Ek; [|done].
  rewrite !bind_Value.
  assert (Hpct : ∃ pct,
            (if Qlt_le_dec 0 b then py_div (Qabs (k - b)) b else Value 0)
              = Value pct ∧
            (if Qlt_le_dec 0 b then pct = Qabs (k - b) / b else pct = 0)).
  { destruct (Qlt_le_dec 0 b) as [Hb|Hb]; eexists; split; try reflexivity.
    by apply py_div_positive. }
  destruct Hpct as (pct & -> & Hpct). rewrite bind_Value.
  intros [= <-]. exists b, k, pct.
  destruct (Qlt_le_dec (alert_threshold self) pct);
    cbn [metric_comparisons issues_detected rollback_recommended]; auto 10.
Qed.

Lemma compare_metric_not_zero_division (c : Comparison) (m : string) :
  step c m ≠ Raise ZeroDivisionError.
Proof.
  unfold compare_metric.
  destruct (mean (samples self m service baseline_version)) as [b|e] eqn:Eb.
  2:{ simpl. intros [= ->]. by apply mean_not_zero_division in Eb. }
  destruct (mean (samples self m service canary_version)) as [k|e] eqn:Ek.
  2:{ simpl. intros [= ->]. by apply mean_not_zero_division in Ek. }
  simpl. destruct (Qlt_le_dec 0 b) as [Hb|Hb].
  - by rewrite py_div_positive.
  - done.
Qed.

Lemma for_metrics_not_zero_division (ms : list string) (c : Comparison) :
  loop ms c ≠ Raise ZeroDivisionError.
Proof.
  revert c. induction ms as [|m ms IH]; intros c; simpl; [done|].
  destruct (step c m) as [c'|e] eqn:E; simpl.
  - apply IH.
  - intros [= ->]. by apply compare_metric_not_zero_division in E.
Qed.

(** The loop never touches [rollback_recommended]. *)
Lemma for_metrics_rollback (ms : list string) (c c' : Comparison) :
  loop ms c = Value c' → rollback_recommended c' = rollback_recommended c.
Proof.
  revert c. induction ms as [|m ms IH]; intros c; simpl.
  - by intros [= ->].
  - destruct (step c m) as [c1|] eqn:E; simpl; [|done].
    intros H. apply IH in H. rewrite H.
    apply compare_metric_Value in E as (b & k & pct & _ & _ & _ & _ & _ & Hr).
    done.
Qed.

Lemma for_metrics_quiet (ms : list string) (c c' : Comparison) :
  0 <= alert_threshold self →
  loop ms c = Value c' →
  (∀ m, m ∈ ms → is_Some (metric_comparisons c' !! m)) ∧
  (∀ m r, metric_comparisons c' !! m = Some r →
          metric_comparisons c !! m = Some r ∨
          quiet self service baseline_version m r) ∧
  (∀ i, i ∈ issues_detected c' → i ∈ issues_detected c ∨
        alarmed self service baseline_version i).
Proof.
  intros Hth. revert c. induction ms as [|m ms IH]; intros c; simpl.
  - intros [= ->]. split; [|by auto]. intros m Hm. by apply elem_of_nil in Hm.
  - destruct (step c m) as [c1|] eqn:E; simpl; [|done].
    intros Hloop. destruct (IH c1 Hloop) as (Hdom & Hres & Hiss).
    apply compare_metric_Value in E
      as (b & k & pct & Hb & Hk & Hpct & Hmap & Hissues & _).
    assert (Hquiet : quiet self service baseline_version m (mkMetricResult b k pct
                       (if Qlt_le_dec (alert_threshold self) pct
                        then "DEGRADED" else "HEALTHY"))).
    { intros b' Hb' Hle. rewrite Hb in Hb'. injection Hb' as <-.
      destruct (Qlt_le_dec 0 b); [lra|]. subst pct. simpl.
      destruct (Qlt_le_dec (alert_threshold self) 0); [lra|done]. }
    split; [|split].
    + intros m' Hm'. apply elem_of_cons in Hm' as [->|Hm']; [|by apply Hdom].
      destruct (metric_comparisons c' !! m) as [r|] eqn:Er; [by eexists|].
      exfalso.
      (* the entry inserted for [m] can only be overwritten, never removed *)
      clear -Hloop Hmap Er.
      assert (Hkeep : ∀ ms c1 c', loop ms c1 = Value c' →
                ∀ m, is_Some (metric_comparisons c1 !! m) →
                     is_Some (metric_comparisons c' !! m)).
      { clear. intros ms. induction ms as [|m0 ms IH]; intros c1 c' H m Hm; simpl in H.
        - by injection H as <-.
        - destruct (step c1 m0) as [c2|] eqn:E; simpl in H; [|done].
          apply (IH _ _ H).
          apply compare_metric_Value in E as (? & ? & ? & _ & _ & _ & Hmap & _).
          rewrite Hmap. destruct (decide (m0 = m)) as [->|Hne].
          + rewrite lookup_insert_eq. by eexists.
          + by rewrite lookup_insert_ne. }
      assert (Hs : is_Some (metric_comparisons c' !! m)).
      { apply (Hkeep _ _ _ Hloop). rewrite Hmap, lookup_insert_eq. by eexists. }
      rewrite Er in Hs. by destruct Hs.
    + intros m' r Hr. destruct (Hres m' r Hr) as [Hold|Hq]; [|by right].
      rewrite Hmap in Hold. destruct (decide (m = m')) as [->|Hne].
      * rewrite lookup_insert_eq in Hold. injection Hold as <-. by right.
      * rewrite lookup_insert_ne in Hold by done. by left.
    + intros i Hi. destruct (Hiss i Hi) as [Hold|Ha]; [|by right].
      rewrite Hissues in Hold.
      destruct (Qlt_le_dec (alert_threshold self) pct) as [Hlt|_]; [|by left].
      unfold append in Hold. apply elem_of_app in Hold as [Hold|Hnew]; [by left|].
      apply list_elem_of_singleton in Hnew as ->. right.
      exists b. split; [done|].
      destruct (Qlt_le_dec 0 b); [done|]. subst pct. lra.
Qed.

End MonitoringProofs.

Section MonitoringClaims.
Import CanaryMonitoring.
Open Scope Q_scope.

(** C5.  In every comparison produced by [compare_versions], the flag
    [rollback_recommended] is true exactly when at least two detected
    issues have severity HIGH; with exactly one HIGH issue it is false. *)
Theorem rollback_recommended_iff_two_high (self : CanaryMonitoringAgent)
  (service baseline_version canary_version : string) (c : Comparison) :
  compare_versions self service baseline_version canary_version = Value c →
  (rollback_recommended c = true ↔ (2 ≤ count_high (issues_detected c))%nat) ∧
  (count_high (issues_detected c) = 1%nat → rollback_recommended c = false).
Proof.
  unfold compare_versions.
  destruct (for_metrics _ _ _ _ _ _) as [c0|] eqn:E; [|done].
  rewrite bind_Value. apply for_metrics_rollback in E.
  cbn [rollback_recommended] in E.
  destruct (2 <=? count_high (issues_detected c0))%nat eqn:Hc; intros [= <-];
    cbn [rollback_recommended issues_detected].
  - apply Nat.leb_le in Hc. split; [split; auto|]. intros H1. rewrite H1 in Hc. lia.
  - apply Nat.leb_gt in Hc. rewrite E. split; [|done].
    split; [done|]. intros H2. lia.
Qed.

Lemma rollback_recommended_iff_two_high_witness :
  ∃ c,
    compare_versions one_high_agent "shop" "v1" "v2" = Value c ∧
    (rollback_recommended c = true ↔ (2 ≤ count_high (issues_detected c))%nat) ∧
    (count_high (issues_detected c) = 1%nat → rollback_recommended c = false).
Proof.
  destruct (compare_versions one_high_agent "shop" "v1" "v2") as [c|e] eqn:E.
  - exists c. split; [reflexivity|].
    exact (rollback_recommended_iff_two_high one_high_agent "shop" "v1" "v2" c E).
  - exfalso. vm_compute in E. discriminate E.
Defined.

(** C6.  For an agent as [__init__] builds it (alert threshold 0.15):
    the comparison never raises ZeroDivisionError, since the division by
    the baseline mean sits under the guard [baseline_avg > 0]; and in every
    comparison produced, a compared metric whose baseline mean is not
    greater than 0 has percent deviation 0 and status HEALTHY, and no issue
    is recorded for it. *)
Theorem zero_baseline_never_alarms (prometheus_client : PrometheusClient)
  (datadog_client : unit) (service baseline_version canary_version : string) :
  let self := init prometheus_client datadog_client in
  compare_versions self service baseline_version canary_version
    ≠ Raise ZeroDivisionError ∧
  ∀ c m b,
    compare_versions self service baseline_version canary_version = Value c →
    m ∈ metrics_to_compare →
    mean (samples self m service baseline_version) = Value b →
    b <= 0 →
    (∃ r, metric_comparisons c !! m = Some r ∧
          percent_change r = 0 ∧ status r = "HEALTHY") ∧
    (∀ i, i ∈ issues_detected c → metric i ≠ m).
Proof.
  intros self. split.
  - unfold compare_versions.
    destruct (for_metrics _ _ _ _ _ _) as [c0|e] eqn:E; [done|].
    rewrite bind_Raise.
    intros [= ->]. by apply for_metrics_not_zero_division in E.
  - intros c m b Hc Hm Hb Hle. unfold compare_versions in Hc.
    destruct (for_metrics _ _ _ _ _ _) as [c0|] eqn:E; [|done].
    rewrite bind_Value in Hc.
    destruct (for_metrics_quiet self service baseline_version canary_version
                _ _ c0 ltac:(simpl; lra) E) as (Hdom & Hres & Hiss).
    assert (Hmaps : metric_comparisons c = metric_comparisons c0
                    ∧ issues_detected c = issues_detected c0).
    { destruct (2 <=? count_high (issues_detected c0))%nat;
        injection Hc as <-; done. }
    destruct Hmaps as [-> ->]. split.
    + destruct (Hdom m Hm) as [r Hr]. exists r. split; [done|].
      destruct (Hres m r Hr) as [Hold|Hq].
      * cbn [metric_comparisons] in Hold. by rewrite lookup_empty in Hold.
      * by apply (Hq b).
    + intros i Hi <-. destruct (Hiss i Hi) as [Hold|(b' & Hb' & Hpos)].
      * cbn [issues_detected] in Hold. by apply elem_of_nil in Hold.
      * rewrite Hb in Hb'. injection Hb' as <-. lra.
Qed.

Lemma zero_baseline_never_alarms_witness :
  ∃ c,
    compare_versions one_high_agent "shop" "v1" "v2" = Value c ∧
    "error_rate" ∈ metrics_to_compare ∧
    mean (samples one_high_agent "error_rate" "shop" "v1") = Value (0 # 2) ∧
    0 # 2 <= 0 ∧
    (∃ r, metric_comparisons c !! "error_rate" = Some r ∧
          percent_change r = 0 ∧ status r = "HEALTHY") ∧
    (∀ i, i ∈ issues_detected c → metric i ≠ "error_rate").
Proof.
  destruct (compare_versions one_high_agent "shop" "v1" "v2") as [c|e] eqn:E.
  - assert (Hm : "error_rate" ∈ metrics_to_compare)
      by (unfold metrics_to_compare; right; left).
    assert (Hb : mean (samples one_high_agent "error_rate" "shop" "v1")
                 = Value (0 # 2)) by (vm_compute; reflexivity).
    assert (Hle : 0 # 2 <= 0) by (vm_compute; discriminate).
    exists c. split; [reflexivity|]. split; [exact Hm|].
    split; [exact Hb|]. split; [exact Hle|].
    exact (proj2 (zero_baseline_never_alarms (zero_baseline_client ["cpu_usage"])
                    () "shop" "v1" "v2") c "error_rate" (0 # 2) E Hm Hb Hle).
  - exfalso. vm_compute in E. discriminate E.
Defined.

Example compare_one_high :
  ∃ c, compare_versions one_high_agent "shop" "v1" "v2" = Value c ∧
       count_high (issues_detected c) = 1%nat ∧ rollback_recommended c = false.
Proof. eexists. split; [vm_compute; reflexivity|]. split; reflexivity. Qed.

Example compare_two_high :
  ∃ c, compare_versions two_high_agent "shop" "v1" "v2" = Value c ∧
       count_high (issues_detected c) = 2%nat ∧ rollback_recommended c = true.
Proof. eexists. split; [vm_compute; reflexivity|]. split; reflexivity. Qed.

End MonitoringClaims.

(** * Further properties of the metric comparison *)

Section MonitoringExtra.
Import CanaryMonitoring MetricComparison.
Open Scope Q_scope.

Variable self : CanaryMonitoringAgent.
Variables service baseline_version canary_version : string.

Local Abbreviation step := (compare_metric self service baseline_version canary_version).
Local Abbreviation loop := (for_metrics self service baseline_version canary_version).

Lemma mean_Raise (data : list Q) (e : PyError) :
  mean data = Raise e ↔ data = [] ∧ e = StatisticsError.
Proof.
  destruct data as [|x data]; simpl.
  - split; [by intros [= <-]|by intros [_ ->]].
  - split; [done|by intros [[=] _]].
Qed.

Lemma mean_Value (data : list Q) : data ≠ [] → ∃ b, mean data = Value b.
Proof. destruct data; [done|]. intros _. by eexists. Qed.

(** One iteration, in terms of the deviation. *)
Lemma compare_metric_deviation (c c' : Comparison) (m : string) :
  step c m = Value c' →
  ∃ b k,
    measured self service baseline_version canary_version m b k ∧
    metric_comparisons c' = <[m := result_of self b k]> (metric_comparisons c) ∧
    issues_detected c' = (issues_detected c ++ issues_of self m b k)%list.
Proof.
  intros H. apply compare_metric_Value in H
    as (b & k & pct & Hb & Hk & Hpct & Hmap & Hiss & _).
  exists b, k. split; [done|].
  assert (pct = deviation b k) as ->.
  { unfold deviation. by destruct (Qlt_le_dec 0 b). }
  split; [done|]. rewrite Hiss. unfold issues_of.
  destruct (Qlt_le_dec (alert_threshold self) (deviation b k)); [done|].
  by rewrite app_nil_r.
Qed.

(** An iteration raises exactly when one of its two sample lists is empty. *)
Lemma compare_metric_Raise (c : Comparison) (m : string) (e : PyError) :
  step c m = Raise e ↔
  e = StatisticsError ∧
  (samples self m service baseline_version = [] ∨
   samples self m service canary_version = []).
Proof.
  split.
  - intros H.
    assert (e = StatisticsError) as ->.
    { destruct e; [done|]. by apply compare_metric_not_zero_division in H. }
    split; [done|]. unfold compare_metric in H.
    destruct (mean (samples self m service baseline_version)) as [b|e] eqn:Eb.
    2:{ left. by apply mean_Raise in Eb as [? _]. }
    destruct (mean (samples self m service canary_version)) as [k|e] eqn:Ek.
    2:{ right. by apply mean_Raise in Ek as [? _]. }
    rewrite !bind_Value in H.
    destruct (Qlt_le_dec 0 b) as [Hb|Hb].
    + by rewrite py_div_positive in H.
    + done.
  - intros [-> [Hnil|Hnil]]; unfold compare_metric.
    + by rewrite Hnil.
    + rewrite Hnil.
      destruct (mean (samples self m service baseline_version)) as [b|e] eqn:Eb.
      * reflexivity.
      * apply mean_Raise in Eb as [_ ->]. reflexivity.
Qed.

Lemma for_metrics_Raise (ms : list string) (c : Comparison) (e : PyError) :
  loop ms c = Raise e ↔
  e = StatisticsError ∧
  ∃ m, m ∈ ms ∧ (samples self m service baseline_version = [] ∨
                 samples self m service canary_version = []).
Proof.
  revert c. induction ms as [|m ms IH]; intros c; simpl.
  - split; [done|]. intros [_ (m & Hm & _)]. by apply elem_of_nil in Hm.
  - destruct (step c m) as [c1|e1] eqn:E.
    + rewrite bind_Value, IH. split.
      * intros [-> (m' & Hm' & Hnil)]. split; [done|]. exists m'. split; [by right|done].
      * intros [-> (m' & Hm' & Hnil)]. split; [done|].
        apply elem_of_cons in Hm' as [->|Hm']; [|eauto].
        exfalso. assert (step c m = Raise StatisticsError) as Hr
          by (by apply compare_metric_Raise).
        rewrite E in Hr. done.
    + rewrite bind_Raise. apply compare_metric_Raise in E as [-> Hnil]. split.
      * intros [= <-]. split; [done|]. exists m. split; [left|done].
      * by intros [-> _].
Qed.

(** What the loop leaves behind: the issues of the metrics in order, and
    one entry for each metric it went through. *)
Lemma for_metrics_results (ms : list string) (c c' : Comparison) :
  NoDup ms →
  loop ms c = Value c' →
  issues_detected c' =
    (issues_detected c
       ++ concat (issues_for self service baseline_version canary_version <$> ms))%list ∧
  (∀ m, m ∉ ms → metric_comparisons c' !! m = metric_comparisons c !! m) ∧
  (∀ m, m ∈ ms →
     ∃ b k, measured self service baseline_version canary_version m b k ∧
            metric_comparisons c' !! m = Some (result_of self b k)).
Proof.
  revert c. induction ms as [|m ms IH]; intros c Hnd; simpl.
  - intros [= <-]. rewrite app_nil_r. split; [done|]. split; [done|].
    intros m Hm. by apply elem_of_nil in Hm.
  - apply NoDup_cons in Hnd as [Hm Hnd].
    destruct (step c m) as [c1|] eqn:E; [|done]. rewrite bind_Value.
    intros Hloop. destruct (IH c1 Hnd Hloop) as (Hiss & Hout & Hin).
    apply compare_metric_deviation in E as (b & k & [Hb Hk] & Hmap & Hiss1).
    split; [|split].
    + rewrite Hiss, Hiss1. unfold issues_for at 2. rewrite Hb, Hk.
      by rewrite <- app_assoc.
    + intros m' Hm'. rewrite Hout by (intros ?; apply Hm'; by right).
      rewrite Hmap. apply lookup_insert_ne. intros ->. apply Hm'. left.
    + intros m' Hm'. apply elem_of_cons in Hm' as [->|Hm']; [|by apply Hin].
      exists b, k. split; [done|]. rewrite Hout by done.
      rewrite Hmap. apply lookup_insert_eq.
Qed.

Lemma issues_for_metric (m : string) (i : Issue) :
  i ∈ issues_for self service baseline_version canary_version m →
  metric i = m ∧ (severity i = "HIGH" ∨ severity i = "MEDIUM").
Proof.
  unfold issues_for, issues_of.
  destruct (mean (samples self m service baseline_version)) as [b|];
    [|by intros ?%elem_of_nil].
  destruct (mean (samples self m service canary_version)) as [k|];
    [|by intros ?%elem_of_nil].
  destruct (Qlt_le_dec (alert_threshold self) (deviation b k));
    [|by intros ?%elem_of_nil].
  intros ->%list_elem_of_singleton. simpl.
  split; [done|]. destruct (Qlt_le_dec 0.25 (deviation b k)); auto.
Qed.

Lemma issues_for_sublist (ms : list string) :
  metric <$> concat (issues_for self service baseline_version canary_version <$> ms)
    `sublist_of` ms.
Proof.
  induction ms as [|m ms IH]; simpl; [done|].
  rewrite fmap_app.
  assert (Hm : metric <$> issues_for self service baseline_version canary_version m
               = [] ∨
               metric <$> issues_for self service baseline_version canary_version m
               = [m]).
  { unfold issues_for, issues_of.
    destruct (mean (samples self m service baseline_version)) as [b|]; [|by left].
    destruct (mean (samples self m service canary_version)) as [k|]; [|by left].
    destruct (Qlt_le_dec (alert_threshold self) (deviation b k)); [by right|by left]. }
  destruct Hm as [->| ->]; simpl.
  - by apply sublist_cons.
  - by apply sublist_skip.
Qed.

End MonitoringExtra.

Section MonitoringExtraTheorems.
Import CanaryMonitoring MetricComparison.
Open Scope Q_scope.

Lemma metrics_to_compare_NoDup : NoDup metrics_to_compare.
Proof.
  unfold metrics_to_compare.
  repeat (apply NoDup_cons; split;
          [intros H; repeat (apply elem_of_cons in H as [H|H]; [discriminate H|]);
           by apply elem_of_nil in H|]).
  apply NoDup_nil_2.
Qed.


(** X19.  [compare_versions] either produces a comparison or raises
    StatisticsError, and it raises exactly when one of the ten sample lists
    it reads (five metrics, two versions) is empty. *)
Theorem compare_versions_raises_iff_missing (self : CanaryMonitoringAgent)
  (service baseline_version canary_version : string) :
  ((∃ c, compare_versions self service baseline_version canary_version = Value c) ∨
   compare_versions self service baseline_version canary_version
     = Raise StatisticsError) ∧
  (compare_versions self service baseline_version canary_version
     = Raise StatisticsError ↔
   missing_samples self service baseline_version canary_version).
Proof.
  unfold compare_versions, missing_samples.
  destruct (for_metrics _ _ _ _ _ _) as [c0|e] eqn:E.
  - rewrite bind_Value. split; [left; by eexists|].
    split; [done|]. intros Hmiss. exfalso.
    assert (for_metrics self service baseline_version canary_version
              metrics_to_compare
              (mkComparison service baseline_version canary_version ∅ [] false)
            = Raise StatisticsError) as Hr by (by apply for_metrics_Raise).
    rewrite E in Hr. done.
  - rewrite bind_Raise. apply for_metrics_Raise in E as [-> Hmiss].
    split; [by right|]. done.
Qed.

(** X20.  A comparison produced by [compare_versions] is consistent: it
    has an entry for each of the five metrics and no other; the status of
    an entry is DEGRADED or HEALTHY, and DEGRADED exactly when an issue is
    recorded for that metric; every issue is HIGH or MEDIUM; and the issues
    name distinct metrics, in the order of the metric list. *)
Theorem comparison_consistent (self : CanaryMonitoringAgent)
  (service baseline_version canary_version : string) (c : Comparison) :
  compare_versions self service baseline_version canary_version = Value c →
  (∀ m, is_Some (metric_comparisons c !! m) ↔ m ∈ metrics_to_compare) ∧
  (∀ m r, metric_comparisons c !! m = Some r →
          (status r = "DEGRADED" ∨ status r = "HEALTHY") ∧
          (status r = "DEGRADED" ↔ flagged c m)) ∧
  (∀ i, i ∈ issues_detected c → severity i = "HIGH" ∨ severity i = "MEDIUM") ∧
  metric <$> issues_detected c `sublist_of` metrics_to_compare.
Proof.
  unfold compare_versions.
  destruct (for_metrics _ _ _ _ _ _) as [c0|] eqn:E; [|done].
  rewrite bind_Value. intros Hc.
  destruct (for_metrics_results self service baseline_version canary_version
              _ _ _ metrics_to_compare_NoDup E) as (Hiss & Hout & Hin).
  cbn [issues_detected metric_comparisons app] in Hiss, Hout.
  assert (Hsame : metric_comparisons c = metric_comparisons c0
                  ∧ issues_detected c = issues_detected c0).
  { destruct (2 <=? count_high (issues_detected c0))%nat; injection Hc as <-; done. }
  destruct Hsame as [Hmaps Hissues]. unfold flagged. rewrite Hissues, Hmaps, Hiss.
  assert (Hmember : ∀ i, i ∈ concat (issues_for self service baseline_version
                                        canary_version <$> metrics_to_compare) ↔
                         ∃ m, m ∈ metrics_to_compare ∧
                              i ∈ issues_for self service baseline_version
                                    canary_version m).
  { intros i. rewrite list_elem_of_In, in_concat. split.
    - intros (l & Hl & Hi). apply list_elem_of_In, list_elem_of_fmap in Hl
        as (m & -> & Hm). exists m. split; [done|]. by apply list_elem_of_In.
    - intros (m & Hm & Hi). eexists. split; [|apply list_elem_of_In, Hi].
      apply list_elem_of_In, list_elem_of_fmap. eauto. }
  split; [|split; [|split]].
  - intros m. split.
    + intros Hsome. destruct (decide (m ∈ metrics_to_compare)) as [|Hn]; [done|].
      rewrite (Hout m Hn), lookup_empty in Hsome. by destruct Hsome.
    + intros Hm. destruct (Hin m Hm) as (b & k & _ & ->). by eexists.
  - intros m r Hr.
    assert (Hm : m ∈ metrics_to_compare).
    { destruct (decide (m ∈ metrics_to_compare)) as [|Hn]; [done|].
      by rewrite (Hout m Hn), lookup_empty in Hr. }
    destruct (Hin m Hm) as (b & k & [Hb Hk] & Hlook).
    rewrite Hlook in Hr. injection Hr as <-. unfold result_of. cbn [status].
    assert (Hfor : issues_for self service baseline_version canary_version m
                   = issues_of self m b k).
    { unfold issues_for. by rewrite Hb, Hk. }
    destruct (Qlt_le_dec (alert_threshold self) (deviation b k)) as [Hlt|Hle].
    + split; [by left|]. split; [|done]. intros _.
      eexists. split.
      * apply Hmember. exists m. split; [done|]. rewrite Hfor. unfold issues_of.
        destruct (Qlt_le_dec (alert_threshold self) (deviation b k)); [left|lra].
      * done.
    + split; [by right|]. split; [done|].
      intros (i & Hi & Hmi). exfalso. apply Hmember in Hi as (m' & Hm' & Hi).
      pose proof (issues_for_metric _ _ _ _ _ _ Hi) as [Hmet _].
      assert (m' = m) as -> by congruence.
      rewrite Hfor in Hi. unfold issues_of in Hi.
      destruct (Qlt_le_dec (alert_threshold self) (deviation b k)); [lra|].
      by apply elem_of_nil in Hi.
  - intros i Hi. apply Hmember in Hi as (m & _ & Hi).
    by apply issues_for_metric in Hi as [_ ?].
  - apply issues_for_sublist.
Qed.

Lemma comparison_consistent_witness :
  ∃ c,
    compare_versions one_high_agent "shop" "v1" "v2" = Value c ∧
    (∀ m, is_Some (metric_comparisons c !! m) ↔ m ∈ metrics_to_compare) ∧
    (∀ m r, metric_comparisons c !! m = Some r →
            (status r = "DEGRADED" ∨ status r = "HEALTHY") ∧
            (status r = "DEGRADED" ↔ flagged c m)) ∧
    (∀ i, i ∈ issues_detected c → severity i = "HIGH" ∨ severity i = "MEDIUM") ∧
    metric <$> issues_detected c `sublist_of` metrics_to_compare.
Proof.
  destruct (compare_versions one_high_agent "shop" "v1" "v2") as [c|e] eqn:E.
  - exists c. split; [reflexivity|].
    exact (comparison_consistent one_high_agent "shop" "v1" "v2" c E).
  - exfalso. vm_compute in E. discriminate E.
Defined.





Example improvement_recommends_rollback :
  ∃ c, compare_versions improving_agent "shop" "v1" "v2" = Value c ∧
       metric <$> issues_detected c = ["request_latency_p99"; "cpu_usage"] ∧
       rollback_recommended c = true.
Proof. eexists. split; [vm_compute; reflexivity|]. split; reflexivity. Qed.

Example compare_no_samples :
  compare_versions (init empty_client ()) "shop" "v1" "v2" = Raise StatisticsError.
Proof. reflexivity. Qed.

End MonitoringExtraTheorems.

(** * Properties of [execute_intelligent_rollback] *)

Section RollbackProofs.
Import IntelligentRollback.

(** X22.  [execute_intelligent_rollback] never lets an exception escape
    and never returns IN_PROGRESS: the status is COMPLETED, without an
    error, exactly when stopping, draining and reverting all return, and
    FAILED with the text of the first exception otherwise.  The three calls
    are attempted in that order and the first exception ends them: when
    stopping or draining fails, the traffic is never reverted to the
    baseline. *)
Theorem rollback_outcome (lb : LoadBalancer)
  (service canary_version baseline_version : string) (now : datetime) :
  let run := execute_intelligent_rollback lb service canary_version
               baseline_version now [] in
  let stop := on_stop lb service canary_version in
  let drain := on_drain lb service canary_version in
  let revert := on_revert lb service baseline_version in
  (status run.1 = "COMPLETED" ∨ status run.1 = "FAILED") ∧
  (status run.1 = "COMPLETED" ↔ stop = None ∧ drain = None ∧ revert = None) ∧
  (status run.1 = "COMPLETED" ↔ error run.1 = None) ∧
  (∀ e, stop = Some e →
        error run.1 = Some e ∧
        run.2 = [stop_canary_traffic service canary_version]) ∧
  (∀ e, stop = None → drain = Some e →
        error run.1 = Some e ∧
        run.2 = [stop_canary_traffic service canary_version;
                 drain_canary_requests service canary_version]) ∧
  (stop = None → drain = None →
   error run.1 = revert ∧
   run.2 = [stop_canary_traffic service canary_version;
            drain_canary_requests service canary_version;
            revert_traffic service baseline_version]) ∧
  (revert_traffic service baseline_version ∈ run.2 ↔ stop = None ∧ drain = None).
Proof.
  intros run stop drain revert.
  unfold run, execute_intelligent_rollback, try_rollback, attempt.
  fold stop drain revert.
  assert (Hne1 : revert_traffic service baseline_version
                 ∉ [stop_canary_traffic service canary_version]).
  { intros H. apply list_elem_of_singleton in H. discriminate H. }
  assert (Hne2 : revert_traffic service baseline_version
                 ∉ [stop_canary_traffic service canary_version;
                    drain_canary_requests service canary_version]).
  { intros H. repeat (apply elem_of_cons in H as [H|H]; [discriminate H|]).
    by apply elem_of_nil in H. }
  destruct stop as [e1|]; [|destruct drain as [e2|]; [|destruct revert as [e3|]]];
    cbn; repeat split; try done; try (intros [=]); try (intros (? & ? & ?));
    try (intros [? ?]); try done; try (by right); try (by left);
    try (intros; simplify_eq; done);
    try (right; right; left).
Qed.

Example rollback_stub :
  (execute_intelligent_rollback stub_balancer "shop" "v2" "v1"
     (mkDatetime "2024-01-01T12:00:00" 12) []).1
  = mkRollbackAction "2024-01-01T12:00:00" "shop" "v2" "v1" "COMPLETED"
      ["Stopping new traffic to canary"; "Draining in-flight requests";
       "Shifting traffic to baseline"; "Waiting for metrics stabilization";
       "Terminating canary instances"] None.
Proof. reflexivity. Qed.

End RollbackProofs.
